(** * nor_crawler: the crawl core (scheduler, fetch pipeline, politeness layer)

    A shallow embedding of [crawler/utils.py], [crawler/scheduler.py],
    [crawler/anti_bot.py] and [crawler/fetcher.py], and the properties of the
    crawl core stated over it.

    Conventions of the embedding
    - Python [str] is [string]; [str.lower] acts on the ASCII letters.
    - Python [int] is [Z] (or [nat] for counters that only count up from 0);
      Python [float] is idealised as the rationals [Q].
    - A call that may raise returns a [result]; [Raise e] is the exception [e]
      propagating to the caller.  Loops written with [while] are run with an
      explicit fuel, and [OutOfFuel] is the answer of a loop that did not
      finish within it.
    - [dict] is [gmap], [set] is [gset].
    - The effects of a coroutine (rate-limiter waits, HTTP requests, sleeps)
      are recorded, in order, in a trace of events. *)

From Stdlib Require Import ZArith QArith Qround Lqa Lia String Ascii List Bool.
From stdpp Require Import base option list gmap sets strings.
Import ListNotations.

Local Open Scope string_scope.
Local Open Scope Z_scope.

(** ** Exceptions and results *)

Inductive exn : Type :=
  | ValueError          (* urllib.parse on a malformed URL *)
  | IndexError          (* list index out of range *)
  | ZeroDivisionError   (* float modulo by zero *)
  | RequestError        (* httpx.RequestError: a network-level failure *)
  | Exception (msg : string).  (* any other subclass of Exception *)

Inductive result (A : Type) : Type :=
  | Ok (a : A)
  | Raise (e : exn)
  | OutOfFuel.
Arguments Ok {A} a.
Arguments Raise {A} e.
Arguments OutOfFuel {A}.

Definition bind {A B} (r : result A) (k : A -> result B) : result B :=
  match r with
  | Ok a => k a
  | Raise e => Raise e
  | OutOfFuel => OutOfFuel
  end.

Notation "x <- r ;; k" := (bind r (fun x => k))
  (at level 100, r at next level, right associativity).

Definition returns {A} (r : result A) : Prop := exists a, r = Ok a.

(** ** Strings *)

Definition ascii_lower (c : ascii) : ascii :=
  let n := nat_of_ascii c in
  if ((65 <=? n) && (n <=? 90))%nat then ascii_of_nat (n + 32) else c.

(** [s.lower()] *)
Fixpoint lower (s : string) : string :=
  match s with
  | EmptyString => EmptyString
  | String c s' => String (ascii_lower c) (lower s')
  end.

(** [s.endswith(suf)]: some tail of [s] is [suf]. *)
Fixpoint endswith (s suf : string) : bool :=
  if String.eqb s suf then true
  else match s with
       | EmptyString => false
       | String _ s' => endswith s' suf
       end.

(** ** urllib.parse

    [urlparse] and [urlunparse] belong to the Python standard library; the
    crawler only uses them through the three helpers below.  They are an
    interface here, and every property of the crawler is proved for all of
    its implementations.  [urlparse] raises [ValueError] on some inputs
    (an unbalanced bracket in the network location, for one). *)

Record ParseResult : Type := {
  scheme : string;
  netloc : string;
  path : string;
  params : string;
  query : string;
  fragment : string;
}.

(** [parsed._replace(fragment=f)] *)
Definition replace_fragment (p : ParseResult) (f : string) : ParseResult :=
  {| scheme := scheme p; netloc := netloc p; path := path p;
     params := params p; query := query p; fragment := f |}.

Class UrlLib : Type := {
  urlparse : string -> result ParseResult;
  urlunparse : ParseResult -> string;
}.

(** ** crawler/utils.py *)

Section Utils.
Context `{UrlLib}.

(** [get_domain(url)] *)
Definition get_domain (url : string) : result string :=
  p <- urlparse url ;; Ok (netloc p).

(** [same_domain(url, domains)] *)
Definition same_domain (url : string) (domains : list string) : result bool :=
  d <- get_domain url ;;
  let netloc := lower d in
  Ok (existsb (fun d => endswith netloc (lower d)) domains).

(** [normalize_url(url)] *)
Definition normalize_url (url : string) : result string :=
  parsed <- urlparse url ;;
  let parsed := replace_fragment parsed "" in
  Ok (urlunparse parsed).
End Utils.

(** ** crawler/scheduler.py: the frontier *)

(** [asyncio.Queue()] without a size limit: the pending items, oldest first,
    and the counter of items put and not yet marked done. *)
Record Queue : Type := {
  items : list string;
  unfinished_tasks : nat;
}.

Definition Queue_new : Queue := {| items := []; unfinished_tasks := 0 |}.

(** [queue.put_nowait(x)]; an unbounded queue is never full. *)
Definition put_nowait (q : Queue) (x : string) : Queue :=
  {| items := items q ++ [x]; unfinished_tasks := S (unfinished_tasks q) |}.

Record Scheduler : Type := {
  queue : Queue;
  seen : gset string;
  allowed_domains : list string;
}.

(** [bool(l)] of a list. *)
Definition nonempty {A} (l : list A) : bool :=
  match l with [] => false | _ => true end.

Section Frontier.
Context `{UrlLib}.

(** [Scheduler.enqueue(url)] *)
Definition enqueue (self : Scheduler) (url : string) : result Scheduler :=
  url <- normalize_url url ;;
  out_of_scope <-
    (if nonempty (allowed_domains self)
     then b <- same_domain url (allowed_domains self) ;; Ok (negb b)
     else Ok false) ;;
  if (out_of_scope : bool) then Ok self
  else if decide (url ∈ seen self) then Ok self
  else Ok {| queue := put_nowait (queue self) url;
             seen := {[url]} ∪ seen self;
             allowed_domains := allowed_domains self |}.

(** The loop [for url in seeds: self.enqueue(url)] of [__init__]. *)
Fixpoint enqueue_all (self : Scheduler) (urls : list string) : result Scheduler :=
  match urls with
  | [] => Ok self
  | u :: rest => s <- enqueue self u ;; enqueue_all s rest
  end.

(** [Scheduler(seeds, allowed_domains)]; [allowed_domains or []] of a list
    is the list. *)
Definition Scheduler_init (seeds allowed : list string) : result Scheduler :=
  enqueue_all {| queue := Queue_new; seen := ∅; allowed_domains := allowed |} seeds.

(** A caller that survives a raising [enqueue]: the frontier is as before. *)
Definition enqueue_call (self : Scheduler) (url : string) : Scheduler :=
  match enqueue self url with
  | Ok s => s
  | _ => self
  end.

(** The invariant of the frontier: every URL in the seen-set or in the
    queue passed the scope filter. *)
Definition in_scope (s : Scheduler) : Prop :=
  allowed_domains s <> [] ->
  forall x, x ∈ seen s \/ x ∈ items (queue s) ->
    same_domain x (allowed_domains s) = Ok true.
End Frontier.

(** ** The world outside the process

    The crawler reads two clocks, fetches robots.txt files and issues HTTP
    requests.  [World] fixes what the environment answers: the model is a
    function of it, and the properties below hold for every world. *)

(** What [RobotFileParser.read] meets when it opens the robots.txt URL. *)
Inductive ReadResult : Type :=
  | ReadFails (e : exn)
    (* [urlopen] raised something other than [HTTPError] (an unreachable
       host, a timeout), or the body is not UTF-8 *)
  | ReadHTTPError (code : Z)
    (* [urlopen] raised [HTTPError] with this status *)
  | ReadParsed (rules : string -> string -> result bool).
    (* the file was read and parsed; [rules useragent url] is the answer of
       the entry search that ends [can_fetch] (it re-parses the URL, so it
       may raise) *)

(** What one attempt to GET a page meets. *)
Inductive Outcome : Type :=
  | Response (status : Z) (text : string)
  | NetworkError    (* [httpx.RequestError] *)
  | Unexpected.     (* any other exception raised inside the [try] block *)

Record World : Type := {
  now : Q;                             (* [time.time()], in seconds *)
  loop_skew : Q;                       (* [loop.time()] is [now + loop_skew] *)
  robots_txt : string -> ReadResult;   (* by robots.txt URL *)
  net : nat -> Outcome;                (* the answer to the n-th GET *)
  sent : nat;                          (* number of GETs issued so far *)
}.

Definition loop_time (w : World) : Q := (now w + loop_skew w)%Q.

(** [await asyncio.sleep(s)]: the clocks advance by [s] when it is positive. *)
Definition sleep (w : World) (s : Q) : World :=
  {| now := if Qlt_le_dec 0 s then (now w + s)%Q else now w;
     loop_skew := loop_skew w; robots_txt := robots_txt w;
     net := net w; sent := sent w |}.

(** One GET: the world's answer, and the world after it. *)
Definition http_get (w : World) : Outcome * World :=
  (net w (sent w),
   {| now := now w; loop_skew := loop_skew w; robots_txt := robots_txt w;
      net := net w; sent := S (sent w) |}).

Inductive Event : Type :=
  | EvRobotsRead (robots_url : string)         (* [rp.read()] *)
  | EvRateLimit (domain : string)              (* [rate_limiter.wait(domain)] *)
  | EvRateSleep (seconds : Q)                  (* the sleep inside [wait] *)
  | EvRequest (url : string) (proxy : option string)  (* [client.get(url)] *)
  | EvBackoffSleep (delay_ms : Q).             (* the sleep after a failed attempt *)

Definition is_request (e : Event) : bool :=
  match e with EvRequest _ _ => true | _ => false end.
Definition is_rate_limit (e : Event) : bool :=
  match e with EvRateLimit _ => true | _ => false end.
Definition is_backoff_sleep (e : Event) : bool :=
  match e with EvBackoffSleep _ => true | _ => false end.

Definition count (p : Event -> bool) (tr : list Event) : nat :=
  length (filter (fun e => p e = true) tr).

(** ** crawler/anti_bot.py *)

(** *** urllib.robotparser.RobotFileParser, as far as [allowed] uses it *)

Record RobotFileParser : Type := {
  rp_url : string;
  rp_host : string;
  rp_path : string;
  disallow_all : bool;
  allow_all : bool;
  last_checked : Q;
  entries : string -> string -> result bool;
}.

Section Robots.
Context `{UrlLib}.

(** [RobotFileParser(url)]: nothing read yet, no entry, [last_checked]
    is 0.  The constructor ends with [set_url(url)], which parses [url]. *)
Definition RobotFileParser_new (url : string) : result RobotFileParser :=
  p <- urlparse url ;;
  Ok {| rp_url := url; rp_host := netloc p; rp_path := path p;
        disallow_all := false; allow_all := false; last_checked := 0%Q;
        entries := fun _ _ => Ok true |}.

(** [rp.set_url(url)] *)
Definition set_url (rp : RobotFileParser) (url : string) : result RobotFileParser :=
  p <- urlparse url ;;
  Ok {| rp_url := url; rp_host := netloc p; rp_path := path p;
        disallow_all := disallow_all rp; allow_all := allow_all rp;
        last_checked := last_checked rp; entries := entries rp |}.

(** [rp.read()] *)
Definition read (rp : RobotFileParser) (w : World) : result RobotFileParser :=
  match robots_txt w (rp_url rp) with
  | ReadFails e => Raise e
  | ReadHTTPError code =>
      if (code =? 401) || (code =? 403) then
        Ok {| rp_url := rp_url rp; rp_host := rp_host rp; rp_path := rp_path rp;
              disallow_all := true; allow_all := allow_all rp;
              last_checked := last_checked rp; entries := entries rp |}
      else if (400 <=? code) && (code <? 500) then
        Ok {| rp_url := rp_url rp; rp_host := rp_host rp; rp_path := rp_path rp;
              disallow_all := disallow_all rp; allow_all := true;
              last_checked := last_checked rp; entries := entries rp |}
      else Ok rp
  | ReadParsed rules =>
      (* [parse] calls [modified()], which stamps [last_checked] *)
      Ok {| rp_url := rp_url rp; rp_host := rp_host rp; rp_path := rp_path rp;
            disallow_all := disallow_all rp; allow_all := allow_all rp;
            last_checked := now w; entries := rules |}
  end.

(** [rp.can_fetch(useragent, url)], as in [urllib/robotparser.py]:
    [if self.disallow_all: return False], [if self.allow_all: return True],
    [if not self.last_checked: return False] (until the file has been read
    no URL is allowable), then the entry search. *)
Definition can_fetch (rp : RobotFileParser) (useragent url : string) : result bool :=
  if disallow_all rp then Ok false
  else if allow_all rp then Ok true
  else if Qeq_bool (last_checked rp) 0 then Ok false
  else entries rp useragent url.
End Robots.

Record RobotsCache : Type := {
  user_agent : string;
  _cache : gmap string RobotFileParser;
}.

(** [RobotsCache()]: the user agent defaults to ["*"]. *)
Definition RobotsCache_new : RobotsCache :=
  {| user_agent := "*"; _cache := ∅ |}.

Section RobotsCacheOps.
Context `{UrlLib}.

(** [self._robots_url(url)] *)
Definition _robots_url (url : string) : result string :=
  parsed <- urlparse url ;;
  Ok (scheme parsed ++ "://" ++ netloc parsed ++ "/robots.txt").

(** [RobotsCache.allowed(url)].  A cache miss mutates the cache, so the
    cache after the call is returned beside the answer, with the events. *)
Definition allowed (self : RobotsCache) (w : World) (url : string)
  : result bool * RobotsCache * list Event :=
  match get_domain url with
  | Raise e => (Raise e, self, [])
  | OutOfFuel => (OutOfFuel, self, [])
  | Ok domain =>
    let filled : result (RobotsCache * list Event) :=
      match _cache self !! domain with
      | Some _ => Ok (self, [])
      | None =>
          rp <- RobotFileParser_new "" ;;
          ru <- _robots_url url ;;
          rp <- set_url rp ru ;;
          (* try: rp.read()  except Exception: rp = None;
             then [rp or RobotFileParser()] *)
          rp' <- match read rp w with
                 | Ok rp1 => Ok rp1
                 | Raise _ => RobotFileParser_new ""
                 | OutOfFuel => OutOfFuel
                 end ;;
          Ok ({| user_agent := user_agent self;
                 _cache := <[domain := rp']> (_cache self) |},
              [EvRobotsRead ru])
      end in
    match filled with
    | Raise e => (Raise e, self, [])
    | OutOfFuel => (OutOfFuel, self, [])
    | Ok (self', evs) =>
        match _cache self' !! domain with
        | None => (Ok true, self', evs)          (* [if not rp: return True] *)
        | Some rp =>
            match can_fetch rp (user_agent self') url with
            | Ok b => (Ok b, self', evs)
            | Raise _ => (Ok true, self', evs)   (* [except Exception: return True] *)
            | OutOfFuel => (OutOfFuel, self', evs)
            end
        end
    end
  end.
End RobotsCacheOps.

(** *** BackoffStrategy *)

Record BackoffStrategy : Type := {
  initial_ms : Z;
  max_ms : Z;
}.

(** [x % y] on floats: the remainder has the sign of [y]; [y = 0] raises. *)
Definition float_mod (x y : Q) : result Q :=
  if Qeq_bool y 0 then Raise ZeroDivisionError
  else Ok (x - y * inject_Z (Qfloor (x / y)))%Q.

(** [min(self.initial_ms * (2 ** max(0, attempt - 1)), self.max_ms)] *)
Definition backoff_base (self : BackoffStrategy) (attempt : Z) : Z :=
  Z.min (initial_ms self * 2 ^ Z.max 0 (attempt - 1)) (max_ms self).

(** [compute_delay_ms(attempt)], with [t] the reading of [loop.time()]. *)
Definition compute_delay_ms (self : BackoffStrategy) (attempt : Z) (t : Q) : result Q :=
  let base := inject_Z (backoff_base self attempt) in
  let jitter := (base * (2 # 10))%Q in
  m <- float_mod t jitter ;;
  Ok (base + m - jitter / 2)%Q.

(** [utils.jitter_delay_ms(base_ms, rate)], the sibling jitter helper, with
    [u] the draw of [random.uniform(-delta, delta)] as a fraction of
    [delta]. *)
Definition jitter_delay_ms (base_ms : Z) (rate u : Q) : Q :=
  if base_ms <=? 0 then 0%Q
  else let delta := (inject_Z base_ms * rate)%Q in (inject_Z base_ms + u * delta)%Q.

(** *** DomainRateLimiter *)

Record DomainRateLimiter : Type := {
  delay_ms : Z;
  last_request_ts : gmap string Q;
}.

Definition DomainRateLimiter_new (delay_ms : Z) : DomainRateLimiter :=
  {| delay_ms := delay_ms; last_request_ts := ∅ |}.

(** [await self.wait(domain)]; the lock makes the body atomic. *)
Definition wait (self : DomainRateLimiter) (w : World) (domain : string)
  : DomainRateLimiter * World * list Event :=
  let last := default 0%Q (last_request_ts self !! domain) in
  let wait_s := (inject_Z (delay_ms self) / 1000 - (now w - last))%Q in
  let '(w1, slept) :=
    if Qlt_le_dec 0 wait_s then (sleep w wait_s, [EvRateSleep wait_s]) else (w, []) in
  ({| delay_ms := delay_ms self;
      last_request_ts := <[domain := now w1]> (last_request_ts self) |},
   w1, EvRateLimit domain :: slept).

(** ** crawler/fetcher.py *)

(** *** ProxyPool *)

Record ProxyPool : Type := {
  proxies : list string;
  fail_threshold : Z;
  fail_counts : gmap string nat;
  _idx : nat;
}.

(** [{p: 0 for p in proxies}] *)
Definition zero_counts (ps : list string) : gmap string nat :=
  foldr (fun p m => <[p := 0%nat]> m) ∅ ps.

(** [ProxyPool(proxies, fail_threshold)]; [proxies or []] of a list is the
    list. *)
Definition ProxyPool_new (ps : list string) (threshold : Z) : ProxyPool :=
  {| proxies := ps; fail_threshold := threshold;
     fail_counts := zero_counts ps; _idx := 0 |}.

(** [self.fail_counts.get(proxy, 0)] *)
Definition fail_count (self : ProxyPool) (proxy : string) : nat :=
  default 0%nat (fail_counts self !! proxy).

Definition set_idx (self : ProxyPool) (i : nat) : ProxyPool :=
  {| proxies := proxies self; fail_threshold := fail_threshold self;
     fail_counts := fail_counts self; _idx := i |}.

Definition set_count (self : ProxyPool) (proxy : string) (n : nat) : ProxyPool :=
  {| proxies := proxies self; fail_threshold := fail_threshold self;
     fail_counts := <[proxy := n]> (fail_counts self); _idx := _idx self |}.

(** The [while True] loop of [next], [start] being the index on entry. *)
Fixpoint next_loop (fuel : nat) (start : nat) (self : ProxyPool)
  : result (option string * ProxyPool) :=
  match fuel with
  | O => OutOfFuel
  | S fuel' =>
      match proxies self !! _idx self with
      | None => Raise IndexError
      | Some proxy =>
          let self' := set_idx self ((_idx self + 1) mod length (proxies self))%nat in
          if Z.of_nat (fail_count self' proxy) <? fail_threshold self' then
            Ok (Some proxy, self')
          else if (_idx self' =? start)%nat then Ok (None, self')
          else next_loop fuel' start self'
      end
  end.

(** [ProxyPool.next()]; one turn of the loop per proxy is fuel enough. *)
Definition next (self : ProxyPool) : result (option string * ProxyPool) :=
  if nonempty (proxies self) then next_loop (length (proxies self)) (_idx self) self
  else Ok (None, self).

(** [bool(proxy)] of an [Optional[str]]: [None] and [""] are false. *)
Definition truthy (proxy : option string) : bool :=
  match proxy with
  | None => false
  | Some p => negb (String.eqb p "")
  end.

(** [ProxyPool.mark_failure(proxy)] *)
Definition mark_failure (self : ProxyPool) (proxy : option string) : ProxyPool :=
  match proxy with
  | Some p => if truthy proxy then set_count self p (fail_count self p + 1) else self
  | None => self
  end.

(** [ProxyPool.mark_success(proxy)] *)
Definition mark_success (self : ProxyPool) (proxy : option string) : ProxyPool :=
  match proxy with
  | Some p => if truthy proxy then set_count self p 0 else self
  | None => self
  end.

(** The calls a client of the pool can make. *)
Inductive PoolOp : Type :=
  | OpNext
  | OpFailure (proxy : option string)
  | OpSuccess (proxy : option string).

(** The pool after a call (a raising [next] leaves it as it was). *)
Definition pool_apply (self : ProxyPool) (op : PoolOp) : ProxyPool :=
  match op with
  | OpNext => match next self with Ok (_, self') => self' | _ => self end
  | OpFailure p => mark_failure self p
  | OpSuccess p => mark_success self p
  end.

Definition pool_run (self : ProxyPool) (ops : list PoolOp) : ProxyPool :=
  foldl pool_apply self ops.

(** [n] calls of [mark_failure(p)] in a row. *)
Definition fail_times (n : nat) (p : string) : list PoolOp :=
  repeat (OpFailure (Some p)) n.

(** The index of a pool stays inside the list. *)
Definition pool_wf (self : ProxyPool) : Prop :=
  proxies self = [] \/ (_idx self < length (proxies self))%nat.

(** No call of [ops] is [mark_success(p)]. *)
Definition no_success (p : string) (ops : list PoolOp) : Prop :=
  Forall (fun op => op <> OpSuccess (Some p)) ops.

(** *** Fetcher *)

Record Fetcher : Type := {
  rate_limiter : DomainRateLimiter;
  backoff : BackoffStrategy;
  robots : RobotsCache;
  ua_pool : list string;
  proxy_pool : ProxyPool;
  max_retries : Z;
  respect_robots : bool;
}.

(** [Fetcher(ua_pool, proxies, per_domain_delay_ms, max_retries,
    backoff_initial_ms, backoff_max_ms, respect_robots)] *)
Definition Fetcher_new (ua_pool proxies : list string) (per_domain_delay_ms : Z)
    (max_retries backoff_initial_ms backoff_max_ms : Z) (respect_robots : bool) : Fetcher :=
  {| rate_limiter := DomainRateLimiter_new per_domain_delay_ms;
     backoff := {| initial_ms := backoff_initial_ms; max_ms := backoff_max_ms |};
     robots := RobotsCache_new;
     ua_pool := ua_pool;
     proxy_pool := ProxyPool_new proxies 3;
     max_retries := max_retries;
     respect_robots := respect_robots |}.

(** The fetcher, the world and the events so far. *)
Record St : Type := {
  fetcher : Fetcher;
  world : World;
  trace : list Event;
}.

Definition with_robots (f : Fetcher) (r : RobotsCache) : Fetcher :=
  {| rate_limiter := rate_limiter f; backoff := backoff f; robots := r;
     ua_pool := ua_pool f; proxy_pool := proxy_pool f;
     max_retries := max_retries f; respect_robots := respect_robots f |}.

Definition with_rate_limiter (f : Fetcher) (r : DomainRateLimiter) : Fetcher :=
  {| rate_limiter := r; backoff := backoff f; robots := robots f;
     ua_pool := ua_pool f; proxy_pool := proxy_pool f;
     max_retries := max_retries f; respect_robots := respect_robots f |}.

Definition with_proxy_pool (f : Fetcher) (p : ProxyPool) : Fetcher :=
  {| rate_limiter := rate_limiter f; backoff := backoff f; robots := robots f;
     ua_pool := ua_pool f; proxy_pool := p;
     max_retries := max_retries f; respect_robots := respect_robots f |}.

(** [status in (403, 429, 500, 502, 503)] *)
Definition retryable (status : Z) : bool :=
  (status =? 403) || (status =? 429) || (status =? 500) || (status =? 502)
  || (status =? 503).

(** An outcome that sends the loop into another turn: a retryable status or
    a network error. *)
Definition retryable_outcome (o : Outcome) : bool :=
  match o with
  | Response status _ => retryable status
  | NetworkError => true
  | Unexpected => false
  end.

(** The body of [except ...:] shared by the two retry paths: the backoff
    sleep, then [mark_failure].  The caller adds 1 to [attempt] and drops
    the proxy. *)
Definition back_off (st : St) (d : Q) (proxy_used : option string) : St :=
  {| fetcher := with_proxy_pool (fetcher st)
                  (mark_failure (proxy_pool (fetcher st)) proxy_used);
     world := sleep (world st) (d / 1000)%Q;
     trace := trace st ++ [EvBackoffSleep d] |}.

(** The [while attempt <= self.max_retries] loop of [fetch].  The request
    headers are drawn at random on each turn and do not steer the loop;
    they are not part of the request event. *)
Fixpoint fetch_loop (fuel : nat) (st : St) (url : string) (attempt : Z)
    (proxy_used : option string) : result (Z * string) * St :=
  match fuel with
  | O => (OutOfFuel, st)
  | S fuel' =>
    if attempt <=? max_retries (fetcher st) then
      (* proxy_used = proxy_used or self.proxy_pool.next() *)
      let picked : result (option string * ProxyPool) :=
        if truthy proxy_used then Ok (proxy_used, proxy_pool (fetcher st))
        else next (proxy_pool (fetcher st)) in
      match picked with
      | Raise e => (Raise e, st)
      | OutOfFuel => (OutOfFuel, st)
      | Ok (proxy_used, pool) =>
        let '(outcome, w) := http_get (world st) in
        let st1 := {| fetcher := with_proxy_pool (fetcher st) pool; world := w;
                      trace := trace st ++
                        [EvRequest url (if truthy proxy_used then proxy_used else None)] |} in
        match outcome with
        | Response status text =>
            if retryable status then
              match compute_delay_ms (backoff (fetcher st1)) (attempt + 1)
                      (loop_time (world st1)) with
              | Ok d => fetch_loop fuel' (back_off st1 d proxy_used) url (attempt + 1) None
              | _ => (Ok (520, "Unexpected error"), st1)   (* [except Exception] *)
              end
            else
              (Ok (status, text),
               {| fetcher := with_proxy_pool (fetcher st1)
                               (mark_success (proxy_pool (fetcher st1)) proxy_used);
                  world := world st1; trace := trace st1 |})
        | NetworkError =>
            match compute_delay_ms (backoff (fetcher st1)) (attempt + 1)
                    (loop_time (world st1)) with
            | Ok d => fetch_loop fuel' (back_off st1 d proxy_used) url (attempt + 1) None
            | Raise e => (Raise e, st1)     (* raised inside the handler *)
            | OutOfFuel => (OutOfFuel, st1)
            end
        | Unexpected => (Ok (520, "Unexpected error"), st1)
        end
      end
    else (Ok (599, "Max retries exceeded"), st)
  end.

Section Fetch.
Context `{UrlLib}.

(** The robots check that opens [fetch]: whether the URL is blocked, and
    the state after the check.  An exception of [allowed] is swallowed
    ([except Exception: pass]). *)
Definition robots_gate (st : St) (url : string) : bool * St :=
  if respect_robots (fetcher st) then
    let '(r, cache, evs) := allowed (robots (fetcher st)) (world st) url in
    let st1 := {| fetcher := with_robots (fetcher st) cache;
                  world := world st; trace := trace st ++ evs |} in
    match r with
    | Ok false => (true, st1)
    | _ => (false, st1)
    end
  else (false, st).

(** [await Fetcher.fetch(url)] *)
Definition fetch (st : St) (url : string) : result (Z * string) * St :=
  match get_domain url with
  | Raise e => (Raise e, st)
  | OutOfFuel => (OutOfFuel, st)
  | Ok domain =>
    let '(blocked, st1) := robots_gate st url in
    if (blocked : bool) then (Ok (451, "Blocked by robots.txt"), st1)
    else
      let '(rl, w, evs) := wait (rate_limiter (fetcher st1)) (world st1) domain in
      let st2 := {| fetcher := with_rate_limiter (fetcher st1) rl;
                    world := w; trace := trace st1 ++ evs |} in
      fetch_loop (S (Z.to_nat (max_retries (fetcher st2) + 1))) st2 url 0 None
  end.
End Fetch.

(** ** crawler/scheduler.py: the worker pool of [run] *)

(** What [except Exception] does not catch: the subclasses of
    [BaseException] outside [Exception]. *)
Inductive BaseExc : Type :=
  | CancelledError      (* asyncio.CancelledError *)
  | GeneratorExit
  | KeyboardInterrupt
  | SystemExit.

(** [Task.__step] re-raises these two after it has ended the task: they
    leave the event loop, which stops there. *)
Definition stops_loop (b : BaseExc) : bool :=
  match b with
  | KeyboardInterrupt | SystemExit => true
  | CancelledError | GeneratorExit => false
  end.

(** Where a worker task stands in its [while True] loop. *)
Inductive WorkerState : Type :=
  | Waiting                   (* at [await self.queue.get()] *)
  | Handling (url : string)   (* inside [await worker(url)] *)
  | Died (e : exn)            (* an exception left the task *)
  | Aborted (b : BaseExc).    (* the handler's [b] left the task *)

Record Run : Type := {
  sched : Scheduler;
  workers : list WorkerState;
  log : list (nat * string * exn);   (* the records of [logger.exception] *)
}.

(** The moves of the event loop.  The handler is the caller's code: while it
    runs it may call [enqueue] any number of times, and it ends by returning
    ([Finish idx None]), by raising an instance of [Exception]
    ([Finish idx (Some e)]), or by raising something else ([Abort idx b]). *)
Inductive Action : Type :=
  | Get (idx : nat)
  | Enqueue (idx : nat) (url : string)
  | Finish (idx : nat) (raised : option exn)
  | Abort (idx : nat) (b : BaseExc).

Definition with_queue (s : Scheduler) (q : Queue) : Scheduler :=
  {| queue := q; seen := seen s; allowed_domains := allowed_domains s |}.

(** [queue.task_done()] *)
Definition task_done (q : Queue) : result Queue :=
  match unfinished_tasks q with
  | O => Raise ValueError
  | S n => Ok {| items := items q; unfinished_tasks := n |}
  end.

(** A [KeyboardInterrupt] or [SystemExit] has left a task, and the loop. *)
Definition loop_stopped (r : Run) : bool :=
  existsb (fun w => match w with Aborted b => stops_loop b | _ => false end)
          (workers r).

(** [await queue.join()] returns when no put item is left unfinished, in a
    loop that still runs. *)
Definition join_returns (r : Run) : bool :=
  (unfinished_tasks (queue (sched r)) =? 0)%nat && negb (loop_stopped r).

Definition is_handling (w : WorkerState) : bool :=
  match w with Handling _ => true | _ => false end.
(** The worker task has ended. *)
Definition is_died (w : WorkerState) : bool :=
  match w with Died _ | Aborted _ => true | _ => false end.

(** Number of workers inside the handler. *)
Definition handling (r : Run) : nat :=
  length (filter (fun w => is_handling w = true) (workers r)).

Section Pool.
Context `{UrlLib}.

(** One move of worker [idx]; [None] when the move is not enabled. *)
Definition step (r : Run) (a : Action) : option Run :=
  if loop_stopped r then None else
  match a with
  | Get idx =>
      match workers r !! idx, items (queue (sched r)) with
      | Some Waiting, url :: rest =>
          Some {| sched := with_queue (sched r)
                             {| items := rest;
                                unfinished_tasks := unfinished_tasks (queue (sched r)) |};
                  workers := <[idx := Handling url]> (workers r);
                  log := log r |}
      | _, _ => None
      end
  | Enqueue idx url =>
      match workers r !! idx with
      | Some (Handling _) =>
          Some {| sched := enqueue_call (sched r) url;
                  workers := workers r; log := log r |}
      | _ => None
      end
  | Finish idx raised =>
      match workers r !! idx with
      | Some (Handling url) =>
          (* except Exception as e: logger.exception(...) *)
          let log' := match raised with
                      | Some e => (log r ++ [(idx, url, e)])%list
                      | None => log r
                      end in
          (* finally: self.queue.task_done() *)
          match task_done (queue (sched r)) with
          | Ok q => Some {| sched := with_queue (sched r) q;
                            workers := <[idx := Waiting]> (workers r);
                            log := log' |}
          | Raise e => Some {| sched := sched r;
                               workers := <[idx := Died e]> (workers r);
                               log := log' |}
          | OutOfFuel => None
          end
      | _ => None
      end
  | Abort idx b =>
      match workers r !! idx with
      | Some (Handling url) =>
          (* [except Exception] does not match [b]: nothing is logged *)
          (* finally: self.queue.task_done(); then [b] leaves the task *)
          match task_done (queue (sched r)) with
          | Ok q => Some {| sched := with_queue (sched r) q;
                            workers := <[idx := Aborted b]> (workers r);
                            log := log r |}
          | Raise e => Some {| sched := sched r;
                               workers := <[idx := Died e]> (workers r);
                               log := log r |}
          | OutOfFuel => None
          end
      | _ => None
      end
  end.

(** A schedule: the moves in the order the event loop makes them. *)
Fixpoint exec (r : Run) (acts : list Action) : option Run :=
  match acts with
  | [] => Some r
  | a :: rest => match step r a with
                 | Some r' => exec r' rest
                 | None => None
                 end
  end.
End Pool.

Definition b2n (b : bool) : nat := if b then 1%nat else 0%nat.

(** The invariant of the pool: the queue's counter of unfinished items counts
    the items still queued and the ones being handled, and no worker task
    has ended on an exception of [task_done]. *)
Definition run_inv (r : Run) : Prop :=
  unfinished_tasks (queue (sched r))
  = (length (items (queue (sched r))) + handling r)%nat
  /\ Forall (fun w => forall e, w <> Died e) (workers r).

(** The move is a handler raising outside [Exception]. *)
Definition is_abort (a : Action) : bool :=
  match a with Abort _ _ => true | _ => false end.

(** The errors the handlers of a schedule raise, with the worker's index, in
    order. *)
Fixpoint raised_errors (acts : list Action) : list (nat * exn) :=
  match acts with
  | [] => []
  | Finish idx (Some e) :: rest => (idx, e) :: raised_errors rest
  | _ :: rest => raised_errors rest
  end.

(** A move in which no handler enqueues or raises anything. *)
Definition is_quiet (a : Action) : bool :=
  match a with
  | Get _ | Finish _ None => true
  | _ => false
  end.

(** Who logged which error: a record of the log without its URL. *)
Definition log_error (entry : nat * string * exn) : nat * exn :=
  let '(idx, _, e) := entry in (idx, e).

(** The number of times a handler of the schedule ends, however it does. *)
Fixpoint handler_ends (acts : list Action) : nat :=
  match acts with
  | [] => 0%nat
  | (Finish _ _ | Abort _ _) :: rest => S (handler_ends rest)
  | _ :: rest => handler_ends rest
  end.

(** [run(worker, concurrency)] right after the tasks are created:
    [range(concurrency)] workers, each about to wait on the queue. *)
Definition run_start (s : Scheduler) (concurrency : Z) : Run :=
  {| sched := s; workers := repeat Waiting (Z.to_nat concurrency); log := [] |}.

(** ** Data for the examples *)

(** A world at clock 1000 with the given robots.txt and page answers. *)
Definition world_of (robots : string -> ReadResult) (answers : nat -> Outcome) : World :=
  {| now := 1000; loop_skew := 0; robots_txt := robots; net := answers; sent := 0 |}.

(** A fetcher at the start of a run: nothing traced yet. *)
Definition fresh (f : Fetcher) (w : World) : St :=
  {| fetcher := f; world := w; trace := [] |}.

(** Every robots.txt is unreachable. *)
Definition robots_down (e : exn) : string -> ReadResult := fun _ => ReadFails e.

(** Every page answers 503. *)
Definition always_503 : nat -> Outcome := fun _ => Response 503 "".

(** The first GET answers 503, the later ones 200. *)
Definition once_503 : nat -> Outcome :=
  fun n => match n with O => Response 503 "" | S _ => Response 200 "ok" end.

(** A scheduler with an allow-list and nothing enqueued. *)
Definition ex_sched : Scheduler :=
  {| queue := Queue_new; seen := ∅; allowed_domains := ["a.example"] |}.

(** Every robots.txt is read, and disallows everything. *)
Definition robots_disallow : string -> ReadResult :=
  fun _ => ReadParsed (fun _ _ => Ok false).

(** ** A reference implementation of the urllib interface

    It splits in the order of [urllib.parse.urlsplit]: scheme, network
    location, fragment, query; and joins as [urlunsplit] does.  It covers
    URLs of printable ASCII characters without path parameters, and raises
    [ValueError] on a network location with an unbalanced bracket.  The
    examples run over it. *)

Fixpoint contains (c : ascii) (s : string) : bool :=
  match s with
  | EmptyString => false
  | String d s' => Ascii.eqb c d || contains c s'
  end.

(** [s.split(c, 1)] when [c] occurs in [s]. *)
Fixpoint split_once (c : ascii) (s : string) : option (string * string) :=
  match s with
  | EmptyString => None
  | String d s' =>
      if Ascii.eqb c d then Some (EmptyString, s')
      else match split_once c s' with
           | Some (a, b) => Some (String d a, b)
           | None => None
           end
  end.

(** The longest prefix free of ["/"], ["?"] and ["#"], and the rest. *)
Fixpoint split_netloc (s : string) : string * string :=
  match s with
  | EmptyString => (EmptyString, EmptyString)
  | String d s' =>
      if contains d "/?#" then (EmptyString, s)
      else let '(a, b) := split_netloc s' in (String d a, b)
  end.

Definition is_alpha (c : ascii) : bool :=
  let n := nat_of_ascii c in
  ((65 <=? n) && (n <=? 90) || (97 <=? n) && (n <=? 122))%nat.

Definition is_scheme_char (c : ascii) : bool :=
  let n := nat_of_ascii c in
  is_alpha c || ((48 <=? n) && (n <=? 57))%nat || contains c "+-.".

Fixpoint all_chars (p : ascii -> bool) (s : string) : bool :=
  match s with
  | EmptyString => true
  | String c s' => p c && all_chars p s'
  end.

Definition is_scheme (s : string) : bool :=
  match s with
  | EmptyString => false
  | String c _ => is_alpha c && all_chars is_scheme_char s
  end.

Definition uses_netloc : list string :=
  [""; "ftp"; "http"; "gopher"; "nntp"; "telnet"; "imap"; "wais"; "file";
   "mms"; "https"; "shttp"; "snews"; "prospero"; "rtsp"; "rtspu"; "rsync";
   "svn"; "svn+ssh"; "sftp"; "nfs"; "git"; "git+ssh"; "ws"; "wss"].

Definition simple_urlparse (url : string) : result ParseResult :=
  let '(scheme, url) :=
    match split_once ":" url with
    | Some (pre, post) => if is_scheme pre then (lower pre, post) else ("", url)
    | None => ("", url)
    end in
  let '(netloc, url) :=
    if String.prefix "//" url then split_netloc (substring 2 (String.length url - 2) url)
    else ("", url) in
  if contains "[" netloc && negb (contains "]" netloc)
     || contains "]" netloc && negb (contains "[" netloc)
  then Raise ValueError
  else
    let '(url, fragment) :=
      match split_once "#" url with Some (a, b) => (a, b) | None => (url, "") end in
    let '(url, query) :=
      match split_once "?" url with Some (a, b) => (a, b) | None => (url, "") end in
    Ok {| scheme := scheme; netloc := netloc; path := url; params := "";
          query := query; fragment := fragment |}.

Definition simple_urlunparse (p : ParseResult) : string :=
  let url := if String.eqb (params p) "" then path p else path p ++ ";" ++ params p in
  let url :=
    if negb (String.eqb (netloc p) "")
       || negb (String.eqb (scheme p) "")
          && existsb (String.eqb (scheme p)) uses_netloc
          && negb (String.prefix "//" url)
    then
      let url := if negb (String.eqb url "") && negb (String.prefix "/" url)
                 then "/" ++ url else url in
      "//" ++ netloc p ++ url
    else url in
  let url := if String.eqb (scheme p) "" then url else scheme p ++ ":" ++ url in
  let url := if String.eqb (query p) "" then url else url ++ "?" ++ query p in
  if String.eqb (fragment p) "" then url else url ++ "#" ++ fragment p.

#[export] Instance simple_urllib : UrlLib :=
  {| urlparse := simple_urlparse; urlunparse := simple_urlunparse |}.

(** A pool of two workers on one seed: worker 0 takes the seed, its handler
    enqueues a link and then raises; worker 1 takes the link. *)
Definition ex_acts : list Action :=
  [Get 0; Enqueue 0 "http://a.example/y"; Finish 0 (Some (Exception "boom")); Get 1].

Definition ex_run : Run :=
  let start := run_start (enqueue_call ex_sched "http://a.example/x") 2 in
  default start (exec start ex_acts).

(** A pool of one worker on two seeds: the handler of the first seed is
    cancelled. *)
Definition ex_cancel_acts : list Action := [Get 0; Abort 0 CancelledError].

Definition ex_cancel_run : Run :=
  let start :=
    run_start (foldl enqueue_call ex_sched ["http://a.example/x"; "http://a.example/y"]) 1 in
  default start (exec start ex_cancel_acts).

(** ** crawler/cli.py: the link loop of the worker *)

Section Links.
Context `{UrlLib}.

(** The end of [worker(url)] in [main]:
    [for link in discovered: try: scheduler.enqueue(link) except Exception: pass] *)
Definition enqueue_links (s : Scheduler) (discovered : list string) : Scheduler :=
  foldl enqueue_call s discovered.

(** A URL is in the scope of a scheduler: no allow-list, or [same_domain]
    answers true. *)
Definition scoped (s : Scheduler) (n : string) : Prop :=
  allowed_domains s = [] \/ same_domain n (allowed_domains s) = Ok true.

(** The URLs that the [Get] moves of a schedule hand to the workers, in
    order. *)
Fixpoint dispatches (r : Run) (acts : list Action) : list string :=
  match acts with
  | [] => []
  | a :: rest =>
      match step r a with
      | Some r' =>
          match a, items (queue (sched r)) with
          | Get _, url :: _ => url :: dispatches r' rest
          | _, _ => dispatches r' rest
          end
      | None => []
      end
  end.
End Links.

(** The invariant behind "no URL is handed out twice": the URLs taken from
    the queue so far and the ones still queued are pairwise different, and
    all of them are in the seen-set. *)
Definition frontier_inv (taken : list string) (s : Scheduler) : Prop :=
  NoDup (taken ++ items (queue s))%list
  /\ forall x, x ∈ (taken ++ items (queue s))%list -> x ∈ seen s.

(** ** ProxyPool, further *)

(** A proxy that [next()] may return: its failure count is below the
    threshold. *)
Definition healthy (self : ProxyPool) (p : string) : Prop :=
  Z.of_nat (fail_count self p) < fail_threshold self.

(** [n] calls of [next()] in a row: what they return, and the pool after. *)
Fixpoint next_n (n : nat) (self : ProxyPool)
  : result (list (option string) * ProxyPool) :=
  match n with
  | O => Ok ([], self)
  | S k =>
      match next self with
      | Ok (r, self') =>
          match next_n k self' with
          | Ok (rs, self'') => Ok (r :: rs, self'')
          | Raise e => Raise e
          | OutOfFuel => OutOfFuel
          end
      | Raise e => Raise e
      | OutOfFuel => OutOfFuel
      end
  end.

(** ** BackoffStrategy in float arithmetic *)

(** [compute_delay_ms(attempt)] with the rounding of the floats written
    out: [rnd] rounds a real number to a float.  The [int] base is converted
    before it is multiplied and added, the literal [0.2] is a rounded
    constant, and each of the four operations rounds its result; the
    remainder is rounded for the case where [%] adjusts its sign, and is
    exact otherwise.  [compute_delay_ms] is the case where [rnd] changes
    nothing. *)
Definition compute_delay_ms_fl (rnd : Q -> Q) (self : BackoffStrategy)
    (attempt : Z) (t : Q) : result Q :=
  let base := rnd (inject_Z (backoff_base self attempt)) in
  let jitter := rnd (base * rnd (2 # 10))%Q in
  m <- float_mod t jitter ;;
  Ok (rnd (rnd (base + rnd m) - rnd (jitter / 2)))%Q.

(** Rounding to the nearest multiple of [1/n], for the examples. *)
Definition round_to (n : positive) (x : Q) : Q :=
  (inject_Z (Qfloor (x * inject_Z (Zpos n) + (1 # 2))) / inject_Z (Zpos n))%Q.

(** ** Fetcher, further *)

Definition is_robots_read (e : Event) : bool :=
  match e with EvRobotsRead _ => true | _ => false end.

(** What the retry loop can return: the sentinel 520 or 599, or a response
    of the network whose status is not retryable. *)
Definition loop_answer (answers : nat -> Outcome) (status : Z) (text : string) : Prop :=
  (status = 520 /\ text = "Unexpected error")
  \/ (status = 599 /\ text = "Max retries exceeded")
  \/ (retryable status = false /\ exists n, answers n = Response status text).

(** ** crawler/utils.py: the request headers *)

Definition DEFAULT_UA_POOL : list string :=
  ["Mozilla/5.0 (Windows NT 10.0; Win64; x64) AppleWebKit/537.36 (KHTML, like Gecko) Chrome/119.0 Safari/537.36";
   "Mozilla/5.0 (Macintosh; Intel Mac OS X 10_15_7) AppleWebKit/605.1.15 (KHTML, like Gecko) Version/16.0 Safari/605.1.15";
   "Mozilla/5.0 (X11; Linux x86_64) AppleWebKit/537.36 (KHTML, like Gecko) Chrome/118.0 Safari/537.36"].

(** [random.choice(seq)], [draw] being the random source: an index below
    [len(seq)], and [IndexError] on an empty sequence. *)
Definition choice {A} (seq : list A) (draw : nat) : result A :=
  match seq !! (draw mod length seq)%nat with
  | Some x => Ok x
  | None => Raise IndexError
  end.

(** [pick_user_agent(pool)]; [None] and the empty list both fall back to the
    built-in pool. *)
Definition pick_user_agent (pool : list string) (draw : nat) : result string :=
  let candidates := if nonempty pool then pool else DEFAULT_UA_POOL in
  choice candidates draw.

Definition ACCEPT_LANGUAGES : list string :=
  ["zh-CN,zh;q=0.9"; "en-US,en;q=0.9"; "zh-TW,zh;q=0.9"].

(** [build_default_headers(ua_pool)]: the dict as the list of its items in
    insertion order.  [d1], [d2], [d3] are the draws of the three
    [random.choice] and [coin] the one of [random.random()]. *)
Definition build_default_headers (ua_pool : list string) (d1 d2 d3 : nat) (coin : Q)
  : result (list (string * string)) :=
  ua <- pick_user_agent ua_pool d1 ;;
  lang <- choice ACCEPT_LANGUAGES d2 ;;
  extra <- (if Qlt_le_dec coin (1 # 2)
            then dnt <- choice ["1"; "0"] d3 ;; Ok [("DNT", dnt)]
            else Ok []) ;;
  Ok ([("User-Agent", ua);
       ("Accept", "text/html,application/xhtml+xml,application/xml;q=0.9,*/*;q=0.8");
       ("Accept-Language", lang);
       ("Cache-Control", "no-cache");
       ("Pragma", "no-cache");
       ("Connection", "keep-alive")] ++ extra)%list.

(** ** crawler/storage.py: the file name of a saved page *)

(** [s.replace(a, b)] for one-character [a] and [b]. *)
Fixpoint replace_char (a b : ascii) (s : string) : string :=
  match s with
  | EmptyString => EmptyString
  | String c s' => String (if Ascii.eqb c a then b else c) (replace_char a b s')
  end.

(** [s[:n]] *)
Fixpoint str_take (n : nat) (s : string) : string :=
  match n, s with
  | S n', String c s' => String c (str_take n' s')
  | _, _ => EmptyString
  end.

Section Storage.
(** [hashlib.sha1(url.encode("utf-8")).hexdigest()] *)
Variable sha1_hex : string -> string.

(** The [safe_name] that [save_html] and [save_json] compute from the URL. *)
Definition safe_name (url : string) : string :=
  let safe_name :=
    replace_char "?" "_" (replace_char ":" "_" (replace_char "/" "_" url)) in
  if (180 <? String.length safe_name)%nat
  then str_take 60 safe_name ++ "__" ++ sha1_hex url
  else safe_name.
End Storage.

(** A stand-in for SHA-1 in the examples: the digest of the empty input. *)
Definition sha1_of_empty : string -> string :=
  fun _ => "da39a3ee5e6b4b0d3255bfef95601890afd80709".

(** A URL of 256 characters, longer than the 180 a file name may have. *)
Definition ex_long_url : string :=
  "http://a.example/" ++ String.concat "/" (repeat "segment" 30).

(** ** tools/dedup_file.py *)

(** [c.isspace()] on the ASCII range. *)
Definition is_space (c : ascii) : bool :=
  let n := nat_of_ascii c in
  ((9 <=? n) && (n <=? 13) || (28 <=? n) && (n <=? 32))%nat.

(** A character of ["\n\r"]. *)
Definition is_newline (c : ascii) : bool :=
  let n := nat_of_ascii c in ((n =? 10) || (n =? 13))%nat.

(** [s.lstrip(chars)] and [s.rstrip(chars)], [p] telling the characters to
    strip. *)
Fixpoint lstrip (p : ascii -> bool) (s : string) : string :=
  match s with
  | EmptyString => EmptyString
  | String c s' => if p c then lstrip p s' else s
  end.

Fixpoint rstrip (p : ascii -> bool) (s : string) : string :=
  match s with
  | EmptyString => EmptyString
  | String c s' =>
      match rstrip p s' with
      | EmptyString => if p c then EmptyString else String c EmptyString
      | r => String c r
      end
  end.

(** [s.strip()] *)
Definition strip (s : string) : string := rstrip is_space (lstrip is_space s).

(** The key under which a line counts as seen: its stripped text, lower-cased
    unless the comparison is case-sensitive. *)
Definition dedup_key (case_sensitive : bool) (raw : string) : string :=
  let txt := strip raw in
  if case_sensitive then txt else lower txt.

(** [not txt]: the line is blank. *)
Definition blank (raw : string) : bool := String.eqb (strip raw) "".

(** The loop of [dedup_lines] over the lines of the file, with the set of
    keys seen so far; the result is the list of the raw lines appended. *)
Fixpoint dedup_loop (case_sensitive strip_empty : bool) (seen : gset string)
    (lines : list string) : list string :=
  match lines with
  | [] => []
  | line :: rest =>
      let raw := rstrip is_newline line in
      if blank raw then
        if strip_empty then dedup_loop case_sensitive strip_empty seen rest
        else raw :: dedup_loop case_sensitive strip_empty seen rest
      else
        let key := dedup_key case_sensitive raw in
        if decide (key ∈ seen) then dedup_loop case_sensitive strip_empty seen rest
        else raw :: dedup_loop case_sensitive strip_empty ({[key]} ∪ seen) rest
  end.

(** [dedup_lines(path, case_sensitive, encoding, strip_empty)], [lines] being
    the lines the file iterates over. *)
Definition dedup_lines (lines : list string) (case_sensitive strip_empty : bool)
  : list string :=
  dedup_loop case_sensitive strip_empty ∅ lines.

(** The keys of the lines of a list that are not blank. *)
Definition keys_of (case_sensitive : bool) (raws : list string) : list string :=
  dedup_key case_sensitive <$> filter (fun r => blank r = false) raws.

(** The line [ln] as [main] writes it: [f.write(ln + "\n")]. *)
Definition written (ln : string) : string := ln ++ String "010" "".

(** ** tools/compare_file.py *)

(** [s.split(sep)] for a separator that is not empty: [cur] is the part read
    so far, and [skip] counts the characters of a separator still to pass. *)
Fixpoint split_go (sep : string) (skip : nat) (cur s : string) : list string :=
  match s with
  | EmptyString => [cur]
  | String c s' =>
      match skip with
      | S k => split_go sep k cur s'
      | O =>
          if String.prefix sep s
          then cur :: split_go sep (String.length sep - 1) "" s'
          else split_go sep 0 (cur ++ String c "") s'
      end
  end.

Definition split (sep s : string) : list string := split_go sep 0 "" s.

(** The parts of a stripped line: [if sep:] takes [None] and the empty
    separator alike. *)
Definition parts_of (sep : option string) (line : string) : list string :=
  match sep with
  | Some s => if String.eqb s "" then [line] else strip <$> split s line
  | None => [line]
  end.

(** [for p in parts: ...]: the parts that are not empty are added. *)
Definition add_parts (case_sensitive : bool) (items : gset string)
    (parts : list string) : gset string :=
  foldl (fun items p =>
           if String.eqb p "" then items
           else {[ if case_sensitive then p else lower p ]} ∪ items)
        items parts.

(** [read_keywords(path, sep, case_sensitive, encoding)], [lines] being the
    lines the file iterates over. *)
Definition read_keywords (lines : list string) (sep : option string)
    (case_sensitive : bool) : gset string :=
  foldl (fun items line =>
           let line := strip line in
           if String.eqb line "" then items
           else add_parts case_sensitive items (parts_of sep line))
        ∅ lines.

(** * Properties *)

(** ** The reference urllib on examples *)

Example simple_urlparse_page :
  simple_urlparse "http://A.example/x?q=1#top"
  = Ok {| scheme := "http"; netloc := "A.example"; path := "/x"; params := "";
          query := "q=1"; fragment := "top" |}.
Proof. reflexivity. Qed.

Example normalize_url_page :
  normalize_url "http://A.example/x?q=1#top" = Ok "http://A.example/x?q=1".
Proof. reflexivity. Qed.

Example urlparse_bracket : simple_urlparse "http://[" = Raise ValueError.
Proof. reflexivity. Qed.

(** ** Strings *)

Lemma endswith_refl (s : string) : endswith s s = true.
Proof. destruct s; cbn [endswith]; now rewrite String.eqb_refl. Qed.

(** [endswith] decides the suffix relation. *)
Lemma endswith_spec (s suf : string) :
  endswith s suf = true <-> exists pre, s = pre ++ suf.
Proof.
  split.
  - induction s as [|c s IH]; cbn [endswith].
    + destruct (String.eqb_spec "" suf) as [<-|]; [|discriminate].
      intros _. now exists "".
    + destruct (String.eqb_spec (String c s) suf) as [<-|Hne].
      * intros _. now exists "".
      * intros Hs. destruct (IH Hs) as [pre ->]. now exists (String c pre).
  - intros [pre ->]. induction pre as [|c pre IH].
    + apply endswith_refl.
    + change (String c pre ++ suf) with (String c (pre ++ suf)).
      cbn [endswith]. rewrite IH. now destruct (String.eqb _ _).
Qed.

(** ** The frontier *)

Section FrontierProps.
Context `{UrlLib}.

(** What [enqueue] does, by cases on the normalised URL. *)
Lemma enqueue_cases (s s' : Scheduler) (u : string) :
  enqueue s u = Ok s' ->
  exists n, normalize_url u = Ok n /\
    (s' = s \/
     (s' = {| queue := put_nowait (queue s) n; seen := {[n]} ∪ seen s;
              allowed_domains := allowed_domains s |}
      /\ (n ∉ seen s)
      /\ (allowed_domains s <> [] -> same_domain n (allowed_domains s) = Ok true))).
Proof.
  unfold enqueue. destruct (normalize_url u) as [n| |]; simpl; [|discriminate..].
  intros Hs. exists n. split; [reflexivity|].
  destruct (allowed_domains s) as [|a l] eqn:Ha; simpl in Hs.
  - destruct (decide (n ∈ seen s)).
    + left. congruence.
    + right. split; [congruence|]. split; [assumption|]. congruence.
  - destruct (same_domain n (a :: l)) as [[|]| |] eqn:Hd; simpl in Hs;
      try discriminate.
    + destruct (decide (n ∈ seen s)).
      * left. congruence.
      * right. split; [congruence|]. split; [assumption|]. reflexivity.
    + left. congruence.
Qed.

Lemma enqueue_allowed_domains (s s' : Scheduler) (u : string) :
  enqueue s u = Ok s' -> allowed_domains s' = allowed_domains s.
Proof.
  intros Hs. destruct (enqueue_cases _ _ _ Hs) as (n & _ & [->|[-> _]]); reflexivity.
Qed.

(** [enqueue] of a URL that is out of scope or already seen changes nothing. *)
Lemma enqueue_dropped (s : Scheduler) (u n : string) :
  normalize_url u = Ok n ->
  (allowed_domains s <> [] /\ same_domain n (allowed_domains s) = Ok false)
  \/ ((allowed_domains s = [] \/ same_domain n (allowed_domains s) = Ok true)
      /\ n ∈ seen s) ->
  enqueue s u = Ok s.
Proof.
  intros Hn Hcase. unfold enqueue. rewrite Hn. simpl.
  destruct Hcase as [[Hne Hd]|[[He|Hd] Hseen]].
  - destruct (allowed_domains s); [congruence|]. simpl. now rewrite Hd.
  - rewrite He. simpl. now destruct (decide (n ∈ seen s)).
  - destruct (allowed_domains s); simpl.
    + now destruct (decide (n ∈ seen s)).
    + rewrite Hd. simpl. now destruct (decide (n ∈ seen s)).
Qed.

(** C3. Once [enqueue(u)] has returned, [enqueue(v)] for any [v] with the
    normalised form of [u] returns without raising and leaves the scheduler
    as it is: the queue has the same length and the seen-set the same
    size. *)
Theorem enqueue_twice_noop (s s1 : Scheduler) (u v : string) :
  enqueue s u = Ok s1 ->
  normalize_url v = normalize_url u ->
  exists s2, enqueue s1 v = Ok s2
    /\ length (items (queue s2)) = length (items (queue s1))
    /\ size (seen s2) = size (seen s1)
    /\ s2 = s1.
Proof.
  intros H1 Hv. exists s1.
  split; [|repeat split].
  pose proof (enqueue_allowed_domains _ _ _ H1) as Hall.
  destruct (enqueue_cases _ _ _ H1) as (n & Hn & Hcase).
  rewrite Hn in Hv.
  destruct Hcase as [->|(-> & Hfresh & Hscope)].
  - (* the first call dropped [u]: out of scope, or seen before *)
    unfold enqueue in H1 |- *. rewrite Hn in H1. rewrite Hv. exact H1.
  - (* the first call added [n] to the seen-set *)
    apply (enqueue_dropped _ v n Hv). right. simpl. split.
    + destruct (allowed_domains s); [now left|right]. now apply Hscope.
    + set_solver.
Qed.

Lemma in_scope_enqueue (s s' : Scheduler) (u : string) :
  in_scope s -> enqueue s u = Ok s' -> in_scope s'.
Proof.
  intros Hin Hs.
  destruct (enqueue_cases _ _ _ Hs) as (n & _ & [->|(-> & _ & Hscope)]);
    [assumption|].
  intros Hne x Hx. simpl in *.
  assert (x = n \/ (x ∈ seen s \/ x ∈ items (queue s))) as [->|Hold].
  { destruct Hx as [Hx|Hx].
    - apply elem_of_union in Hx as [Hx|Hx]; [left; set_solver|right; now left].
    - apply elem_of_app in Hx as [Hx|Hx]; [right; now right|left].
      now apply list_elem_of_singleton in Hx. }
  - now apply Hscope.
  - now apply Hin.
Qed.

Lemma in_scope_enqueue_all (urls : list string) (s s' : Scheduler) :
  in_scope s -> enqueue_all s urls = Ok s' -> in_scope s'.
Proof.
  revert s. induction urls as [|u urls IH]; simpl; intros s Hin Hs.
  - now injection Hs as <-.
  - destruct (enqueue s u) as [s1| |] eqn:H1; simpl in Hs; try discriminate.
    eapply IH; [|exact Hs]. eapply in_scope_enqueue; eauto.
Qed.

Lemma allowed_domains_enqueue_all (urls : list string) (s s' : Scheduler) :
  enqueue_all s urls = Ok s' -> allowed_domains s' = allowed_domains s.
Proof.
  revert s. induction urls as [|u urls IH]; simpl; intros s Hs.
  - congruence.
  - destruct (enqueue s u) as [s1| |] eqn:H1; simpl in Hs; try discriminate.
    rewrite (IH _ Hs). now apply (enqueue_allowed_domains _ _ u).
Qed.

Lemma in_scope_enqueue_call (s : Scheduler) (u : string) :
  in_scope s -> in_scope (enqueue_call s u).
Proof.
  intros Hin. unfold enqueue_call.
  destruct (enqueue s u) eqn:Hs; [|assumption..].
  eapply in_scope_enqueue; eauto.
Qed.

Lemma allowed_domains_enqueue_call (s : Scheduler) (u : string) :
  allowed_domains (enqueue_call s u) = allowed_domains s.
Proof.
  unfold enqueue_call. destruct (enqueue s u) eqn:Hs; [|reflexivity..].
  now apply (enqueue_allowed_domains _ _ u).
Qed.

Lemma in_scope_calls (calls : list string) (s : Scheduler) :
  in_scope s ->
  in_scope (foldl enqueue_call s calls)
  /\ allowed_domains (foldl enqueue_call s calls) = allowed_domains s.
Proof.
  revert s. induction calls as [|u calls IH]; simpl; intros s Hin.
  - now split.
  - destruct (IH (enqueue_call s u) (in_scope_enqueue_call _ _ Hin)) as [? ->].
    split; [assumption|]. apply allowed_domains_enqueue_call.
Qed.

(** [same_domain] answers [False] exactly when the lower-cased domain ends
    with none of the lower-cased allowed domains. *)
Lemma same_domain_false (x d : string) (domains : list string) :
  get_domain x = Ok d ->
  (forall a, a ∈ domains -> ~ exists pre, lower d = pre ++ lower a) ->
  same_domain x domains = Ok false.
Proof.
  intros Hd Hno. unfold same_domain. rewrite Hd. simpl. f_equal.
  apply not_true_is_false. intros Hex.
  apply existsb_exists in Hex as (a & Ha & Hend).
  apply (Hno a); [now apply list_elem_of_In|]. now apply endswith_spec.
Qed.

(** C4. With a non-empty allow-list, a URL whose normalised form has a
    domain that ends (case-insensitively) with none of the allowed domains
    is never in the seen-set nor in the queue, whatever the seeds and
    whatever [enqueue] calls came before; and [enqueue] of it changes
    nothing. *)
Theorem out_of_scope_never_enqueued
    (seeds allowed calls : list string) (s0 : Scheduler) (u n d : string) :
  allowed <> [] ->
  Scheduler_init seeds allowed = Ok s0 ->
  normalize_url u = Ok n ->
  get_domain n = Ok d ->
  (forall a, a ∈ allowed -> ~ exists pre, lower d = pre ++ lower a) ->
  let s := foldl enqueue_call s0 calls in
  enqueue s u = Ok s /\ (n ∉ seen s) /\ (n ∉ items (queue s)).
Proof.
  intros Hne Hinit Hn Hd Hno s.
  assert (in_scope s0 /\ allowed_domains s0 = allowed) as [Hin0 Hall0].
  { split.
    - eapply in_scope_enqueue_all; [|exact Hinit].
      intros _ x [Hx|Hx]; simpl in Hx; [set_solver|now apply elem_of_nil in Hx].
    - now rewrite (allowed_domains_enqueue_all _ _ _ Hinit). }
  destruct (in_scope_calls calls s0 Hin0) as [Hin Hall]. fold s in Hin, Hall.
  rewrite Hall0 in Hall.
  pose proof (same_domain_false n d allowed Hd Hno) as Hout.
  assert (forall x, x ∈ seen s \/ x ∈ items (queue s) -> x <> n) as Hfresh.
  { intros x Hx ->. specialize (Hin ltac:(now rewrite Hall) n Hx).
    rewrite Hall in Hin. congruence. }
  split; [|split].
  - apply (enqueue_dropped s u n Hn). left. rewrite Hall. now split.
  - intros Hx. now apply (Hfresh n (or_introl Hx)).
  - intros Hx. now apply (Hfresh n (or_intror Hx)).
Qed.
End FrontierProps.

(** ** ProxyPool *)

Lemma mod_wrap (x len : nat) :
  (0 < len)%nat -> (x < 2 * len)%nat ->
  (x mod len)%nat = if (x <? len)%nat then x else (x - len)%nat.
Proof.
  intros Hlen Hx. destruct (Nat.ltb_spec x len) as [Hlt|Hge].
  - now apply Nat.mod_small.
  - replace x with ((x - len) + 1 * len)%nat at 1 by lia.
    rewrite Nat.Div0.mod_add. apply Nat.mod_small. lia.
Qed.

(** What a finished [next_loop] leaves behind. *)
Lemma next_loop_result (fuel start : nat) (self self' : ProxyPool) (r : option string) :
  next_loop fuel start self = Ok (r, self') ->
  proxies self' = proxies self
  /\ fail_threshold self' = fail_threshold self
  /\ fail_counts self' = fail_counts self
  /\ (_idx self' < length (proxies self))%nat
  /\ (forall p, r = Some p ->
        p ∈ proxies self /\ Z.of_nat (fail_count self p) < fail_threshold self).
Proof.
  revert self. induction fuel as [|fuel IH]; intros self; simpl; [discriminate|].
  destruct (proxies self !! _idx self) as [proxy|] eqn:Hp; [|discriminate].
  assert (0 < length (proxies self))%nat as Hlen.
  { apply lookup_lt_Some in Hp. lia. }
  assert ((_idx self + 1) mod length (proxies self) < length (proxies self))%nat as Hidx.
  { apply Nat.mod_upper_bound. lia. }
  match goal with |- context [Z.ltb ?a ?b] => destruct (Z.ltb_spec a b) as [Hlt|Hge] end.
  - intros Heq. inversion Heq; subst; clear Heq.
    split_and!; try done.
    intros p [= <-]. split; [|assumption]. now apply list_elem_of_lookup_2 in Hp.
  - match goal with |- context [Nat.eqb ?a ?b] => destruct (Nat.eqb a b) end.
    + intros Heq. inversion Heq; subst; clear Heq.
      split_and!; try done.
    + intros Hrec. apply IH in Hrec as (-> & -> & -> & Hi & Hr).
      split_and!; try done.
Qed.

(** A turn of the loop per proxy is fuel enough: the loop is back at
    [start] after at most [length proxies] turns. *)
Lemma next_loop_returns (fuel start : nat) (self : ProxyPool) :
  (_idx self < length (proxies self))%nat ->
  (start < length (proxies self))%nat ->
  ((start + length (proxies self) - 1 - _idx self) mod length (proxies self) < fuel)%nat ->
  returns (next_loop fuel start self).
Proof.
  revert self. induction fuel as [|fuel IH]; intros self Hidx Hstart Hfuel;
    [now apply Nat.nlt_0_r in Hfuel|].
  simpl. destruct (lookup_lt_is_Some_2 _ _ Hidx) as [proxy ->].
  set (len := length (proxies self)) in *.
  destruct (Z.of_nat _ <? _); [now eexists|].
  match goal with |- context [Nat.eqb ?a ?b] =>
    destruct (Nat.eqb_spec a b) as [Heq|Hne] end; [now eexists|].
  apply IH; simpl in *; fold len.
  - apply Nat.mod_upper_bound. lia.
  - assumption.
  - rewrite (mod_wrap (_idx self + 1) len) in * by lia.
    rewrite (mod_wrap (start + len - 1 - _idx self) len) in Hfuel by lia.
    destruct (Nat.ltb_spec (_idx self + 1) len).
    + rewrite (mod_wrap (start + len - 1 - (_idx self + 1)) len) by lia.
      destruct (Nat.ltb_spec (start + len - 1 - _idx self) len);
        destruct (Nat.ltb_spec (start + len - 1 - (_idx self + 1)) len); lia.
    + rewrite (mod_wrap (start + len - 1 - (_idx self + 1 - len)) len) by lia.
      destruct (Nat.ltb_spec (start + len - 1 - _idx self) len);
        destruct (Nat.ltb_spec (start + len - 1 - (_idx self + 1 - len)) len); lia.
Qed.

(** [next] returns, on every pool whose index is inside the list. *)
Lemma next_returns (self : ProxyPool) : pool_wf self -> returns (next self).
Proof.
  intros [Hnil|Hidx]; unfold next.
  - rewrite Hnil. now eexists.
  - destruct (proxies self) as [|p ps] eqn:Hps; [now eexists|].
    cbn [nonempty]. rewrite <- Hps in *. apply next_loop_returns; try assumption.
    apply Nat.mod_upper_bound. lia.
Qed.

(** [next] finishes within its fuel on every pool: with the index outside
    the list the first subscript raises. *)
Lemma next_finishes (self : ProxyPool) : next self <> OutOfFuel.
Proof.
  destruct (decide (pool_wf self)) as [Hwf|Hwf].
  - destruct (next_returns self Hwf) as [r ->]. discriminate.
  - unfold next. destruct (proxies self) as [|p ps] eqn:Hps; [discriminate|].
    cbn [nonempty length next_loop].
    destruct (proxies self !! _idx self) as [q|] eqn:Hq; [|discriminate].
    exfalso. apply Hwf. right. now apply lookup_lt_Some in Hq.
Qed.

Lemma next_result (self self' : ProxyPool) (r : option string) :
  next self = Ok (r, self') ->
  proxies self' = proxies self
  /\ fail_threshold self' = fail_threshold self
  /\ fail_counts self' = fail_counts self
  /\ (pool_wf self -> pool_wf self')
  /\ (forall p, r = Some p ->
        p ∈ proxies self /\ Z.of_nat (fail_count self p) < fail_threshold self).
Proof.
  unfold next. destruct (proxies self) as [|q qs] eqn:Hps; cbn [nonempty].
  - intros Heq. inversion Heq; subst; clear Heq. split_and!; try done.
  - rewrite <- Hps. intros Hloop.
    apply next_loop_result in Hloop as (Hp & Ht & Hc & Hi & Hr).
    split_and!; try done. intros _. right. now rewrite Hp.
Qed.


Lemma fail_count_set_count (self : ProxyPool) (p q : string) (n : nat) :
  fail_count (set_count self p n) q = if decide (p = q) then n else fail_count self q.
Proof.
  unfold fail_count, set_count. simpl. rewrite lookup_insert.
  now destruct (decide (p = q)).
Qed.

(** A call keeps the list, the threshold and the index inside the list; the
    count of [p] goes down only by [mark_success(p)]. *)
Lemma pool_apply_keeps (self : ProxyPool) (op : PoolOp) (p : string) :
  proxies (pool_apply self op) = proxies self
  /\ fail_threshold (pool_apply self op) = fail_threshold self
  /\ (pool_wf self -> pool_wf (pool_apply self op))
  /\ (op <> OpSuccess (Some p) ->
      (fail_count self p <= fail_count (pool_apply self op) p)%nat).
Proof.
  destruct op as [|q|q]; simpl.
  - destruct (next self) as [[r self']| |] eqn:Hn; try (split_and!; done).
    apply next_result in Hn as (Hp & Ht & Hc & Hwf & _).
    split_and!; try done. intros _. unfold fail_count. now rewrite Hc.
  - destruct q as [q|]; simpl; [|split_and!; done].
    destruct (String.eqb q ""); simpl; split_and!; try done.
    intros _. rewrite fail_count_set_count. destruct (decide (q = p)); subst; lia.
  - destruct q as [q|]; simpl; [|split_and!; done].
    destruct (String.eqb q ""); simpl; split_and!; try done.
    intros Hne. rewrite fail_count_set_count.
    destruct (decide (q = p)); [congruence|lia].
Qed.

Lemma pool_run_keeps (ops : list PoolOp) (self : ProxyPool) (p : string) :
  proxies (pool_run self ops) = proxies self
  /\ fail_threshold (pool_run self ops) = fail_threshold self
  /\ (pool_wf self -> pool_wf (pool_run self ops))
  /\ (no_success p ops -> (fail_count self p <= fail_count (pool_run self ops) p)%nat).
Proof.
  revert self. induction ops as [|op ops IH]; intros self; simpl.
  - split_and!; done.
  - destruct (IH (pool_apply self op)) as (Hp & Ht & Hwf & Hc).
    destruct (pool_apply_keeps self op p) as (Hp1 & Ht1 & Hwf1 & Hc1).
    unfold pool_run in *. split_and!; try congruence.
    + auto.
    + intros Hno. inversion Hno; subst. etrans; [apply Hc1|apply Hc]; assumption.
Qed.

(** [n] failures in a row on a non-empty [p] add [n] to its count. *)
Lemma fail_times_count (n : nat) (self : ProxyPool) (p : string) :
  p <> "" ->
  fail_count (pool_run self (fail_times n p)) p = (fail_count self p + n)%nat.
Proof.
  intros Hp. revert self. induction n as [|n IH]; intros self; simpl.
  - lia.
  - unfold pool_run, fail_times in *. rewrite IH. simpl.
    destruct (String.eqb_spec p ""); [congruence|]. simpl.
    rewrite fail_count_set_count. destruct (decide (p = p)); [lia|congruence].
Qed.



(** ** BackoffStrategy *)

Local Open Scope Q_scope.

(** The float remainder by a positive divisor lies in [0, y). *)
Lemma float_mod_pos (x y : Q) :
  0 < y -> exists m, float_mod x y = Ok m /\ 0 <= m /\ m < y.
Proof.
  intros Hy. unfold float_mod.
  destruct (Qeq_bool y 0) eqn:Hz.
  - apply Qeq_bool_iff in Hz. lra.
  - eexists. split; [reflexivity|].
    pose proof (Qfloor_le (x / y)) as Hlo.
    pose proof (Qlt_floor (x / y)) as Hhi.
    rewrite inject_Z_plus in Hhi.
    assert (y * (x / y) == x) as Hxy by (apply Qmult_div_r; lra).
    set (f := inject_Z (Qfloor (x / y))) in *.
    set (q := x / y) in *.
    assert (y * f <= y * q) by (apply Qmult_le_l; assumption).
    assert (y * q < y * (f + inject_Z 1)) by (apply Qmult_lt_l; assumption).
    change (inject_Z 1) with 1 in *. split; lra.
Qed.

Lemma float_mod_zero (x y : Q) : y == 0 -> float_mod x y = Raise ZeroDivisionError.
Proof. intros Hy. unfold float_mod. now rewrite (proj2 (Qeq_bool_iff y 0) Hy). Qed.

Lemma backoff_base_pos (self : BackoffStrategy) (attempt : Z) :
  (0 < initial_ms self)%Z -> (0 < max_ms self)%Z -> (0 < backoff_base self attempt)%Z.
Proof.
  intros Hi Hm. unfold backoff_base.
  assert (0 < 2 ^ Z.max 0 (attempt - 1))%Z by (apply Z.pow_pos_nonneg; lia).
  apply Z.min_glb_lt; [|assumption]. now apply Z.mul_pos_pos.
Qed.

(** With a base of 0 the jitter is 0.0 and the modulo raises. *)
Lemma compute_delay_ms_zero (self : BackoffStrategy) (attempt : Z) (t : Q) :
  backoff_base self attempt = 0%Z ->
  compute_delay_ms self attempt t = Raise ZeroDivisionError.
Proof.
  intros Hb. unfold compute_delay_ms. rewrite Hb.
  now rewrite float_mod_zero by reflexivity.
Qed.

(** With a positive base the delay is within 10% of the base, whatever the
    clock reads. *)
Lemma compute_delay_ms_pos (self : BackoffStrategy) (attempt : Z) (t : Q) :
  (0 < backoff_base self attempt)%Z ->
  exists d, compute_delay_ms self attempt t = Ok d
    /\ (9 # 10) * inject_Z (backoff_base self attempt) <= d
    /\ d < (11 # 10) * inject_Z (backoff_base self attempt).
Proof.
  intros Hb. unfold compute_delay_ms.
  set (base := inject_Z (backoff_base self attempt)).
  assert (0 < base) as Hbase.
  { unfold base. change 0 with (inject_Z 0). now rewrite <- Zlt_Qlt. }
  destruct (float_mod_pos t (base * (2 # 10))) as (m & -> & Hlo & Hhi); [lra|].
  simpl. eexists. split; [reflexivity|].
  assert (base * (2 # 10) / 2 == base * (1 # 10)) as -> by field.
  split; lra.
Qed.

(** In range: for positive [initial_ms] and [max_ms], the delay lies within
    [0.8 * base, 1.2 * base]. *)
Lemma compute_delay_ms_in_range (self : BackoffStrategy) (attempt : Z) (t : Q) :
  (0 < initial_ms self)%Z -> (0 < max_ms self)%Z -> (1 <= attempt)%Z ->
  exists d, compute_delay_ms self attempt t = Ok d
    /\ (8 # 10) * inject_Z (Z.min (initial_ms self * 2 ^ (attempt - 1)) (max_ms self)) <= d
    /\ d <= (12 # 10) * inject_Z (Z.min (initial_ms self * 2 ^ (attempt - 1)) (max_ms self)).
Proof.
  intros Hi Hm Ha.
  pose proof (backoff_base_pos self attempt Hi Hm) as Hb.
  destruct (compute_delay_ms_pos self attempt t Hb) as (d & Hd & Hlo & Hhi).
  exists d. split; [assumption|].
  unfold backoff_base in *. rewrite Z.max_r in * by lia.
  set (base := inject_Z _) in *.
  assert (0 < base) as Hbase.
  { unfold base. change 0 with (inject_Z 0). now rewrite <- Zlt_Qlt. }
  split; lra.
Qed.

(** Monotone: while the base has not gone over [max_ms], a later attempt
    never waits less than an earlier one, whatever the two clock readings. *)
Lemma compute_delay_ms_monotone (self : BackoffStrategy) (a a' : Z) (t t' d d' : Q) :
  (0 < initial_ms self)%Z -> (0 < max_ms self)%Z ->
  (1 <= a < a')%Z ->
  (initial_ms self * 2 ^ (a' - 1) <= max_ms self)%Z ->
  compute_delay_ms self a t = Ok d ->
  compute_delay_ms self a' t' = Ok d' ->
  d <= d'.
Proof.
  intros Hi Hm Ha Hunsat Hd Hd'.
  pose proof (backoff_base_pos self a Hi Hm) as Hb.
  pose proof (backoff_base_pos self a' Hi Hm) as Hb'.
  destruct (compute_delay_ms_pos self a t Hb) as (d1 & Hd1 & _ & Hhi).
  destruct (compute_delay_ms_pos self a' t' Hb') as (d2 & Hd2 & Hlo & _).
  assert (d1 = d) as -> by congruence. assert (d2 = d') as -> by congruence.
  assert (2 * backoff_base self a <= backoff_base self a')%Z as Hdouble.
  { unfold backoff_base in *. rewrite !Z.max_r in * by lia.
    rewrite (Z.min_l _ _ Hunsat).
    replace (a' - 1)%Z with ((a - 1) + (a' - a))%Z by lia.
    rewrite Z.pow_add_r by lia.
    assert (2 <= 2 ^ (a' - a))%Z.
    { change 2%Z with (2 ^ 1)%Z at 1. apply Z.pow_le_mono_r; lia. }
    assert (0 < 2 ^ (a - 1))%Z by (apply Z.pow_pos_nonneg; lia).
    nia. }
  rewrite Zle_Qle, inject_Z_mult in Hdouble.
  change (inject_Z 2) with 2 in Hdouble.
  assert (0 < inject_Z (backoff_base self a)).
  { change 0 with (inject_Z 0). now rewrite <- Zlt_Qlt. }
  lra.
Qed.

(** C10. Whenever the unjittered base is 0 (as with [initial_ms = 0] or
    [max_ms = 0] and the other one not negative), [compute_delay_ms] raises
    [ZeroDivisionError] whatever the clock reads; with a positive base it
    returns a delay. *)
Theorem compute_delay_ms_zero_base_raises (self : BackoffStrategy) (attempt : Z) (t : Q) :
  (backoff_base self attempt = 0%Z ->
     compute_delay_ms self attempt t = Raise ZeroDivisionError)
  /\ ((initial_ms self = 0 /\ 0 <= max_ms self) \/ (max_ms self = 0 /\ 0 <= initial_ms self)
      -> backoff_base self attempt = 0)%Z
  /\ ((0 < backoff_base self attempt)%Z -> returns (compute_delay_ms self attempt t)).
Proof.
  split; [apply compute_delay_ms_zero|split].
  - unfold backoff_base.
    assert (0 < 2 ^ Z.max 0 (attempt - 1))%Z by (apply Z.pow_pos_nonneg; lia).
    intros [[-> Hm]|[-> Hi]]; [lia|]. apply Z.min_r. nia.
  - intros Hb. destruct (compute_delay_ms_pos self attempt t Hb) as (d & Hd & _).
    now exists d.
Qed.

(** C8, at a configuration the constructor accepts: with [initial_ms = 0]
    the call raises instead of returning the delay 0 that the range
    [0.8 * 0, 1.2 * 0] asks for, while the sibling helper
    [utils.jitter_delay_ms] returns 0 on a base of 0. *)
Theorem compute_delay_ms_initial_zero (t u : Q) :
  compute_delay_ms {| initial_ms := 0; max_ms := 8000 |} 1 t = Raise ZeroDivisionError
  /\ jitter_delay_ms 0 (3 # 10) u = 0.
Proof. split; [now apply compute_delay_ms_zero|reflexivity]. Qed.

Local Close Scope Q_scope.

(** ** Fetcher *)

Local Open Scope list_scope.

Lemma count_app (p : Event -> bool) (a b : list Event) :
  count p (a ++ b) = (count p a + count p b)%nat.
Proof. unfold count. now rewrite filter_app, length_app. Qed.

Lemma count_nil (p : Event -> bool) : count p [] = 0%nat.
Proof. reflexivity. Qed.

Lemma count_one (p : Event -> bool) (e : Event) :
  count p [e] = if p e then 1%nat else 0%nat.
Proof. unfold count. rewrite filter_cons. now destruct (p e). Qed.

(** The retry loop never calls the rate limiter: it only adds requests and
    backoff sleeps to the trace, and leaves the limiter's timestamps alone. *)
Lemma fetch_loop_no_wait (fuel : nat) (st : St) (url : string) (attempt : Z)
    (proxy_used : option string) :
  exists evs, trace (snd (fetch_loop fuel st url attempt proxy_used)) = trace st ++ evs
    /\ count is_rate_limit evs = 0%nat
    /\ rate_limiter (fetcher (snd (fetch_loop fuel st url attempt proxy_used)))
       = rate_limiter (fetcher st).
Proof.
  revert st attempt proxy_used.
  induction fuel as [|fuel IH]; intros st attempt proxy_used; simpl.
  { exists []. now rewrite app_nil_r. }
  assert (exists evs, trace st = trace st ++ evs /\ count is_rate_limit evs = 0%nat
            /\ rate_limiter (fetcher st) = rate_limiter (fetcher st)) as Hstay.
  { exists []. now rewrite app_nil_r. }
  destruct (attempt <=? max_retries (fetcher st)); [|exact Hstay].
  destruct (if truthy proxy_used then _ else _) as [[pu pool]| |]; try exact Hstay.
  set (st1 := {| fetcher := with_proxy_pool (fetcher st) pool; world := _; trace := _ |}).
  assert (exists evs, trace st1 = trace st ++ evs /\ count is_rate_limit evs = 0%nat
            /\ rate_limiter (fetcher st1) = rate_limiter (fetcher st)) as Hone.
  { eexists. split; [reflexivity|]. split; reflexivity. }
  assert (forall d a p,
    exists evs, trace (snd (fetch_loop fuel (back_off st1 d pu) url a p)) = trace st ++ evs
      /\ count is_rate_limit evs = 0%nat
      /\ rate_limiter (fetcher (snd (fetch_loop fuel (back_off st1 d pu) url a p)))
         = rate_limiter (fetcher st)) as Hretry.
  { intros d a p. destruct (IH (back_off st1 d pu) a p) as (evs & -> & Hc & ->).
    exists ([EvRequest url (if truthy pu then pu else None)] ++ [EvBackoffSleep d] ++ evs).
    split; [simpl; now rewrite <- !app_assoc|]. split; [|reflexivity].
    now rewrite !count_app, Hc. }
  destruct (net (world st) (sent (world st))) as [status text| |].
  - destruct (retryable status).
    + destruct (compute_delay_ms _ _ _); [apply Hretry|exact Hone..].
    + exact Hone.
  - destruct (compute_delay_ms _ _ _); [apply Hretry|exact Hone..].
  - exact Hone.
Qed.

Lemma compute_delay_ms_finishes (self : BackoffStrategy) (attempt : Z) (t : Q) :
  compute_delay_ms self attempt t <> OutOfFuel.
Proof.
  unfold compute_delay_ms, float_mod. now destruct (Qeq_bool _ _).
Qed.

(** The loop finishes within its fuel: each turn that goes on adds 1 to
    [attempt], and the loop stops when [attempt] passes [max_retries]. *)
Lemma fetch_loop_finishes (fuel : nat) (st : St) (url : string) (attempt : Z)
    (proxy_used : option string) :
  Z.max 0 (max_retries (fetcher st) + 1 - attempt) < Z.of_nat fuel ->
  fst (fetch_loop fuel st url attempt proxy_used) <> OutOfFuel.
Proof.
  revert st attempt proxy_used.
  induction fuel as [|fuel IH]; intros st attempt proxy_used Hfuel; [lia|].
  simpl. destruct (Z.leb_spec attempt (max_retries (fetcher st))); [|discriminate].
  assert (forall d p pool,
    fst (fetch_loop fuel
           (back_off {| fetcher := with_proxy_pool (fetcher st) pool;
                        world := snd (http_get (world st));
                        trace := trace st ++ [EvRequest url (if truthy p then p else None)] |}
                     d p) url (attempt + 1) None) <> OutOfFuel) as Hrec.
  { intros d p pool. apply IH. simpl. lia. }
  destruct (truthy proxy_used).
  - destruct (net (world st) (sent (world st))) as [status text| |]; simpl.
    + destruct (retryable status); [|discriminate].
      destruct (compute_delay_ms _ _ _); [apply Hrec|discriminate..].
    + destruct (compute_delay_ms _ _ _) eqn:Hd; [apply Hrec|discriminate|].
      now apply compute_delay_ms_finishes in Hd.
    + discriminate.
  - pose proof (next_finishes (proxy_pool (fetcher st))) as Hn.
    destruct (next (proxy_pool (fetcher st))) as [[p pool]| |]; [|discriminate|congruence].
    destruct (net (world st) (sent (world st))) as [status text| |]; simpl.
    + destruct (retryable status); [|discriminate].
      destruct (compute_delay_ms _ _ _); [apply Hrec|discriminate..].
    + destruct (compute_delay_ms _ _ _) eqn:Hd; [apply Hrec|discriminate|].
      now apply compute_delay_ms_finishes in Hd.
    + discriminate.
Qed.

(** When every outcome is retryable and the backoff base is positive, the
    loop makes all its [max_retries + 1] turns, sleeps after each of them,
    and ends on the sentinel 599. *)
Lemma fetch_loop_exhausts (k : nat) (st : St) (url : string) (attempt : Z) :
  (forall n, retryable_outcome (net (world st) n) = true) ->
  pool_wf (proxy_pool (fetcher st)) ->
  0 < initial_ms (backoff (fetcher st)) ->
  0 < max_ms (backoff (fetcher st)) ->
  attempt + Z.of_nat k = max_retries (fetcher st) + 1 ->
  exists st' evs,
    fetch_loop (S k) st url attempt None = (Ok (599, "Max retries exceeded"%string), st')
    /\ trace st' = trace st ++ evs
    /\ count is_request evs = k
    /\ count is_backoff_sleep evs = k.
Proof.
  revert st attempt. induction k as [|k IH]; intros st attempt Hnet Hwf Hi Hm Hk.
  - simpl. destruct (Z.leb_spec attempt (max_retries (fetcher st))); [lia|].
    exists st, []. now rewrite app_nil_r.
  - remember (S k) as fuel eqn:Hfuel. simpl.
    destruct (Z.leb_spec attempt (max_retries (fetcher st))); [|lia].
    destruct (next_returns _ Hwf) as [[r pool] Hnext]. rewrite Hnext.
    pose proof (next_result _ _ _ Hnext) as (_ & _ & _ & Hwf' & _).
    specialize (Hwf' Hwf). specialize (Hnet (sent (world st))) as Hout.
    set (st1 := {| fetcher := with_proxy_pool (fetcher st) pool; world := _; trace := _ |}).
    destruct (compute_delay_ms_pos (backoff (fetcher st)) (attempt + 1)
                (loop_time (world st1))) as (d & Hd & _).
    { now apply backoff_base_pos. }
    assert (exists st' evs,
      fetch_loop fuel (back_off st1 d r) url (attempt + 1) None
        = (Ok (599, "Max retries exceeded"%string), st')
      /\ trace st' = trace st ++ evs
      /\ count is_request evs = fuel /\ count is_backoff_sleep evs = fuel) as Hrec.
    { subst fuel.
      destruct (IH (back_off st1 d r) (attempt + 1)) as (st' & evs & Hl & Ht & Hq & Hb);
        simpl; try assumption; try lia.
      - apply (pool_apply_keeps pool (OpFailure r) ""); assumption.
      - exists st', ([EvRequest url (if truthy r then r else None)]
                      ++ [EvBackoffSleep d] ++ evs).
        split; [exact Hl|]. split; [rewrite Ht; simpl; now rewrite <- !app_assoc|].
        rewrite !count_app, Hq, Hb. split; reflexivity. }
    destruct (net (world st) (sent (world st))) as [status text| |];
      simpl in Hout; try discriminate.
    + rewrite Hout. simpl in Hd |- *. rewrite Hd. exact Hrec.
    + simpl in Hd |- *. rewrite Hd. exact Hrec.
Qed.

Section FetchProps.
Context `{UrlLib}.
Local Arguments fetch_loop : simpl never.

(** [allowed] adds at most the read of one robots.txt to the trace, and it
    needs the domain of the URL to answer. *)
Lemma allowed_events (self : RobotsCache) (w : World) (url : string) :
  (snd (allowed self w url) = [] \/ exists ru, snd (allowed self w url) = [EvRobotsRead ru])
  /\ (forall b, fst (fst (allowed self w url)) = Ok b -> returns (get_domain url)).
Proof.
  unfold allowed. destruct (get_domain url) as [d| |]; simpl;
    [|split; [now left|intros; discriminate]..].
  destruct (_cache self !! d) as [rp|] eqn:Hc.
  - rewrite Hc. destruct (can_fetch _ _ _); simpl; (split; [now left|now eexists]).
  - destruct (RobotFileParser_new "") as [rp0| |]; simpl;
      [|split; [now left|now eexists]..].
    destruct (_robots_url url) as [ru| |]; simpl;
      [|split; [now left|now eexists]..].
    destruct (set_url rp0 ru) as [rp1| |]; simpl;
      [|split; [now left|now eexists]..].
    destruct (match read rp1 w with Ok rp2 => Ok rp2 | Raise _ => _ | OutOfFuel => _ end)
      as [rp'| |]; simpl; [|split; [now left|now eexists]..].
    rewrite lookup_insert_eq.
    destruct (can_fetch _ _ _); simpl; (split; [right; now eexists|now eexists]).
Qed.

(** On a cache miss with a robots.txt that cannot be read, [allowed]
    answers false and caches a parser that has read nothing. *)
Lemma allowed_after_failed_read (self : RobotsCache) (w : World)
    (url d ru : string) (rp0 rp1 : RobotFileParser) (e : exn) :
  get_domain url = Ok d ->
  _cache self !! d = None ->
  RobotFileParser_new "" = Ok rp0 ->
  _robots_url url = Ok ru ->
  set_url rp0 ru = Ok rp1 ->
  robots_txt w ru = ReadFails e ->
  allowed self w url
  = (Ok false,
     {| user_agent := user_agent self; _cache := <[d := rp0]> (_cache self) |},
     [EvRobotsRead ru]).
Proof.
  intros Hd Hmiss Hnew Hru Hset Hread. unfold allowed. rewrite Hd, Hmiss.
  assert (rp_url rp1 = ru) as Hurl.
  { unfold set_url in Hset. destruct (urlparse ru); simpl in Hset; try discriminate.
    now injection Hset as <-. }
  unfold RobotFileParser_new in *.
  destruct (urlparse "") as [p0| |]; simpl in Hnew; try discriminate.
  injection Hnew as <-. simpl. rewrite Hru. simpl. rewrite Hset. simpl.
  unfold read. rewrite Hurl, Hread. simpl. now rewrite lookup_insert_eq.
Qed.

Lemma with_robots_same (f : Fetcher) : with_robots f (robots f) = f.
Proof. now destruct f. Qed.

(** The robots check changes the robots cache only, and adds no wait, no
    request and no sleep to the trace. *)
Lemma robots_gate_quiet (st : St) (url : string) :
  exists cache evs,
    snd (robots_gate st url)
    = {| fetcher := with_robots (fetcher st) cache; world := world st;
         trace := trace st ++ evs |}
    /\ count is_rate_limit evs = 0%nat
    /\ count is_request evs = 0%nat
    /\ count is_backoff_sleep evs = 0%nat.
Proof.
  unfold robots_gate. destruct (respect_robots (fetcher st)).
  - pose proof (allowed_events (robots (fetcher st)) (world st) url) as [Hevs _].
    destruct (allowed _ _ _) as [[r cache] evs]. simpl in Hevs.
    exists cache, evs.
    split; [now destruct r as [[|]| |]|].
    destruct Hevs as [->|[ru ->]]; split_and!; reflexivity.
  - exists (robots (fetcher st)), []. rewrite with_robots_same, app_nil_r.
    split_and!; try reflexivity. now destruct st.
Qed.

(** The calls of the limiter in general. [fetch(url)] finishes (its loop
    never runs out of turns), and whatever it does, it calls
    [rate_limiter.wait] at most once; when it makes at least one network
    attempt, the one call, for the domain of the URL, comes before the
    first attempt, no attempt (first or retry) is followed by another
    call, and the limiter's timestamps are those of the start with one
    entry written. *)
Theorem fetch_waits_once (st : St) (url : string) :
  let st' := snd (fetch st url) in
  (get_domain url <> OutOfFuel -> fst (fetch st url) <> OutOfFuel)
  /\ exists evs, trace st' = trace st ++ evs
    /\ (count is_rate_limit evs <= 1)%nat
    /\ ((1 <= count is_request evs)%nat ->
        exists d pre post,
          get_domain url = Ok d
          /\ evs = pre ++ EvRateLimit d :: post
          /\ count is_request pre = 0%nat
          /\ count is_rate_limit pre = 0%nat
          /\ count is_rate_limit post = 0%nat
          /\ exists t, last_request_ts (rate_limiter (fetcher st'))
                       = <[d := t]> (last_request_ts (rate_limiter (fetcher st)))).
Proof.
  split.
  { unfold fetch. destruct (get_domain url) as [d| |]; [|discriminate|congruence].
    intros _. destruct (robots_gate st url) as [[|] st1]; [discriminate|].
    unfold wait. destruct (Qlt_le_dec 0 _); cbv beta iota zeta;
      apply fetch_loop_finishes; simpl; lia. }
  unfold fetch. destruct (get_domain url) as [d| |]; simpl;
    [|exists []; rewrite app_nil_r; split_and!; try done;
      [rewrite count_nil; lia|rewrite count_nil; lia]..].
  destruct (robots_gate_quiet st url) as (cache & gevs & Hgate & Hgr & Hgq & _).
  destruct (robots_gate st url) as [blocked st1]. simpl in Hgate. subst st1.
  set (st1 := {| fetcher := with_robots (fetcher st) cache; world := _; trace := _ |}).
  assert (trace st1 = trace st ++ gevs) as Hg by reflexivity.
  assert (rate_limiter (fetcher st1) = rate_limiter (fetcher st)) as Hgl by reflexivity.
  clearbody st1.
  destruct blocked; simpl.
  { exists gevs. split_and!; try done; lia. }
  unfold wait.
  set (last := default 0%Q _). set (wait_s := (_ - _)%Q).
  destruct (Qlt_le_dec 0 wait_s) as [Hw|Hw].
  - cbv beta iota zeta.
    match goal with |- context [fetch_loop ?f ?s url 0 None] =>
      destruct (fetch_loop_no_wait f s url 0 None) as (levs & -> & Hlr & ->) end.
    simpl. exists (gevs ++ EvRateLimit d :: EvRateSleep wait_s :: levs).
    split; [rewrite Hg, <- !app_assoc; reflexivity|].
    split.
    { rewrite count_app, Hgr. change (EvRateLimit d :: EvRateSleep wait_s :: levs)
        with ([EvRateLimit d; EvRateSleep wait_s] ++ levs).
      rewrite count_app, Hlr. simpl. lia. }
    intros _. exists d, gevs, (EvRateSleep wait_s :: levs).
    split_and!; try done.
    rewrite Hgl. now eexists.
  - cbv beta iota zeta.
    match goal with |- context [fetch_loop ?f ?s url 0 None] =>
      destruct (fetch_loop_no_wait f s url 0 None) as (levs & -> & Hlr & ->) end.
    simpl. exists (gevs ++ EvRateLimit d :: levs).
    split; [rewrite Hg, <- !app_assoc; reflexivity|].
    split.
    { rewrite count_app, Hgr. change (EvRateLimit d :: levs)
        with ([EvRateLimit d] ++ levs).
      rewrite count_app, Hlr. simpl. lia. }
    intros _. exists d, gevs, levs.
    split_and!; try done.
    rewrite Hgl. now eexists.
Qed.

(** C5, as the code has it. When every attempt ends in a retryable status
    (503, say) or a network error, the backoff parameters are positive and
    [max_retries >= 0], [fetch] makes exactly [max_retries + 1] attempts,
    sleeps a backoff delay after every one of them, the last included
    ([max_retries + 1] sleeps: 3 attempts and 3 sleeps for
    [max_retries = 2]), and returns the sentinel 599 without raising. *)
Theorem fetch_retries_exhausted (st : St) (url d : string) :
  get_domain url = Ok d ->
  fst (robots_gate st url) = false ->
  0 <= max_retries (fetcher st) ->
  0 < initial_ms (backoff (fetcher st)) ->
  0 < max_ms (backoff (fetcher st)) ->
  pool_wf (proxy_pool (fetcher st)) ->
  (forall n, retryable_outcome (net (world st) n) = true) ->
  exists st' evs,
    fetch st url = (Ok (599, "Max retries exceeded"%string), st')
    /\ trace st' = trace st ++ evs
    /\ count is_request evs = Z.to_nat (max_retries (fetcher st) + 1)
    /\ count is_backoff_sleep evs = Z.to_nat (max_retries (fetcher st) + 1).
Proof.
  intros Hd Hgate Hmax Hi Hm Hwf Hnet. unfold fetch. rewrite Hd.
  destruct (robots_gate_quiet st url) as (cache & gevs & Hg & _ & Hgq & Hgb).
  destruct (robots_gate st url) as [blocked st1]. simpl in Hg, Hgate.
  subst blocked st1. cbv beta iota. unfold wait. cbn [fetcher world trace].
  set (w1 := if Qlt_le_dec 0 _ then _ else _).
  assert (exists wevs, w1 = (fst w1, wevs) /\ net (fst w1) = net (world st)
            /\ count is_request wevs = 0%nat /\ count is_backoff_sleep wevs = 0%nat)
    as (wevs & Hw1 & Hwnet & Hwq & Hwb).
  { unfold w1. destruct (Qlt_le_dec 0 _); eexists; split_and!; reflexivity. }
  rewrite Hw1. cbv beta iota.
  match goal with |- context [fetch_loop (S ?k) ?s url 0 None] =>
    destruct (fetch_loop_exhausts k s url 0) as (st' & levs & -> & Ht & Hq & Hb) end;
    simpl; try assumption; try lia.
  { intros n. rewrite Hwnet. apply Hnet. }
  exists st', (gevs ++ (EvRateLimit d :: wevs) ++ levs).
  split; [reflexivity|]. split; [rewrite Ht; simpl; now rewrite <- !app_assoc|].
  change (EvRateLimit d :: wevs) with ([EvRateLimit d] ++ wevs).
  rewrite !count_app, Hgq, Hgb, Hwq, Hwb, Hq, Hb. simpl in *. split; reflexivity.
Qed.

(** C7. With robots compliance on and [allowed(url)] answering false,
    [fetch(url)] returns the sentinel 451 at once: the only events are
    those of [allowed] itself (the read of robots.txt, on a cache miss),
    none is a wait of the rate limiter or a request; the rate limiter,
    the proxy pool and the world's request counter are as before. *)
Theorem fetch_blocked_by_robots (st : St) (url : string)
    (cache : RobotsCache) (evs : list Event) :
  respect_robots (fetcher st) = true ->
  allowed (robots (fetcher st)) (world st) url = (Ok false, cache, evs) ->
  fetch st url
  = (Ok (451, "Blocked by robots.txt"%string),
     {| fetcher := with_robots (fetcher st) cache; world := world st;
        trace := trace st ++ evs |})
  /\ count is_rate_limit evs = 0%nat
  /\ count is_request evs = 0%nat.
Proof.
  intros Hresp Hallowed.
  pose proof (allowed_events (robots (fetcher st)) (world st) url) as [Hevs Hdom].
  rewrite Hallowed in Hevs, Hdom. simpl in Hevs, Hdom.
  destruct (Hdom false eq_refl) as [d Hd].
  split.
  - unfold fetch, robots_gate. now rewrite Hd, Hresp, Hallowed.
  - destruct Hevs as [->|[ru ->]]; split; reflexivity.
Qed.
End FetchProps.

(** *** The fetcher on examples *)

(** C1, on a host whose robots.txt cannot be read: the failed read puts a
    parser that has read nothing in the cache, and [can_fetch] of such a
    parser answers false.  So [allowed] answers false, on the first call and
    from the cache afterwards, and [fetch] returns 451. *)
Theorem allowed_false_after_failed_read (e : exn) :
  let w := world_of (robots_down e) always_503 in
  let url := "http://a.example/x"%string in
  let '(r, cache, evs) := allowed RobotsCache_new w url in
  r = Ok false
  /\ evs = [EvRobotsRead "http://a.example/robots.txt"]
  /\ fst (fst (allowed cache w url)) = Ok false
  /\ fst (fetch (fresh (Fetcher_new [] [] 800 3 500 8000 true) w) url)
     = Ok (451, "Blocked by robots.txt"%string).
Proof. vm_compute. split_and!; reflexivity. Qed.

(** [allowed] raises on a URL that [urlparse] rejects. *)
Lemma allowed_raises_on_bad_url (w : World) :
  fst (fst (allowed RobotsCache_new w "http://[")) = Raise ValueError.
Proof. reflexivity. Qed.

(** C2. A retry is not rate-limited.  With 800 ms between the requests to
    a domain and a first answer of 503, [fetch] calls [wait] once and sends
    the second request to the same domain after the backoff sleep alone,
    450 ms after the first: sooner than the limiter allows.  The limiter's
    timestamp of the domain stays the time of the first attempt, 0.45 s
    before the last request. *)
Theorem retry_ignores_domain_delay :
  let url := "http://a.example/x"%string in
  let st := fresh (Fetcher_new [] [] 800 2 500 8000 false)
                  (world_of (robots_down RequestError) once_503) in
  let st' := snd (fetch st url) in
  fst (fetch st url) = Ok (200, "ok"%string)
  /\ count is_request (trace st') = 2%nat
  /\ count is_rate_limit (trace st') = 1%nat
  /\ (exists d, trace st' = [EvRateLimit "a.example"; EvRequest url None;
                            EvBackoffSleep d; EvRequest url None]
        /\ (d == 450)%Q
        /\ (d < inject_Z (delay_ms (rate_limiter (fetcher st))))%Q)
  /\ (exists t, last_request_ts (rate_limiter (fetcher st')) !! "a.example"%string = Some t
        /\ (t == now (world st))%Q
        /\ (now (world st') == t + (450 # 1000))%Q).
Proof.
  vm_compute. split_and!; try reflexivity; eexists; split_and!; reflexivity.
Qed.

(** C5, as stated, fails: with every answer a 503 and [max_retries = 2]
    there are three backoff sleeps, not two. *)
Lemma three_backoff_sleeps :
  let st := fresh (Fetcher_new [] [] 800 2 500 8000 false)
                  (world_of (robots_down RequestError) always_503) in
  fst (fetch st "http://a.example/x") = Ok (599, "Max retries exceeded"%string)
  /\ count is_request (trace (snd (fetch st "http://a.example/x"))) = 3%nat
  /\ count is_backoff_sleep (trace (snd (fetch st "http://a.example/x"))) = 3%nat
  /\ count is_backoff_sleep (trace (snd (fetch st "http://a.example/x"))) <> 2%nat.
Proof. vm_compute. split_and!; try reflexivity. discriminate. Qed.
(** ** The worker pool *)

Lemma handling_insert (l : list WorkerState) (i : nat) (x y : WorkerState) :
  l !! i = Some x ->
  (length (filter (fun w => is_handling w = true) (<[i := y]> l)) + b2n (is_handling x)
   = length (filter (fun w => is_handling w = true) l) + b2n (is_handling y))%nat.
Proof.
  revert i. induction l as [|w l IH]; intros i Hi; [discriminate|].
  destruct i as [|i]; simpl in *.
  - injection Hi as ->. rewrite !filter_cons.
    destruct (is_handling x), (is_handling y); simpl; lia.
  - specialize (IH i Hi). rewrite !filter_cons.
    destruct (decide (is_handling w = true)); simpl; lia.
Qed.

Lemma handling_repeat_waiting (n : nat) :
  length (filter (fun w => is_handling w = true) (repeat Waiting n)) = 0%nat.
Proof. induction n as [|n IH]; [reflexivity|]. simpl. now rewrite filter_cons. Qed.

Lemma existsb_insert {A} (f : A -> bool) (l : list A) (i : nat) (y : A) :
  existsb f l = false -> f y = false -> existsb f (<[i := y]> l) = false.
Proof.
  revert i. induction l as [|x l IH]; intros i Hl Hy; [reflexivity|].
  simpl in Hl. apply orb_false_iff in Hl as [Hx Hl].
  destruct i as [|i]; simpl.
  - now rewrite Hy, Hl.
  - now rewrite Hx, IH.
Qed.

Lemma existsb_lookup {A} (f : A -> bool) (l : list A) (i : nat) (x : A) :
  existsb f l = false -> l !! i = Some x -> f x = false.
Proof.
  revert i. induction l as [|y l IH]; intros i Hl Hi; [discriminate|].
  simpl in Hl. apply orb_false_iff in Hl as [Hy Hl].
  destruct i as [|i]; simpl in Hi; [now injection Hi as <-|now apply (IH i)].
Qed.

(** A pool without an ended task has not been stopped. *)
Lemma loop_stopped_alive (r : Run) :
  Forall (fun w => is_died w = false) (workers r) -> loop_stopped r = false.
Proof.
  unfold loop_stopped. induction (workers r) as [|w l IH]; intros Hd; [reflexivity|].
  apply Forall_cons in Hd as [Hw Hl]. simpl. rewrite (IH Hl).
  now destruct w.
Qed.

Section PoolProps.
Context `{UrlLib}.

(** [enqueue] keeps the counter of the queue in step with its items. *)
Lemma enqueue_call_queue (s : Scheduler) (u : string) :
  (unfinished_tasks (queue (enqueue_call s u)) + length (items (queue s))
   = unfinished_tasks (queue s) + length (items (queue (enqueue_call s u))))%nat.
Proof.
  unfold enqueue_call. destruct (enqueue s u) as [s'| |] eqn:Hs; try lia.
  destruct (enqueue_cases _ _ _ Hs) as (n & _ & [->|(-> & _)]); [lia|].
  simpl. rewrite length_app. simpl. lia.
Qed.

Lemma enqueue_all_queue (urls : list string) (s s' : Scheduler) :
  enqueue_all s urls = Ok s' ->
  unfinished_tasks (queue s) = length (items (queue s)) ->
  unfinished_tasks (queue s') = length (items (queue s')).
Proof.
  revert s. induction urls as [|u urls IH]; simpl; intros s Hs Hq.
  - now injection Hs as <-.
  - destruct (enqueue s u) as [s1| |] eqn:H1; simpl in Hs; try discriminate.
    apply (IH s1 Hs). pose proof (enqueue_call_queue s u) as Hc.
    unfold enqueue_call in Hc. rewrite H1 in Hc. lia.
Qed.

Lemma run_inv_start (seeds allowed : list string) (s : Scheduler) (concurrency : Z) :
  Scheduler_init seeds allowed = Ok s -> run_inv (run_start s concurrency).
Proof.
  intros Hs. split; simpl.
  - unfold handling. simpl. rewrite handling_repeat_waiting.
    rewrite (enqueue_all_queue _ _ _ Hs); [lia|reflexivity].
  - apply Forall_forall. intros w Hw. apply list_elem_of_In, repeat_spec in Hw.
    now subst.
Qed.

(** What a move does, in a state that satisfies the invariant: a handler
    that ends, however it does, leaves the item marked done, and
    [task_done] does not raise. *)
Lemma step_cases (r r' : Run) (a : Action) :
  run_inv r -> step r a = Some r' ->
  loop_stopped r = false
  /\ ((exists idx u rest,
         a = Get idx /\ workers r !! idx = Some Waiting
         /\ items (queue (sched r)) = u :: rest
         /\ r' = {| sched := with_queue (sched r)
                               {| items := rest;
                                  unfinished_tasks := unfinished_tasks (queue (sched r)) |};
                    workers := <[idx := Handling u]> (workers r);
                    log := log r |})
      \/ (exists idx url u,
            a = Enqueue idx url /\ workers r !! idx = Some (Handling u)
            /\ r' = {| sched := enqueue_call (sched r) url;
                       workers := workers r; log := log r |})
      \/ (exists idx raised u n,
            a = Finish idx raised /\ workers r !! idx = Some (Handling u)
            /\ unfinished_tasks (queue (sched r)) = S n
            /\ r' = {| sched := with_queue (sched r)
                                  {| items := items (queue (sched r));
                                     unfinished_tasks := n |};
                       workers := <[idx := Waiting]> (workers r);
                       log := match raised with
                              | Some e => log r ++ [(idx, u, e)]
                              | None => log r
                              end |})
      \/ (exists idx b u n,
            a = Abort idx b /\ workers r !! idx = Some (Handling u)
            /\ unfinished_tasks (queue (sched r)) = S n
            /\ r' = {| sched := with_queue (sched r)
                                  {| items := items (queue (sched r));
                                     unfinished_tasks := n |};
                       workers := <[idx := Aborted b]> (workers r);
                       log := log r |})).
Proof.
  intros [Hq _] Hstep. unfold step in Hstep.
  destruct (loop_stopped r); [discriminate|]. split; [reflexivity|].
  assert (forall idx u, workers r !! idx = Some (Handling u) ->
            exists n, unfinished_tasks (queue (sched r)) = S n) as Hpos.
  { intros idx u Hw. pose proof (handling_insert _ _ _ Waiting Hw) as Hh.
    unfold handling in Hq. simpl in Hh.
    destruct (unfinished_tasks (queue (sched r))) as [|n]; [lia|now exists n]. }
  destruct a as [idx|idx url|idx raised|idx b].
  - destruct (workers r !! idx) as [[| | |]|] eqn:Hw; try discriminate.
    destruct (items (queue (sched r))) as [|u rest] eqn:Hi; try discriminate.
    injection Hstep as <-. left. now exists idx, u, rest.
  - destruct (workers r !! idx) as [[|u| |]|] eqn:Hw; try discriminate.
    injection Hstep as <-. right. left. now exists idx, url, u.
  - destruct (workers r !! idx) as [[|u| |]|] eqn:Hw; try discriminate.
    destruct (Hpos idx u Hw) as [n Hn]. unfold task_done in Hstep. rewrite Hn in Hstep.
    injection Hstep as <-. right. right. left. now exists idx, raised, u, n.
  - destruct (workers r !! idx) as [[|u| |]|] eqn:Hw; try discriminate.
    destruct (Hpos idx u Hw) as [n Hn]. unfold task_done in Hstep. rewrite Hn in Hstep.
    injection Hstep as <-. right. right. right. now exists idx, b, u, n.
Qed.

Lemma run_inv_step (r r' : Run) (a : Action) :
  run_inv r -> step r a = Some r' ->
  run_inv r' /\ length (workers r') = length (workers r).
Proof.
  intros Hinv Hstep. destruct (step_cases _ _ _ Hinv Hstep) as [_ Hcases].
  destruct Hinv as [Hq Hd]. unfold run_inv, handling in *.
  destruct Hcases as [(idx & u & rest & -> & Hw & Hi & ->)
                     |[(idx & url & u & -> & Hw & ->)
                      |[(idx & raised & u & n & -> & Hw & Hn & ->)
                       |(idx & b & u & n & -> & Hw & Hn & ->)]]]; simpl.
  - pose proof (handling_insert _ _ _ (Handling u) Hw) as Hh. simpl in Hh.
    rewrite Hi in Hq. simpl in Hq.
    split; [split|]; [lia| |now rewrite length_insert].
    apply Forall_insert; [assumption|discriminate].
  - pose proof (enqueue_call_queue (sched r) url).
    split; [split|]; [lia|assumption|reflexivity].
  - pose proof (handling_insert _ _ _ Waiting Hw) as Hh. simpl in Hh.
    split; [split|]; [lia| |now rewrite length_insert].
    apply Forall_insert; [assumption|discriminate].
  - pose proof (handling_insert _ _ _ (Aborted b) Hw) as Hh. simpl in Hh.
    split; [split|]; [lia| |now rewrite length_insert].
    apply Forall_insert; [assumption|discriminate].
Qed.

Lemma run_inv_exec (acts : list Action) (r r' : Run) :
  run_inv r -> exec r acts = Some r' ->
  run_inv r' /\ length (workers r') = length (workers r).
Proof.
  revert r. induction acts as [|a acts IH]; simpl; intros r Hinv Hex.
  - now injection Hex as <-.
  - destruct (step r a) as [r1|] eqn:Hs; [|discriminate].
    destruct (run_inv_step _ _ _ Hinv Hs) as [Hinv1 Hlen1].
    destruct (IH r1 Hinv1 Hex) as [? ?]. split; [assumption|congruence].
Qed.

(** Only a handler that raises outside [Exception] ends a worker task. *)
Lemma alive_exec (acts : list Action) (r r' : Run) :
  run_inv r -> exec r acts = Some r' ->
  forallb (fun a => negb (is_abort a)) acts = true ->
  Forall (fun w => is_died w = false) (workers r) ->
  Forall (fun w => is_died w = false) (workers r').
Proof.
  revert r. induction acts as [|a acts IH]; simpl; intros r Hinv Hex Hna Hd.
  - now injection Hex as <-.
  - destruct (step r a) as [r1|] eqn:Hs; [|discriminate].
    apply andb_true_iff in Hna as [Ha Hna].
    destruct (run_inv_step _ _ _ Hinv Hs) as [Hinv1 _].
    apply (IH r1 Hinv1 Hex Hna).
    destruct (step_cases _ _ _ Hinv Hs) as [_ Hcases].
    destruct Hcases as [(idx & u & rest & -> & Hw & Hi & ->)
                       |[(idx & url & u & -> & Hw & ->)
                        |[(idx & raised & u & n & -> & Hw & Hn & ->)
                         |(idx & b & u & n & -> & Hw & Hn & ->)]]]; simpl;
      try discriminate; try assumption; now apply Forall_insert.
Qed.

(** The log grows by the errors of the schedule, and by nothing else. *)
Lemma log_exec (acts : list Action) (r r' : Run) :
  run_inv r -> exec r acts = Some r' ->
  log_error <$> log r' = (log_error <$> log r) ++ raised_errors acts.
Proof.
  revert r. induction acts as [|a acts IH]; simpl; intros r Hinv Hex.
  - injection Hex as <-. now rewrite app_nil_r.
  - destruct (step r a) as [r1|] eqn:Hs; [|discriminate].
    destruct (run_inv_step _ _ _ Hinv Hs) as [Hinv1 _].
    rewrite (IH r1 Hinv1 Hex).
    destruct (step_cases _ _ _ Hinv Hs) as [_ Hcases].
    destruct Hcases as [(idx & u & rest & -> & Hw & Hi & ->)
                       |[(idx & url & u & -> & Hw & ->)
                        |[(idx & raised & u & n & -> & Hw & Hn & ->)
                         |(idx & b & u & n & -> & Hw & Hn & ->)]]]; simpl;
      try reflexivity.
    destruct raised as [e|]; [|reflexivity].
    now rewrite fmap_app, <- app_assoc.
Qed.

(** Every URL handed out is being handled or its handler has ended. *)
Lemma dispatches_exec (acts : list Action) (r r' : Run) :
  run_inv r -> exec r acts = Some r' ->
  (length (dispatches r acts) + handling r = handler_ends acts + handling r')%nat.
Proof.
  revert r. induction acts as [|a acts IH]; intros r Hinv Hex.
  - injection Hex as <-. reflexivity.
  - cbn [exec dispatches handler_ends] in *.
    destruct (step r a) as [r1|] eqn:Hs; [|discriminate].
    destruct (run_inv_step _ _ _ Hinv Hs) as [Hinv1 _].
    specialize (IH r1 Hinv1 Hex).
    destruct (step_cases _ _ _ Hinv Hs) as [_ Hcases]. unfold handling in *.
    destruct Hcases as [(idx & u & rest & -> & Hw & Hi & ->)
                       |[(idx & url & u & -> & Hw & ->)
                        |[(idx & raised & u & n & -> & Hw & Hn & ->)
                         |(idx & b & u & n & -> & Hw & Hn & ->)]]]; simpl in *.
    + rewrite Hi. pose proof (handling_insert _ _ _ (Handling u) Hw) as Hh.
      simpl in Hh |- *. lia.
    + lia.
    + pose proof (handling_insert _ _ _ Waiting Hw) as Hh. simpl in Hh. lia.
    + pose proof (handling_insert _ _ _ (Aborted b) Hw) as Hh. simpl in Hh. lia.
Qed.

(** The URL of a log record, and the URL a worker is handling, were handed
    out. *)
Lemma log_urls_exec (acts : list Action) (r r' : Run) :
  run_inv r -> exec r acts = Some r' ->
  (forall i u e, (i, u, e) ∈ log r' ->
     (i, u, e) ∈ log r \/ workers r !! i = Some (Handling u) \/ u ∈ dispatches r acts)
  /\ (forall i u, workers r' !! i = Some (Handling u) ->
        workers r !! i = Some (Handling u) \/ u ∈ dispatches r acts).
Proof.
  revert r. induction acts as [|a acts IH]; intros r Hinv Hex.
  - injection Hex as <-. split; intros; now left.
  - cbn [exec dispatches] in *.
    destruct (step r a) as [r1|] eqn:Hs; [|discriminate].
    destruct (run_inv_step _ _ _ Hinv Hs) as [Hinv1 _].
    destruct (IH r1 Hinv1 Hex) as [Hlog Hwork].
    destruct (step_cases _ _ _ Hinv Hs) as [_ Hcases].
    assert (forall i idx (w : WorkerState) u,
              <[idx := w]> (workers r) !! i = Some (Handling u) ->
              (i = idx /\ w = Handling u) \/ workers r !! i = Some (Handling u)) as Hins.
    { intros i idx w u Hl. destruct (decide (i = idx)) as [->|Hne].
      - apply list_lookup_insert_Some in Hl as [(_ & <- & _)|[? _]]; [now left|done].
      - right. now rewrite list_lookup_insert_ne in Hl. }
    destruct Hcases as [(idx & u0 & rest & -> & Hw & Hi & ->)
                       |[(idx & url & u0 & -> & Hw & ->)
                        |[(idx & raised & u0 & n & -> & Hw & Hn & ->)
                         |(idx & b & u0 & n & -> & Hw & Hn & ->)]]];
      simpl in Hlog, Hwork; rewrite ?Hi.
    + split.
      * intros i u e Hin. destruct (Hlog i u e Hin) as [?|[Hl|?]]; [now left| |].
        -- destruct (Hins _ _ _ _ Hl) as [[_ [= ->]]|?].
           ++ right. right. apply list_elem_of_here.
           ++ right. now left.
        -- right. right. now apply list_elem_of_further.
      * intros i u Hl. destruct (Hwork i u Hl) as [Hl'|?].
        -- destruct (Hins _ _ _ _ Hl') as [[_ [= ->]]|?].
           ++ right. apply list_elem_of_here.
           ++ now left.
        -- right. now apply list_elem_of_further.
    + split; assumption.
    + split.
      * intros i u e Hin. destruct (Hlog i u e Hin) as [Hl|[Hl|?]].
        -- destruct raised as [e0|]; [|now left].
           apply elem_of_app in Hl as [?|Hl]; [now left|].
           apply list_elem_of_singleton in Hl. injection Hl as -> -> ->.
           right. now left.
        -- destruct (Hins _ _ _ _ Hl) as [[_ ?]|?]; [discriminate|]. right. now left.
        -- right. now right.
      * intros i u Hl. destruct (Hwork i u Hl) as [Hl'|?]; [|now right].
        destruct (Hins _ _ _ _ Hl') as [[_ ?]|?]; [discriminate|]. now left.
    + split.
      * intros i u e Hin. destruct (Hlog i u e Hin) as [Hl|[Hl|?]].
        -- now left.
        -- destruct (Hins _ _ _ _ Hl) as [[_ ?]|?]; [discriminate|]. right. now left.
        -- right. now right.
      * intros i u Hl. destruct (Hwork i u Hl) as [Hl'|?]; [|now right].
        destruct (Hins _ _ _ _ Hl') as [[_ ?]|?]; [discriminate|]. now left.
Qed.
(** A worker inside the handler exists when the handling count is positive. *)
Lemma handling_pos (l : list WorkerState) :
  (0 < length (filter (fun w => is_handling w = true) l))%nat ->
  exists idx url, l !! idx = Some (Handling url).
Proof.
  induction l as [|w l IH]; simpl; [lia|]. rewrite filter_cons.
  destruct w as [|url|e|b]; simpl.
  - intros Hpos. destruct (IH Hpos) as (idx & url & Hl). now exists (S idx), url.
  - intros _. now exists 0%nat, url.
  - intros Hpos. destruct (IH Hpos) as (idx & url & Hl). now exists (S idx), url.
  - intros Hpos. destruct (IH Hpos) as (idx & url & Hl). now exists (S idx), url.
Qed.

(** With nobody handling, a worker whose task has not ended waits. *)
Lemma all_waiting (l : list WorkerState) (idx : nat) (w : WorkerState) :
  length (filter (fun w => is_handling w = true) l) = 0%nat ->
  l !! idx = Some w -> is_died w = false -> w = Waiting.
Proof.
  intros Hh Hl Hd. destruct w as [|url|e|b]; [reflexivity| |discriminate..].
  pose proof (handling_insert _ _ _ Waiting Hl) as Hi. simpl in Hi. lia.
Qed.

(** From a state of the pool with [n] unfinished items, in a loop that
    runs and with a worker task that has not ended, a schedule in which no
    handler enqueues or raises anything ends the run. *)
Lemma drain (n : nat) (r : Run) :
  run_inv r -> loop_stopped r = false ->
  (exists idx w, workers r !! idx = Some w /\ is_died w = false) ->
  unfinished_tasks (queue (sched r)) = n ->
  exists more r',
    exec r more = Some r'
    /\ join_returns r' = true
    /\ forallb is_quiet more = true
    /\ log r' = log r
    /\ (length more <= 2 * n)%nat.
Proof.
  revert r. induction n as [|n IH]; intros r Hinv Hrun Hw Hn.
  - exists [], r. unfold join_returns. rewrite Hn, Hrun. now split_and!.
  - assert (forall idx url, workers r !! idx = Some (Handling url) ->
              exists more r', exec r more = Some r' /\ join_returns r' = true
                /\ forallb is_quiet more = true
                /\ log r' = log r /\ (length more <= S (2 * n))%nat) as Hfinish.
    { intros idx url Hidx.
      assert (exists r1, step r (Finish idx None) = Some r1
                /\ unfinished_tasks (queue (sched r1)) = n /\ log r1 = log r
                /\ workers r1 = <[idx := Waiting]> (workers r))
        as (r1 & Hs & Hn1 & Hl1 & Hw1).
      { unfold step. rewrite Hrun, Hidx. unfold task_done. rewrite Hn. now eexists. }
      destruct (run_inv_step _ _ _ Hinv Hs) as [Hinv1 Hlen1].
      destruct (IH r1 Hinv1) as (more & r' & Hex & Hj & Hne & Hl & Hlen);
        [| |assumption|].
      { unfold loop_stopped. rewrite Hw1. now apply existsb_insert. }
      { exists idx, Waiting. rewrite Hw1. split; [|reflexivity].
        apply list_lookup_insert_eq. now apply lookup_lt_Some in Hidx. }
      exists (Finish idx None :: more), r'. cbn [exec]. rewrite Hs.
      split_and!; try assumption; [congruence|simpl; lia]. }
    destruct (Nat.eq_dec (handling r) 0%nat) as [Hz|Hpos].
    + destruct Hinv as [Hq Hd]. rewrite Hn, Hz in Hq.
      destruct (items (queue (sched r))) as [|u rest] eqn:Hi; [simpl in Hq; lia|].
      destruct Hw as (idx & w & Hidx & Halive).
      assert (w = Waiting) as -> by now apply (all_waiting (workers r) idx).
      assert (exists r1, step r (Get idx) = Some r1
                /\ workers r1 !! idx = Some (Handling u)
                /\ loop_stopped r1 = false
                /\ unfinished_tasks (queue (sched r1)) = S n /\ log r1 = log r)
        as (r1 & Hs & Hw1 & Hrun1 & Hn1 & Hl1).
      { unfold step. rewrite Hrun, Hidx, Hi. eexists. split; [reflexivity|]. simpl.
        split_and!; try done.
        - apply list_lookup_insert_eq. now apply lookup_lt_Some in Hidx.
        - unfold loop_stopped. simpl. now apply existsb_insert. }
      assert (run_inv r) as Hinv by (split; [rewrite Hn, Hz, Hi; exact Hq|assumption]).
      destruct (run_inv_step _ _ _ Hinv Hs) as [Hinv1 Hlen1].
      assert (exists r2, step r1 (Finish idx None) = Some r2
                /\ unfinished_tasks (queue (sched r2)) = n /\ log r2 = log r1
                /\ workers r2 = <[idx := Waiting]> (workers r1))
        as (r2 & Hs2 & Hn2 & Hl2 & Hw2).
      { unfold step. rewrite Hrun1, Hw1. unfold task_done. rewrite Hn1. now eexists. }
      destruct (run_inv_step _ _ _ Hinv1 Hs2) as [Hinv2 Hlen2].
      destruct (IH r2 Hinv2) as (more & r' & Hex & Hj & Hne & Hl & Hlen);
        [| |assumption|].
      { unfold loop_stopped. rewrite Hw2. now apply existsb_insert. }
      { exists idx, Waiting. rewrite Hw2. split; [|reflexivity].
        apply list_lookup_insert_eq. now apply lookup_lt_Some in Hw1. }
      exists (Get idx :: Finish idx None :: more), r'. cbn [exec].
      rewrite Hs, Hs2.
      split_and!; try assumption; [congruence|simpl; lia].
    + destruct (handling_pos (workers r)) as (idx & url & Hidx);
        [unfold handling in Hpos; lia|].
      destruct (Hfinish idx url Hidx) as (more & r' & ? & ? & ? & ? & ?).
      exists more, r'. split_and!; try assumption. lia.
Qed.

(** C9. In every state the pool of [run] reaches from a scheduler built by
    [Scheduler(seeds, allowed)], under every schedule and whatever the
    handlers do, as long as what they raise are instances of [Exception]:
    - no worker task has ended;
    - the log holds exactly the errors raised, in order and each under the
      index of the worker that got it, with a URL that was handed out;
    - every URL handed out is being handled or its handler has ended,
      returning or raising, and the counter of the queue counts the items
      queued and being handled: an item whose handler has ended is marked
      done;
    - a handler that raises [e] on [url] leaves its worker waiting, with
      the error logged and the item marked done, and the worker takes the
      head of the queue next;
    - [join] returns exactly when no item is queued and every handler
      has ended, and a pool of at least one worker can be brought there
      by at most two moves per unfinished item, in which no handler
      enqueues or raises anything. *)
Theorem handler_error_isolated
    (seeds allowed : list string) (s : Scheduler) (concurrency : Z)
    (acts : list Action) (r : Run) :
  Scheduler_init seeds allowed = Ok s ->
  exec (run_start s concurrency) acts = Some r ->
  forallb (fun a => negb (is_abort a)) acts = true ->
  (Forall (fun w => is_died w = false) (workers r)
   /\ length (workers r) = Z.to_nat concurrency)
  /\ (log_error <$> log r = raised_errors acts
      /\ forall idx url e, (idx, url, e) ∈ log r ->
           url ∈ dispatches (run_start s concurrency) acts)
  /\ (length (dispatches (run_start s concurrency) acts)
      = (handler_ends acts + handling r)%nat
      /\ unfinished_tasks (queue (sched r))
         = (length (items (queue (sched r))) + handling r)%nat)
  /\ (forall idx url e, workers r !! idx = Some (Handling url) ->
        exists r', step r (Finish idx (Some e)) = Some r'
          /\ workers r' !! idx = Some Waiting
          /\ log r' = log r ++ [(idx, url, e)]
          /\ S (unfinished_tasks (queue (sched r'))) = unfinished_tasks (queue (sched r))
          /\ items (queue (sched r')) = items (queue (sched r))
          /\ forall u rest, items (queue (sched r')) = u :: rest ->
               exists r'', step r' (Get idx) = Some r''
                 /\ workers r'' !! idx = Some (Handling u)
                 /\ items (queue (sched r'')) = rest)
  /\ (join_returns r = true
      <-> items (queue (sched r)) = []
          /\ handler_ends acts = length (dispatches (run_start s concurrency) acts))
  /\ (1 <= concurrency ->
      exists more r',
        exec r more = Some r'
        /\ join_returns r' = true
        /\ forallb is_quiet more = true
        /\ log r' = log r
        /\ (length more <= 2 * unfinished_tasks (queue (sched r)))%nat).
Proof.
  intros Hinit Hexec Hna.
  pose proof (run_inv_start _ _ _ concurrency Hinit) as Hinv0.
  destruct (run_inv_exec _ _ _ Hinv0 Hexec) as [Hinv Hlen].
  simpl in Hlen. rewrite repeat_length in Hlen.
  assert (Forall (fun w => is_died w = false) (workers r)) as Hd.
  { apply (alive_exec acts _ _ Hinv0 Hexec Hna). simpl.
    apply Forall_forall. intros w Hw. apply list_elem_of_In, repeat_spec in Hw.
    now subst. }
  pose proof (loop_stopped_alive _ Hd) as Hrun.
  pose proof (dispatches_exec _ _ _ Hinv0 Hexec) as Hcount.
  assert (handling (run_start s concurrency) = 0%nat) as Hh0
    by (unfold handling; simpl; apply handling_repeat_waiting).
  rewrite Hh0, Nat.add_0_r in Hcount.
  destruct Hinv as [Hq Hnd].
  split; [now split|]. split; [|split; [|split; [|split]]].
  - split.
    + now rewrite (log_exec _ _ _ Hinv0 Hexec).
    + intros idx url e Hin.
      destruct (proj1 (log_urls_exec _ _ _ Hinv0 Hexec) idx url e Hin) as [Hl|[Hl|?]];
        [now apply elem_of_nil in Hl| |assumption].
      simpl in Hl. apply list_elem_of_lookup_2, list_elem_of_In, repeat_spec in Hl.
      discriminate.
  - now split.
  - intros idx url e Hw.
    pose proof (handling_insert _ _ _ Waiting Hw) as Hh. simpl in Hh.
    unfold handling in Hq. unfold step. rewrite Hrun, Hw. unfold task_done.
    destruct (unfinished_tasks (queue (sched r))) as [|n] eqn:Hu; [lia|].
    eexists. split; [reflexivity|]. simpl.
    assert (idx < length (workers r))%nat as Hidx by now apply lookup_lt_Some in Hw.
    split; [now apply list_lookup_insert_eq|].
    split; [reflexivity|]. split; [reflexivity|]. split; [reflexivity|].
    intros u rest Hitems.
    assert (loop_stopped {| sched := with_queue (sched r)
                                       {| items := items (queue (sched r));
                                          unfinished_tasks := n |};
                            workers := <[idx := Waiting]> (workers r);
                            log := log r ++ [(idx, url, e)] |} = false) as ->.
    { unfold loop_stopped. simpl. now apply existsb_insert. }
    simpl. rewrite list_lookup_insert_eq by assumption. rewrite Hitems.
    eexists. split; [reflexivity|]. simpl. split; [|reflexivity].
    apply list_lookup_insert_eq. now rewrite length_insert.
  - unfold join_returns. rewrite Hrun, andb_true_r, Nat.eqb_eq, Hq, Hcount. split.
    + intros Hz. split; [apply nil_length_inv|]; lia.
    + intros [-> Hends]. simpl. lia.
  - intros Hc. apply (drain _ r); [now split|assumption| |reflexivity].
    destruct (workers r) as [|w ws] eqn:Hws; [simpl in Hlen; lia|].
    exists 0%nat, w. split; [reflexivity|]. now apply Forall_cons in Hd as [? _].
Qed.
End PoolProps.

(** ** The theorems on examples *)

Lemma enqueue_twice_noop_witness :
  exists s2,
    enqueue (enqueue_call ex_sched "http://a.example/x#top") "http://a.example/x" = Ok s2
    /\ length (items (queue s2))
       = length (items (queue (enqueue_call ex_sched "http://a.example/x#top")))
    /\ size (seen s2) = size (seen (enqueue_call ex_sched "http://a.example/x#top"))
    /\ s2 = enqueue_call ex_sched "http://a.example/x#top".
Proof.
  apply (enqueue_twice_noop ex_sched _ "http://a.example/x#top" "http://a.example/x").
  - vm_compute. reflexivity.
  - reflexivity.
Defined.

Lemma out_of_scope_never_enqueued_witness :
  let s := foldl enqueue_call (enqueue_call ex_sched "http://a.example/x")
             ["http://a.example/y"; "http://b.example/z"]%string in
  enqueue s "http://B.example/z#frag" = Ok s
  /\ ("http://B.example/z"%string ∉ seen s)
  /\ ("http://B.example/z"%string ∉ items (queue s)).
Proof.
  apply (out_of_scope_never_enqueued ["http://a.example/x"%string] ["a.example"%string]
           _ _ _ _ "B.example").
  - discriminate.
  - vm_compute. reflexivity.
  - reflexivity.
  - reflexivity.
  - intros a Ha. apply list_elem_of_singleton in Ha as ->. intros [pre Hpre].
    assert (endswith (lower "B.example") (lower "a.example") = true) as Hend
      by (apply endswith_spec; eauto).
    vm_compute in Hend. discriminate.
Defined.

Lemma fetch_retries_exhausted_witness :
  let st := fresh (Fetcher_new [] [] 800 2 500 8000 false)
                  (world_of (robots_down RequestError) always_503) in
  exists st' evs,
    fetch st "http://a.example/x" = (Ok (599, "Max retries exceeded"%string), st')
    /\ trace st' = trace st ++ evs
    /\ count is_request evs = 3%nat
    /\ count is_backoff_sleep evs = 3%nat.
Proof.
  apply (fetch_retries_exhausted
           (fresh (Fetcher_new [] [] 800 2 500 8000 false)
                  (world_of (robots_down RequestError) always_503))
           "http://a.example/x" "a.example").
  - reflexivity.
  - reflexivity.
  - simpl. lia.
  - simpl. lia.
  - simpl. lia.
  - left. reflexivity.
  - intros n. reflexivity.
Defined.



Lemma fetch_blocked_by_robots_witness :
  let st := fresh (Fetcher_new [] [] 800 3 500 8000 true)
                  (world_of robots_disallow always_503) in
  fst (fetch st "http://a.example/x") = Ok (451, "Blocked by robots.txt"%string)
  /\ trace (snd (fetch st "http://a.example/x"))
     = [EvRobotsRead "http://a.example/robots.txt"]
  /\ sent (world (snd (fetch st "http://a.example/x"))) = 0%nat.
Proof.
  set (st := fresh (Fetcher_new [] [] 800 3 500 8000 true)
                   (world_of robots_disallow always_503)).
  destruct (fetch_blocked_by_robots st "http://a.example/x"
              (snd (fst (allowed (robots (fetcher st)) (world st) "http://a.example/x")))
              (snd (allowed (robots (fetcher st)) (world st) "http://a.example/x")))
    as [Hf _].
  - reflexivity.
  - vm_compute. reflexivity.
  - simpl. rewrite Hf. simpl. split_and!; reflexivity.
Defined.

Lemma handler_error_isolated_witness :
  let start := run_start (enqueue_call ex_sched "http://a.example/x") 2 in
  (Forall (fun w => is_died w = false) (workers ex_run)
   /\ length (workers ex_run) = Z.to_nat 2)
  /\ (log_error <$> log ex_run = raised_errors ex_acts
      /\ forall idx url e, (idx, url, e) ∈ log ex_run -> url ∈ dispatches start ex_acts)
  /\ (length (dispatches start ex_acts) = (handler_ends ex_acts + handling ex_run)%nat
      /\ unfinished_tasks (queue (sched ex_run))
         = (length (items (queue (sched ex_run))) + handling ex_run)%nat)
  /\ (forall idx url e, workers ex_run !! idx = Some (Handling url) ->
        exists r', step ex_run (Finish idx (Some e)) = Some r'
          /\ workers r' !! idx = Some Waiting
          /\ log r' = log ex_run ++ [(idx, url, e)]
          /\ S (unfinished_tasks (queue (sched r')))
             = unfinished_tasks (queue (sched ex_run))
          /\ items (queue (sched r')) = items (queue (sched ex_run))
          /\ forall u rest, items (queue (sched r')) = u :: rest ->
               exists r'', step r' (Get idx) = Some r''
                 /\ workers r'' !! idx = Some (Handling u)
                 /\ items (queue (sched r'')) = rest)
  /\ (join_returns ex_run = true
      <-> items (queue (sched ex_run)) = []
          /\ handler_ends ex_acts = length (dispatches start ex_acts))
  /\ (1 <= 2 ->
      exists more r',
        exec ex_run more = Some r'
        /\ join_returns r' = true
        /\ forallb is_quiet more = true
        /\ log r' = log ex_run
        /\ (length more <= 2 * unfinished_tasks (queue (sched ex_run)))%nat).
Proof.
  apply (handler_error_isolated ["http://a.example/x"%string] ["a.example"%string]
           (enqueue_call ex_sched "http://a.example/x") 2 ex_acts ex_run).
  - vm_compute. reflexivity.
  - vm_compute. reflexivity.
  - reflexivity.
Defined.

Example ex_run_state :
  workers ex_run = [Waiting; Handling "http://a.example/y"]
  /\ log ex_run = [(0%nat, "http://a.example/x"%string, Exception "boom")]
  /\ raised_errors ex_acts = [(0%nat, Exception "boom")]
  /\ dispatches (run_start (enqueue_call ex_sched "http://a.example/x") 2) ex_acts
     = ["http://a.example/x"; "http://a.example/y"]%string
  /\ handler_ends ex_acts = 1%nat
  /\ unfinished_tasks (queue (sched ex_run)) = 1%nat
  /\ join_returns ex_run = false.
Proof. vm_compute. split_and!; reflexivity. Qed.

(** C9, as stated, fails for what a handler raises outside [Exception]: a
    handler that is cancelled is not caught.  With one worker and two seeds,
    the item is marked done, nothing is logged, the worker task ends, and
    the second seed stays queued with nobody to take it: no move is left
    and [join] does not return. *)
Lemma cancelled_handler_ends_worker :
  let seeds := ["http://a.example/x"; "http://a.example/y"]%string in
  let s := foldl enqueue_call ex_sched seeds in
  Scheduler_init seeds ["a.example"%string] = Ok s
  /\ exec (run_start s 1) [Get 0; Abort 0 CancelledError] = Some ex_cancel_run
  /\ workers ex_cancel_run = [Aborted CancelledError]
  /\ log ex_cancel_run = []
  /\ items (queue (sched ex_cancel_run)) = ["http://a.example/y"%string]
  /\ unfinished_tasks (queue (sched ex_cancel_run)) = 1%nat
  /\ join_returns ex_cancel_run = false
  /\ forall a, step ex_cancel_run a = None.
Proof.
  vm_compute. split_and!; try reflexivity.
  intros [[|idx]|[|idx] url|[|idx] raised|[|idx] b]; reflexivity.
Qed.

(** With [initial_ms = 0] a network error makes [fetch] itself raise: the
    modulo raises inside the [except httpx.RequestError] handler. *)
Example fetch_raises_with_zero_backoff :
  fst (fetch (fresh (Fetcher_new [] [] 800 2 0 8000 false)
                    (world_of (robots_down RequestError) (fun _ => NetworkError)))
             "http://a.example/x")
  = Raise ZeroDivisionError.
Proof. reflexivity. Qed.

(** ... and a retryable status ends the call on 520 after one attempt. *)
Example fetch_520_with_zero_backoff :
  fst (fetch (fresh (Fetcher_new [] [] 800 2 0 8000 false)
                    (world_of (robots_down RequestError) always_503))
             "http://a.example/x")
  = Ok (520, "Unexpected error"%string).
Proof. reflexivity. Qed.

(** What [allowed] answers by the fate of the robots.txt read: a 404 allows,
    a 403 blocks, and a 500, like a failed read, blocks. *)
Example allowed_by_http_status :
  let ask code :=
    fst (fst (allowed RobotsCache_new
                (world_of (fun _ => ReadHTTPError code) always_503)
                "http://a.example/x")) in
  ask 404 = Ok true /\ ask 403 = Ok false /\ ask 500 = Ok false.
Proof. vm_compute. split_and!; reflexivity. Qed.

(** * Further properties of the crawl core *)

(** ** The frontier *)

Section FrontierMore.
Context `{UrlLib}.

(** The three ways [enqueue] returns. *)
Lemma enqueue_outcomes (s s' : Scheduler) (u n : string) :
  enqueue s u = Ok s' ->
  normalize_url u = Ok n ->
  (scoped s n /\ (n ∉ seen s)
   /\ s' = {| queue := put_nowait (queue s) n; seen := {[n]} ∪ seen s;
              allowed_domains := allowed_domains s |})
  \/ (scoped s n /\ n ∈ seen s /\ s' = s)
  \/ (~ scoped s n /\ s' = s).
Proof.
  unfold enqueue, scoped. intros Hs Hn. rewrite Hn in Hs. simpl in Hs.
  destruct (allowed_domains s) as [|a l] eqn:Ha; simpl in Hs.
  - destruct (decide (n ∈ seen s)); injection Hs as <-.
    + right. left. split_and!; auto.
    + left. split_and!; auto.
  - destruct (same_domain n (a :: l)) as [[|]| |] eqn:Hd; simpl in Hs; try discriminate.
    + destruct (decide (n ∈ seen s)); injection Hs as <-.
      * right. left. split_and!; auto.
      * left. split_and!; auto.
    + injection Hs as <-. right. right. split; [|reflexivity].
      intros [?|?]; discriminate.
Qed.

(** X1. What a returning [enqueue(u)] leaves: the seen-set only grows and
    the allow-list stays; the normalised URL is in the seen-set afterwards
    exactly when it was there before or it is in scope; it is appended to
    the queue exactly when it is in scope and was not seen before, and
    otherwise the queue is as it was. *)
Theorem enqueue_postcondition (s s' : Scheduler) (u n : string) :
  enqueue s u = Ok s' ->
  normalize_url u = Ok n ->
  seen s ⊆ seen s'
  /\ allowed_domains s' = allowed_domains s
  /\ (n ∈ seen s' <-> n ∈ seen s \/ scoped s n)
  /\ (items (queue s') = items (queue s) ++ [n] <-> (n ∉ seen s) /\ scoped s n)
  /\ (items (queue s') = items (queue s) <-> n ∈ seen s \/ ~ scoped s n).
Proof.
  intros Hs Hn.
  assert (forall l : list string, l ++ [n] <> l) as Happ.
  { intros l Hl. apply (f_equal length) in Hl. rewrite length_app in Hl.
    simpl in Hl. lia. }
  destruct (enqueue_outcomes _ _ _ _ Hs Hn)
    as [(Hsc & Hout & ->)|[(Hsc & Hin & ->)|(Hsc & ->)]]; simpl.
  - split; [set_solver|]. split; [reflexivity|]. split; [|split].
    + split; [tauto|]. intros _. set_solver.
    + tauto.
    + split; [intros Heq; now apply Happ in Heq|tauto].
  - split; [done|]. split; [reflexivity|]. split; [|split].
    + tauto.
    + split; [intros Heq; symmetry in Heq; now apply Happ in Heq|tauto].
    + tauto.
  - split; [done|]. split; [reflexivity|]. split; [|split].
    + split; [tauto|]. intros [?|?]; [assumption|contradiction].
    + split; [intros Heq; symmetry in Heq; now apply Happ in Heq|tauto].
    + tauto.
Qed.

(** [enqueue] keeps the queue free of duplicates and equal, as a set, to
    the seen-set, when nothing has been taken from it. *)
Lemma enqueue_all_frontier (urls : list string) (s s' : Scheduler) :
  enqueue_all s urls = Ok s' ->
  NoDup (items (queue s)) ->
  (forall x, x ∈ seen s <-> x ∈ items (queue s)) ->
  NoDup (items (queue s'))
  /\ (forall x, x ∈ seen s' <-> x ∈ items (queue s'))
  /\ allowed_domains s' = allowed_domains s
  /\ (forall x, x ∈ seen s' <->
        x ∈ seen s \/ exists u, u ∈ urls /\ normalize_url u = Ok x /\ scoped s x).
Proof.
  revert s. induction urls as [|u urls IH]; simpl; intros s Hall Hnd Hset.
  - injection Hall as <-. split_and!; try done.
    intros x. split; [tauto|]. intros [?|(u & Hu & _)]; [assumption|].
    now apply elem_of_nil in Hu.
  - destruct (enqueue s u) as [s1| |] eqn:H1; simpl in Hall; try discriminate.
    destruct (enqueue_cases _ _ _ H1) as (n & Hn & _).
    pose proof (enqueue_allowed_domains _ _ _ H1) as Hal.
    assert (NoDup (items (queue s1))
            /\ (forall x, x ∈ seen s1 <-> x ∈ items (queue s1))
            /\ (forall x, x ∈ seen s1 <-> x ∈ seen s \/ (x = n /\ scoped s n)))
      as (Hnd1 & Hset1 & Hstep).
    { destruct (enqueue_outcomes _ _ _ _ H1 Hn)
        as [(Hsc & Hout & ->)|[(Hsc & Hin & ->)|(Hsc & ->)]]; simpl.
      - split_and!.
        + apply NoDup_app. split; [assumption|]. split; [|apply NoDup_singleton].
          intros x Hx ->%list_elem_of_singleton. apply Hout. now apply Hset.
        + intros x. rewrite elem_of_union, elem_of_singleton, elem_of_app,
            list_elem_of_singleton, Hset. tauto.
        + intros x. rewrite elem_of_union, elem_of_singleton. tauto.
      - split_and!; try assumption. intros x. split; [tauto|].
        intros [?|[-> _]]; assumption.
      - split_and!; try assumption. intros x. split; [tauto|].
        intros [?|[_ ?]]; [assumption|contradiction]. }
    destruct (IH s1 Hall Hnd1 Hset1) as (Hnd' & Hset' & Hal' & Hchar).
    split_and!; try assumption; [congruence|].
    intros x. rewrite Hchar, Hstep. unfold scoped in *. rewrite Hal. split.
    + intros [[Hx|[-> Hsc]]|(v & Hv & Hnv & Hsc)].
      * now left.
      * right. exists u. split; [apply list_elem_of_here|now split].
      * right. exists v. split; [now apply list_elem_of_further|now split].
    + intros [Hx|(v & Hv & Hnv & Hsc)]; [left; now left|].
      apply elem_of_cons in Hv as [->|Hv].
      * left. right. split; [congruence|]. assert (x = n) as -> by congruence.
        assumption.
      * right. exists v. now split_and!.
Qed.

(** X2. The frontier that [Scheduler(seeds, allowed)] builds: the queue
    holds no URL twice, the seen-set is the set of the queued URLs and has
    as many elements as the queue; and a URL is in it exactly when it is
    the normalised form of a seed that is in scope. *)
Theorem scheduler_init_frontier (seeds allowed : list string) (s : Scheduler) :
  Scheduler_init seeds allowed = Ok s ->
  allowed_domains s = allowed
  /\ NoDup (items (queue s))
  /\ (forall x, x ∈ seen s <-> x ∈ items (queue s))
  /\ size (seen s) = length (items (queue s))
  /\ unfinished_tasks (queue s) = length (items (queue s))
  /\ (forall x, x ∈ seen s <->
        exists u, u ∈ seeds /\ normalize_url u = Ok x
                  /\ (allowed = [] \/ same_domain x allowed = Ok true)).
Proof.
  intros Hinit. unfold Scheduler_init in Hinit.
  destruct (enqueue_all_frontier _ _ _ Hinit) as (Hnd & Hset & Hal & Hchar); simpl.
  { apply NoDup_nil_2. }
  { intros x. split; [set_solver|]. intros Hx. now apply elem_of_nil in Hx. }
  simpl in *. split_and!; try done.
  - assert (seen s = list_to_set (items (queue s))) as ->.
    { apply set_eq. intros x. rewrite elem_of_list_to_set. apply Hset. }
    now apply size_list_to_set.
  - apply (enqueue_all_queue _ _ _ Hinit). reflexivity.
  - intros x. rewrite Hchar. unfold scoped. simpl. split; [|tauto].
    intros [Hx|?]; [set_solver|assumption].
Qed.
End FrontierMore.

(** ** The worker pool, further *)

Section PoolMore.
Context `{UrlLib}.

Lemma frontier_inv_enqueue_call (taken : list string) (s : Scheduler) (u : string) :
  frontier_inv taken s -> frontier_inv taken (enqueue_call s u).
Proof.
  intros [Hnd Hsub]. unfold enqueue_call.
  destruct (enqueue s u) as [s'| |] eqn:Hs; [|now split..].
  destruct (enqueue_cases _ _ _ Hs) as (n & Hn & _).
  destruct (enqueue_outcomes _ _ _ _ Hs Hn)
    as [(_ & Hout & ->)|[(_ & _ & ->)|(_ & ->)]]; [|now split..].
  unfold frontier_inv. simpl. split.
  - rewrite app_assoc. apply NoDup_app. split; [assumption|].
    split; [|apply NoDup_singleton].
    intros x Hx ->%list_elem_of_singleton. apply Hout. now apply Hsub.
  - intros x. rewrite app_assoc, elem_of_app, list_elem_of_singleton,
      elem_of_union, elem_of_singleton.
    intros [Hx| ->]; [right; now apply Hsub|now left].
Qed.

(** A move of the pool changes the frontier by taking the head of the
    queue, by an [enqueue], or not at all. *)
Lemma step_sched (r r' : Run) (a : Action) :
  step r a = Some r' ->
  (exists idx url rest, a = Get idx /\ items (queue (sched r)) = url :: rest
      /\ items (queue (sched r')) = rest /\ seen (sched r') = seen (sched r)
      /\ allowed_domains (sched r') = allowed_domains (sched r))
  \/ (exists idx url, a = Enqueue idx url /\ sched r' = enqueue_call (sched r) url)
  \/ ((forall idx, a <> Get idx) /\ (forall idx url, a <> Enqueue idx url)
      /\ items (queue (sched r')) = items (queue (sched r))
      /\ seen (sched r') = seen (sched r)
      /\ allowed_domains (sched r') = allowed_domains (sched r)).
Proof.
  unfold step. destruct (loop_stopped r); [discriminate|].
  destruct a as [idx|idx url|idx raised|idx b].
  - destruct (workers r !! idx) as [[| | |]|]; try discriminate.
    destruct (items (queue (sched r))) as [|u rest] eqn:Hi; try discriminate.
    intros Hs. injection Hs as <-. left. exists idx, u, rest. now split_and!.
  - destruct (workers r !! idx) as [[| | |]|]; try discriminate.
    intros Hs. injection Hs as <-. right. left. now exists idx, url.
  - destruct (workers r !! idx) as [[|u| |]|]; try discriminate.
    unfold task_done. destruct (unfinished_tasks (queue (sched r)));
      intros Hs; injection Hs as <-; right; right; now split_and!.
  - destruct (workers r !! idx) as [[|u| |]|]; try discriminate.
    unfold task_done. destruct (unfinished_tasks (queue (sched r)));
      intros Hs; injection Hs as <-; right; right; now split_and!.
Qed.

Lemma dispatches_nodup (acts : list Action) (r : Run) (taken : list string) :
  frontier_inv taken (sched r) -> NoDup (taken ++ dispatches r acts).
Proof.
  revert r taken. induction acts as [|a acts IH]; intros r taken Hinv; simpl.
  - rewrite app_nil_r. destruct Hinv as [Hnd _].
    now apply NoDup_app in Hnd as (? & _ & _).
  - destruct (step r a) as [r'|] eqn:Hs.
    2:{ rewrite app_nil_r. destruct Hinv as [Hnd _].
        now apply NoDup_app in Hnd as (? & _ & _). }
    destruct (step_sched _ _ _ Hs)
      as [(idx & url & rest & -> & Hi & Hi' & Hseen & _)
         |[(idx & url & -> & Hsched)|(Hget & _ & Hi' & Hseen & _)]].
    + rewrite Hi. change (taken ++ url :: dispatches r' acts)
        with (taken ++ [url] ++ dispatches r' acts).
      rewrite app_assoc. apply IH. destruct Hinv as [Hnd Hsub].
      rewrite Hi in Hnd, Hsub. unfold frontier_inv.
      rewrite Hi', Hseen, <- app_assoc. now split.
    + assert (NoDup (taken ++ dispatches r' acts)) as Hgoal.
      { apply IH. rewrite Hsched. now apply frontier_inv_enqueue_call. }
      now destruct (items (queue (sched r))).
    + assert (NoDup (taken ++ dispatches r' acts)) as Hgoal.
      { apply IH. unfold frontier_inv in *. now rewrite Hi', Hseen. }
      destruct a as [idx| | |]; [now destruct (Hget idx)|assumption..].
Qed.

Lemma in_scope_step (r r' : Run) (a : Action) :
  step r a = Some r' -> in_scope (sched r) ->
  in_scope (sched r') /\ allowed_domains (sched r') = allowed_domains (sched r).
Proof.
  intros Hs Hin.
  destruct (step_sched _ _ _ Hs)
    as [(idx & url & rest & -> & Hi & Hi' & Hseen & Hal)
       |[(idx & url & -> & Hsched)|(_ & _ & Hi' & Hseen & Hal)]].
  - split; [|assumption]. unfold in_scope in *. rewrite Hal, Hi', Hseen.
    intros Hne x [Hx|Hx]; apply (Hin Hne); [now left|right].
    rewrite Hi. now apply list_elem_of_further.
  - rewrite Hsched. split; [now apply in_scope_enqueue_call|].
    apply allowed_domains_enqueue_call.
  - split; [|assumption]. unfold in_scope in *. now rewrite Hal, Hi', Hseen.
Qed.

Lemma dispatches_in_scope (acts : list Action) (r : Run) (u : string) :
  in_scope (sched r) -> u ∈ dispatches r acts ->
  allowed_domains (sched r) <> [] ->
  same_domain u (allowed_domains (sched r)) = Ok true.
Proof.
  revert r. induction acts as [|a acts IH]; intros r Hin Hu Hne; simpl in Hu.
  - now apply elem_of_nil in Hu.
  - destruct (step r a) as [r'|] eqn:Hs; [|now apply elem_of_nil in Hu].
    destruct (in_scope_step _ _ _ Hs Hin) as [Hin' Hal].
    assert (u ∈ dispatches r' acts -> same_domain u (allowed_domains (sched r)) = Ok true)
      as Hrest.
    { intros Hu'. rewrite <- Hal. apply IH; try assumption. now rewrite Hal. }
    destruct a as [idx|idx url|idx raised|idx b]; try (now apply Hrest).
    destruct (items (queue (sched r))) as [|url rest] eqn:Hi; [now apply Hrest|].
    apply elem_of_cons in Hu as [->|Hu]; [|now apply Hrest].
    apply (Hin Hne). right. rewrite Hi. apply list_elem_of_here.
Qed.

(** X3. No duplicate visits and no leak out of the scope: under every
    schedule of the pool and whatever the handlers enqueue, the URLs the
    workers are handed are pairwise different, and with a non-empty
    allow-list each of them passes [same_domain]. *)
Theorem no_url_dispatched_twice (seeds allowed : list string) (s : Scheduler)
    (concurrency : Z) (acts : list Action) :
  Scheduler_init seeds allowed = Ok s ->
  NoDup (dispatches (run_start s concurrency) acts)
  /\ (allowed <> [] ->
      forall u, u ∈ dispatches (run_start s concurrency) acts ->
        same_domain u allowed = Ok true).
Proof.
  intros Hinit.
  destruct (enqueue_all_frontier _ _ _ Hinit) as (Hnd & Hset & Hal & _); simpl.
  { apply NoDup_nil_2. }
  { intros x. split; [set_solver|]. intros Hx. now apply elem_of_nil in Hx. }
  simpl in Hal. split.
  - apply (dispatches_nodup acts (run_start s concurrency) []).
    split; simpl; [assumption|]. intros x Hx. now apply Hset.
  - intros Hne u Hu. rewrite <- Hal.
    apply (dispatches_in_scope acts (run_start s concurrency) u); simpl.
    + eapply in_scope_enqueue_all; [|exact Hinit].
      intros _ x [Hx|Hx]; simpl in Hx; [set_solver|now apply elem_of_nil in Hx].
    + assumption.
    + now rewrite Hal.
Qed.

(** X4. When the run can end, and when it cannot.  From every state the
    pool reaches in which the loop runs and some worker task has not ended,
    there is a schedule in which no handler enqueues or raises anything
    and after which [join] returns; it has at most two moves per unfinished
    item.  When every worker task has ended, no move is left, and with an
    item still queued [join] does not return. *)
Theorem run_can_drain (seeds allowed : list string) (s : Scheduler)
    (concurrency : Z) (acts : list Action) (r : Run) :
  Scheduler_init seeds allowed = Ok s ->
  exec (run_start s concurrency) acts = Some r ->
  (loop_stopped r = false ->
   (exists idx w, workers r !! idx = Some w /\ is_died w = false) ->
   exists more r',
     exec r more = Some r'
     /\ join_returns r' = true
     /\ forallb is_quiet more = true
     /\ log r' = log r
     /\ (length more <= 2 * unfinished_tasks (queue (sched r)))%nat)
  /\ (Forall (fun w => is_died w = true) (workers r) ->
      (forall a, step r a = None)
      /\ (items (queue (sched r)) <> [] -> join_returns r = false)).
Proof.
  intros Hinit Hexec.
  destruct (run_inv_exec _ _ _ (run_inv_start _ _ _ concurrency Hinit) Hexec)
    as [Hinv Hlen].
  split.
  - intros Hrun Halive. now apply (drain _ r Hinv).
  - intros Hdead.
    assert (forall idx w, workers r !! idx = Some w -> is_died w = true) as Hall.
    { intros idx w Hw. apply (proj1 (Forall_forall _ _) Hdead).
      now apply list_elem_of_lookup_2 in Hw. }
    split.
    + intros a. unfold step. destruct (loop_stopped r); [reflexivity|].
      destruct a as [idx|idx url|idx raised|idx b];
        destruct (workers r !! idx) as [[| | |]|] eqn:Hw; try reflexivity;
        now apply Hall in Hw.
    + intros Hne. unfold join_returns. destruct Hinv as [Hq _].
      destruct (items (queue (sched r))); [congruence|].
      rewrite Hq. reflexivity.
Qed.

Lemma seen_enqueue_call (s : Scheduler) (u : string) :
  seen s ⊆ seen (enqueue_call s u).
Proof.
  unfold enqueue_call. destruct (enqueue s u) as [s'| |] eqn:Hs; [|done..].
  destruct (enqueue_cases _ _ _ Hs) as (n & _ & [->|[-> _]]); [done|].
  simpl. set_solver.
Qed.

Lemma enqueue_links_keeps (links : list string) (s : Scheduler) :
  seen s ⊆ seen (enqueue_links s links)
  /\ allowed_domains (enqueue_links s links) = allowed_domains s.
Proof.
  unfold enqueue_links. revert s. induction links as [|l links IH]; intros s; simpl.
  - now split.
  - destruct (IH (enqueue_call s l)) as [Hsub Hal]. split.
    + etrans; [apply seen_enqueue_call|apply Hsub].
    + rewrite Hal. apply allowed_domains_enqueue_call.
Qed.

(** An in-scope URL that normalises is in the seen-set after [enqueue]. *)
Lemma enqueue_call_scoped (s : Scheduler) (u n : string) :
  normalize_url u = Ok n -> scoped s n -> n ∈ seen (enqueue_call s u).
Proof.
  intros Hn Hsc. unfold enqueue_call, enqueue. rewrite Hn. simpl.
  assert ((if nonempty (allowed_domains s)
           then b <- same_domain n (allowed_domains s);; Ok (negb b)
           else Ok false) = Ok false) as ->.
  { destruct Hsc as [->|Hd]; [reflexivity|].
    destruct (allowed_domains s); [reflexivity|]. simpl. now rewrite Hd. }
  simpl. destruct (decide (n ∈ seen s)); [assumption|]. simpl. set_solver.
Qed.

(** X5. The link loop of the worker is robust: every discovered link that
    normalises and is in scope is in the seen-set after the loop, whatever
    the other links are, those on which [enqueue] raises included; and
    nothing seen before is lost. *)
Theorem enqueue_links_robust (s : Scheduler) (discovered : list string)
    (link n : string) :
  link ∈ discovered ->
  normalize_url link = Ok n ->
  scoped s n ->
  n ∈ seen (enqueue_links s discovered)
  /\ seen s ⊆ seen (enqueue_links s discovered).
Proof.
  intros Hin Hn Hsc. split; [|apply enqueue_links_keeps].
  revert s Hsc. induction discovered as [|l links IH]; intros s Hsc.
  - now apply elem_of_nil in Hin.
  - apply elem_of_cons in Hin as [<-|Hin].
    + apply (proj1 (enqueue_links_keeps links (enqueue_call s link))).
      now apply enqueue_call_scoped.
    + apply (IH Hin (enqueue_call s l)). unfold scoped in *.
      now rewrite allowed_domains_enqueue_call.
Qed.
End PoolMore.

(** ** ProxyPool, further *)

(** A loop that gives up has met only tripped proxies, on every position
    from the index on entry round to the one before [start]. *)
Lemma next_loop_none (fuel start : nat) (self self' : ProxyPool) :
  (_idx self < length (proxies self))%nat ->
  (start < length (proxies self))%nat ->
  next_loop fuel start self = Ok (None, self') ->
  forall i p,
    (i <= (start + length (proxies self) - 1 - _idx self) mod length (proxies self))%nat ->
    proxies self !! ((_idx self + i) mod length (proxies self))%nat = Some p ->
    ~ healthy self p.
Proof.
  revert self. induction fuel as [|fuel IH]; intros self Hidx Hstart; simpl;
    [discriminate|].
  destruct (proxies self !! _idx self) as [proxy|] eqn:Hp; [|discriminate].
  set (len := length (proxies self)) in *.
  match goal with |- context [Z.ltb ?a ?b] => destruct (Z.ltb_spec a b) as [Hlt|Hge] end;
    [discriminate|].
  assert (forall p, proxies self !! (_idx self) = Some p -> ~ healthy self p) as Hhere.
  { intros p Hp'. assert (p = proxy) as -> by congruence.
    unfold healthy, fail_count in *. simpl in Hge. lia. }
  match goal with |- context [Nat.eqb ?a ?b] =>
    destruct (Nat.eqb_spec a b) as [Heq|Hne] end.
  - intros _ i p Hi. simpl in Heq.
    rewrite (mod_wrap (_idx self + 1) len) in Heq by lia.
    rewrite (mod_wrap (start + len - 1 - _idx self) len) in Hi by lia.
    assert (i = 0%nat) as ->.
    { destruct (Nat.ltb_spec (_idx self + 1) len);
        destruct (Nat.ltb_spec (start + len - 1 - _idx self) len); lia. }
    rewrite Nat.add_0_r, Nat.mod_small by lia. apply Hhere.
  - intros Hrec i p Hi Hpi. simpl in Hne.
    destruct i as [|i].
    { rewrite Nat.add_0_r, Nat.mod_small in Hpi by lia. now apply Hhere. }
    set (self1 := set_idx self ((_idx self + 1) mod len)%nat) in *.
    assert (_idx self1 < length (proxies self1))%nat as Hidx1.
    { simpl. apply Nat.mod_upper_bound. fold len. lia. }
    specialize (IH self1 Hidx1 Hstart Hrec i p).
    change (proxies self1) with (proxies self) in IH.
    change (_idx self1) with ((_idx self + 1) mod len)%nat in IH.
    fold len in IH.
    assert (healthy self1 p <-> healthy self p) as Hsame by reflexivity.
    rewrite <- Hsame. apply IH.
    + rewrite (mod_wrap (_idx self + 1) len) in * by lia.
      rewrite (mod_wrap (start + len - 1 - _idx self) len) in Hi by lia.
      destruct (Nat.ltb_spec (_idx self + 1) len).
      * rewrite (mod_wrap (start + len - 1 - (_idx self + 1)) len) by lia.
        destruct (Nat.ltb_spec (start + len - 1 - _idx self) len);
          destruct (Nat.ltb_spec (start + len - 1 - (_idx self + 1)) len); lia.
      * rewrite (mod_wrap (start + len - 1 - (_idx self + 1 - len)) len) by lia.
        destruct (Nat.ltb_spec (start + len - 1 - _idx self) len);
          destruct (Nat.ltb_spec (start + len - 1 - (_idx self + 1 - len)) len); lia.
    + rewrite Nat.Div0.add_mod_idemp_l.
      now replace (_idx self + 1 + i)%nat with (_idx self + S i)%nat by lia.
Qed.

(** X6. [next()] finds a healthy proxy whenever the pool has one: it answers
    [None] only when every proxy of the list is at or over the threshold.
    What it returns is a healthy proxy of the list, and the counts are left
    as they were. *)
Theorem next_finds_healthy (self : ProxyPool) (q : string) :
  pool_wf self ->
  q ∈ proxies self ->
  healthy self q ->
  exists p self',
    next self = Ok (Some p, self')
    /\ p ∈ proxies self
    /\ healthy self p
    /\ fail_counts self' = fail_counts self.
Proof.
  intros Hwf Hq Hhealthy.
  destruct (next_returns self Hwf) as [[r self'] Hn].
  pose proof (next_result _ _ _ Hn) as (_ & _ & Hc & _ & Hr).
  destruct r as [p|].
  { exists p, self'. destruct (Hr p eq_refl). now split_and!. }
  exfalso. unfold next in Hn.
  destruct (proxies self) as [|p0 ps] eqn:Hps; [now apply elem_of_nil in Hq|].
  cbn [nonempty] in Hn. rewrite <- Hps in *.
  destruct Hwf as [Hnil|Hidx]; [congruence|].
  set (len := length (proxies self)) in *.
  apply list_elem_of_lookup in Hq as [j Hj].
  assert (j < len)%nat as Hjlen by now apply lookup_lt_Some in Hj.
  apply (next_loop_none _ _ _ _ Hidx Hidx Hn ((j + len - _idx self) mod len)%nat q);
    fold len; try assumption.
  - rewrite (mod_wrap (_idx self + len - 1 - _idx self) len) by lia.
    rewrite (mod_wrap (j + len - _idx self) len) by lia.
    destruct (Nat.ltb_spec (_idx self + len - 1 - _idx self) len);
      destruct (Nat.ltb_spec (j + len - _idx self) len); lia.
  - rewrite Nat.Div0.add_mod_idemp_r.
    replace (_idx self + (j + len - _idx self))%nat with (j + 1 * len)%nat by lia.
    rewrite Nat.Div0.mod_add, Nat.mod_small by lia. assumption.
Qed.

(** On a healthy proxy at the index, [next()] returns it and moves on. *)
Lemma next_healthy_here (self : ProxyPool) (p : string) :
  proxies self !! _idx self = Some p ->
  healthy self p ->
  next self
  = Ok (Some p, set_idx self ((_idx self + 1) mod length (proxies self))%nat).
Proof.
  intros Hp Hh. unfold next.
  destruct (proxies self) as [|p0 ps] eqn:Hps; [discriminate|].
  cbn [nonempty length next_loop]. rewrite Hps, Hp.
  unfold healthy, fail_count in Hh.
  match goal with |- context [Z.ltb ?a ?b] => destruct (Z.ltb_spec a b) as [Hlt|Hge] end.
  - reflexivity.
  - unfold fail_count in Hge. simpl in Hge. lia.
Qed.

Lemma next_n_app (a b : nat) (self s1 s2 : ProxyPool) (l1 l2 : list (option string)) :
  next_n a self = Ok (l1, s1) ->
  next_n b s1 = Ok (l2, s2) ->
  next_n (a + b) self = Ok (l1 ++ l2, s2).
Proof.
  revert self l1. induction a as [|a IH]; intros self l1 Ha Hb; simpl in *.
  - injection Ha as <- <-. assumption.
  - destruct (next self) as [[r self']| |]; try discriminate.
    destruct (next_n a self') as [[rs self'']| |] eqn:Hrec; try discriminate.
    injection Ha as <- <-. now rewrite (IH _ _ Hrec Hb).
Qed.

(** [k] calls on a pool of healthy proxies return the [k] proxies from the
    index on, as long as they do not pass the end of the list. *)
Lemma next_n_run (k : nat) (self : ProxyPool) :
  (forall q, q ∈ proxies self -> healthy self q) ->
  (_idx self < length (proxies self))%nat ->
  (_idx self + k <= length (proxies self))%nat ->
  exists self',
    next_n k self = Ok (Some <$> take k (drop (_idx self) (proxies self)), self')
    /\ _idx self' = ((_idx self + k) mod length (proxies self))%nat
    /\ proxies self' = proxies self
    /\ fail_threshold self' = fail_threshold self
    /\ fail_counts self' = fail_counts self.
Proof.
  revert self. induction k as [|k IH]; intros self Hall Hidx Hk.
  - exists self. simpl. rewrite Nat.add_0_r, Nat.mod_small by assumption.
    now split_and!.
  - destruct (lookup_lt_is_Some_2 _ _ Hidx) as [p Hp].
    pose proof (Hall p (list_elem_of_lookup_2 _ _ _ Hp)) as Hh.
    cbn [next_n]. rewrite (next_healthy_here self p Hp Hh).
    set (self1 := set_idx self _).
    rewrite (drop_S _ p _ Hp).
    destruct k as [|k].
    + exists self1. simpl. split; [reflexivity|]. now split_and!.
    + assert (_idx self1 = S (_idx self)) as Hidx1.
      { unfold self1. simpl. rewrite Nat.mod_small by lia. lia. }
      destruct (IH self1) as (self' & Hn & Hi & Hps & Hth & Hc).
      * exact Hall.
      * rewrite Hidx1. simpl. lia.
      * rewrite Hidx1. simpl. lia.
      * exists self'. rewrite Hn, Hidx1.
        change (proxies self1) with (proxies self) in *.
        split; [reflexivity|]. split; [|now split_and!].
        rewrite Hi, Hidx1. f_equal. lia.
Qed.

(** X7. Round robin: on a pool whose proxies are all healthy, as many calls
    of [next()] as there are proxies return every proxy once, in list order
    from the index on and wrapping round, and bring the index back to where
    it was; the failure counts are not touched. *)
Theorem next_round_robin (self : ProxyPool) :
  pool_wf self ->
  proxies self <> [] ->
  (forall q, q ∈ proxies self -> healthy self q) ->
  exists self',
    next_n (length (proxies self)) self
    = Ok (Some <$> (drop (_idx self) (proxies self) ++ take (_idx self) (proxies self)),
          self')
    /\ _idx self' = _idx self
    /\ proxies self' = proxies self
    /\ fail_counts self' = fail_counts self.
Proof.
  intros [Hnil|Hidx] Hne Hall; [contradiction|].
  set (len := length (proxies self)) in *.
  destruct (next_n_run (len - _idx self) self Hall Hidx) as (s1 & Hn1 & Hi1 & Hp1 & Ht1 & Hc1).
  { fold len. lia. }
  fold len in Hi1. replace (_idx self + (len - _idx self))%nat with (0 + 1 * len)%nat in Hi1 by lia.
  rewrite Nat.Div0.mod_add, Nat.mod_small in Hi1 by lia.
  rewrite take_ge in Hn1 by (rewrite length_drop; fold len; lia).
  destruct (next_n_run (_idx self) s1) as (s2 & Hn2 & Hi2 & Hp2 & Ht2 & Hc2).
  { intros q Hq. rewrite Hp1 in Hq. specialize (Hall q Hq).
    unfold healthy, fail_count in *. now rewrite Ht1, Hc1. }
  { rewrite Hi1, Hp1. fold len. lia. }
  { rewrite Hi1, Hp1. fold len. lia. }
  rewrite Hi1, Hp1 in Hn2, Hi2. fold len in Hi2. simpl in Hn2, Hi2.
  rewrite Nat.mod_small in Hi2 by lia.
  exists s2. split; [|split_and!; congruence].
  replace len with ((len - _idx self) + _idx self)%nat at 1 by lia.
  rewrite fmap_app. now apply (next_n_app _ _ self s1 s2).
Qed.

(** X8. A success heals a proxy fully: whatever the count of a non-empty [p]
    was, after [mark_success(p)] and [k] failures its count is [k], so it
    takes the whole threshold of failures to trip it again; and failures and
    successes of [p] leave the count of every other proxy alone. *)
Theorem mark_success_resets (self : ProxyPool) (p q : string) (k : nat) :
  p <> ""%string ->
  let healed := pool_run (mark_success self (Some p)) (fail_times k p) in
  fail_count healed p = k
  /\ (healthy healed p <-> Z.of_nat k < fail_threshold self)
  /\ (q <> p -> fail_count healed q = fail_count self q).
Proof.
  intros Hp healed.
  assert (fail_count (mark_success self (Some p)) p = 0%nat) as Hzero.
  { simpl. destruct (String.eqb_spec p ""); [contradiction|]. simpl.
    rewrite fail_count_set_count. now destruct (decide (p = p)). }
  assert (fail_count healed p = k) as Hk.
  { unfold healed. rewrite fail_times_count by assumption. rewrite Hzero. lia. }
  split; [assumption|]. split.
  - unfold healthy. rewrite Hk. unfold healed.
    rewrite (proj1 (proj2 (pool_run_keeps (fail_times k p) _ ""))).
    simpl. now destruct (String.eqb p "").
  - intros Hne. unfold healed.
    assert (forall n s, fail_count (pool_run s (fail_times n p)) q = fail_count s q) as Hframe.
    { induction n as [|n IH]; intros s; [reflexivity|].
      unfold pool_run, fail_times in *. simpl. rewrite IH.
      destruct (String.eqb p ""); simpl; [reflexivity|].
      rewrite fail_count_set_count. destruct (decide (p = q)); congruence. }
    rewrite Hframe. simpl. destruct (String.eqb p ""); simpl; [reflexivity|].
    rewrite fail_count_set_count. destruct (decide (p = q)); congruence.
Qed.

(** ** The politeness layer, further *)

Local Open Scope Q_scope.

(** One call of [wait]: the timestamp written is the clock on return, which
    is not before the call and at least [delay_ms / 1000] after the previous
    timestamp of the domain (0.0 when there is none). *)
Lemma wait_post (self : DomainRateLimiter) (w : World) (domain : string) :
  let s1 := fst (fst (wait self w domain)) in
  let w1 := snd (fst (wait self w domain)) in
  last_request_ts s1 = <[domain := now w1]> (last_request_ts self)
  /\ delay_ms s1 = delay_ms self
  /\ now w <= now w1
  /\ default 0 (last_request_ts self !! domain) + inject_Z (delay_ms self) / 1000
     <= now w1.
Proof.
  unfold wait. set (last := default 0 _).
  destruct (Qlt_le_dec 0 (inject_Z (delay_ms self) / 1000 - (now w - last)))
    as [Hpos|Hneg]; unfold sleep; cbn [fst snd last_request_ts delay_ms now].
  - destruct (Qlt_le_dec 0 (inject_Z (delay_ms self) / 1000 - (now w - last))); [|lra].
    split_and!; try reflexivity; lra.
  - split_and!; try reflexivity; lra.
Qed.

(** X9. Minimum spacing per domain: after two calls of [wait] for the same
    domain, the second at a clock not before the end of the first, the
    timestamps written for the domain are the clocks at which the calls
    returned and lie at least [delay_ms / 1000] seconds apart; the clock
    never goes back; and the timestamps of the other domains are untouched. *)
Theorem wait_spacing (self : DomainRateLimiter) (w w2 : World) (domain : string) :
  let s1 := fst (fst (wait self w domain)) in
  let w1 := snd (fst (wait self w domain)) in
  let s2 := fst (fst (wait s1 w2 domain)) in
  let w3 := snd (fst (wait s1 w2 domain)) in
  now w1 <= now w2 ->
  last_request_ts s1 !! domain = Some (now w1)
  /\ last_request_ts s2 !! domain = Some (now w3)
  /\ now w1 + inject_Z (delay_ms self) / 1000 <= now w3
  /\ now w <= now w1 /\ now w2 <= now w3
  /\ forall other, other <> domain ->
       last_request_ts s2 !! other = last_request_ts self !! other.
Proof.
  intros s1 w1 s2 w3 Hlater.
  destruct (wait_post self w domain) as (Hts1 & Hd1 & Hmono1 & _).
  destruct (wait_post s1 w2 domain) as (Hts2 & _ & Hmono2 & Hgap).
  fold s1 w1 in Hts1, Hd1, Hmono1. fold s2 w3 in Hts2, Hmono2, Hgap.
  rewrite Hts1, lookup_insert_eq, Hd1 in Hgap.
  change (default 0 (Some (now w1))) with (now w1) in Hgap.
  split_and!; try assumption.
  - rewrite Hts1. apply lookup_insert_eq.
  - rewrite Hts2. apply lookup_insert_eq.
  - intros other Hne. rewrite Hts2, Hts1.
    rewrite !lookup_insert_ne by congruence. reflexivity.
Qed.

Lemma compute_delay_ms_fl_exact (self : BackoffStrategy) (attempt : Z) (t : Q) :
  compute_delay_ms_fl (fun x => x) self attempt t = compute_delay_ms self attempt t.
Proof. reflexivity. Qed.

(** X10. The delay in float arithmetic lies between the two ends of the
    jitter window, as the same operations compute them.  For every rounding
    that is monotone, when the jitter [base * 0.2] comes out positive,
    [compute_delay_ms] returns a delay between the values it would compute
    from a remainder of 0 and from a remainder equal to the jitter; the
    ends are included.  When the rounding changes nothing these ends are
    [0.9 * base] and [1.1 * base]. *)
Theorem backoff_delay_near_base (rnd : Q -> Q) (self : BackoffStrategy)
    (attempt : Z) (t : Q) :
  (forall x y, x <= y -> rnd x <= rnd y) ->
  let base := rnd (inject_Z (backoff_base self attempt)) in
  let jitter := rnd (base * rnd (2 # 10)) in
  0 < jitter ->
  exists d, compute_delay_ms_fl rnd self attempt t = Ok d
    /\ rnd (rnd (base + rnd 0) - rnd (jitter / 2)) <= d
    /\ d <= rnd (rnd (base + rnd jitter) - rnd (jitter / 2))
    /\ ((forall x, rnd x == x) ->
        (9 # 10) * inject_Z (backoff_base self attempt) <= d
        /\ d <= (11 # 10) * inject_Z (backoff_base self attempt)).
Proof.
  intros Hmono base jitter Hj. unfold compute_delay_ms_fl. fold base. fold jitter.
  destruct (float_mod_pos t jitter Hj) as (m & -> & Hlo & Hhi). simpl.
  eexists. split; [reflexivity|].
  assert (rnd (rnd (base + rnd 0) - rnd (jitter / 2))
          <= rnd (rnd (base + rnd m) - rnd (jitter / 2))) as Hlow.
  { apply Hmono. apply Qplus_le_l. apply Hmono. apply Qplus_le_r. now apply Hmono. }
  assert (rnd (rnd (base + rnd m) - rnd (jitter / 2))
          <= rnd (rnd (base + rnd jitter) - rnd (jitter / 2))) as Hhigh.
  { apply Hmono. apply Qplus_le_l. apply Hmono. apply Qplus_le_r. apply Hmono.
    now apply Qlt_le_weak. }
  split_and!; try assumption.
  intros E.
  pose proof (E (rnd (base + rnd 0) - rnd (jitter / 2))) as E1.
  pose proof (E (base + rnd 0)) as E2.
  pose proof (E 0) as E3.
  pose proof (E (jitter / 2)) as E4.
  pose proof (E (rnd (base + rnd jitter) - rnd (jitter / 2))) as E5.
  pose proof (E (base + rnd jitter)) as E6.
  pose proof (E jitter) as E7.
  pose proof (E (inject_Z (backoff_base self attempt))) as E8. fold base in E8.
  assert (jitter == base * (2 # 10)) as E9.
  { unfold jitter. rewrite (E (base * rnd (2 # 10))). now rewrite (E (2 # 10)). }
  clearbody jitter base.
  assert (jitter / 2 == base * (1 # 10)) as E10 by (rewrite E9; field).
  split; lra.
Qed.

Lemma round_to_mono (n : positive) (x y : Q) : x <= y -> round_to n x <= round_to n y.
Proof.
  intros Hxy. unfold round_to, Qdiv. apply Qmult_le_compat_r.
  - rewrite <- Zle_Qle. apply Qfloor_resp_le. apply Qplus_le_l.
    apply Qmult_le_compat_r; [assumption|]. change 0 with (inject_Z 0).
    rewrite <- Zle_Qle. lia.
  - apply Qlt_le_weak, Qinv_lt_0_compat. change 0 with (inject_Z 0).
    rewrite <- Zlt_Qlt. lia.
Qed.

(** Rounding makes the delay reach the upper end of the window: with a clock
    that reads just below a multiple of the jitter, the remainder rounds up
    to the jitter itself. *)
Example compute_delay_ms_fl_upper_end :
  let self := {| initial_ms := 500; max_ms := 8000 |} in
  let rnd := round_to 1024 in
  let jitter := rnd (rnd 500 * rnd (2 # 10)) in
  exists d, compute_delay_ms_fl rnd self 1 (jitter - (1 # 4096)) = Ok d
    /\ d == rnd (rnd (rnd 500 + jitter) - rnd (jitter / 2)).
Proof. vm_compute. eexists. split; reflexivity. Qed.

(** X11. While the unjittered base has not gone over [max_ms], a later
    attempt waits strictly longer than an earlier one, whatever the clock
    reads at the two calls. *)
Theorem backoff_delay_grows (self : BackoffStrategy) (a a' : Z) (t t' : Q) :
  (0 < initial_ms self)%Z -> (0 < max_ms self)%Z ->
  (1 <= a < a')%Z ->
  (initial_ms self * 2 ^ (a' - 1) <= max_ms self)%Z ->
  exists d d',
    compute_delay_ms self a t = Ok d
    /\ compute_delay_ms self a' t' = Ok d'
    /\ d < d'.
Proof.
  intros Hi Hm Ha Hunsat.
  pose proof (backoff_base_pos self a Hi Hm) as Hb.
  pose proof (backoff_base_pos self a' Hi Hm) as Hb'.
  destruct (compute_delay_ms_pos self a t Hb) as (d & Hd & _ & Hhi).
  destruct (compute_delay_ms_pos self a' t' Hb') as (d' & Hd' & Hlo & _).
  exists d, d'. split; [assumption|]. split; [assumption|].
  assert (2 * backoff_base self a <= backoff_base self a')%Z as Hdouble.
  { unfold backoff_base in *. rewrite !Z.max_r in * by lia.
    rewrite (Z.min_l _ _ Hunsat).
    replace (a' - 1)%Z with ((a - 1) + (a' - a))%Z by lia.
    rewrite Z.pow_add_r by lia.
    assert (2 <= 2 ^ (a' - a))%Z.
    { change 2%Z with (2 ^ 1)%Z at 1. apply Z.pow_le_mono_r; lia. }
    assert (0 < 2 ^ (a - 1))%Z by (apply Z.pow_pos_nonneg; lia).
    nia. }
  rewrite Zle_Qle, inject_Z_mult in Hdouble.
  change (inject_Z 2) with 2 in Hdouble.
  rewrite Zlt_Qlt in Hb. change (inject_Z 0) with 0 in Hb.
  lra.
Qed.

Local Close Scope Q_scope.

(** X12. The unjittered base, for [initial_ms >= 0]: it never decreases with
    the attempt and never exceeds [max_ms]; every attempt up to 1 (0 and
    negative numbers too) has the base of the first attempt; and once
    [initial_ms * 2^(attempt-1)] reaches [max_ms] the base is [max_ms] for
    good. *)
Theorem backoff_base_saturates (self : BackoffStrategy) (a a' : Z) :
  0 <= initial_ms self ->
  a <= a' ->
  backoff_base self a <= backoff_base self a'
  /\ backoff_base self a <= max_ms self
  /\ (a <= 1 -> backoff_base self a = Z.min (initial_ms self) (max_ms self))
  /\ (1 <= a -> max_ms self <= initial_ms self * 2 ^ (a - 1) ->
      backoff_base self a' = max_ms self).
Proof.
  intros Hi Ha. unfold backoff_base.
  assert (2 ^ Z.max 0 (a - 1) <= 2 ^ Z.max 0 (a' - 1)) as Hpow
    by (apply Z.pow_le_mono_r; lia).
  assert (0 < 2 ^ Z.max 0 (a - 1)) by (apply Z.pow_pos_nonneg; lia).
  split_and!.
  - apply Z.min_le_compat_r. nia.
  - apply Z.le_min_r.
  - intros Hle. rewrite Z.max_l by lia. now rewrite Z.pow_0_r, Z.mul_1_r.
  - intros H1 Hsat. rewrite Z.max_r in Hpow by lia. apply Z.min_r. nia.
Qed.

(** ** Fetcher, further *)

(** With a positive backoff base and a pool whose index is inside its list
    the loop returns a status and a body: it never raises.  It makes at most
    [max_retries + 1 - attempt] requests and sleeps at most once per
    request; it reads no robots.txt and leaves the robots cache alone. *)
Lemma fetch_loop_total (fuel : nat) (st : St) (url : string) (attempt : Z)
    (proxy_used : option string) :
  Z.max 0 (max_retries (fetcher st) + 1 - attempt) < Z.of_nat fuel ->
  pool_wf (proxy_pool (fetcher st)) ->
  0 < initial_ms (backoff (fetcher st)) ->
  0 < max_ms (backoff (fetcher st)) ->
  exists status text st' evs,
    fetch_loop fuel st url attempt proxy_used = (Ok (status, text), st')
    /\ trace st' = trace st ++ evs
    /\ loop_answer (net (world st)) status text
    /\ (count is_request evs <= Z.to_nat (max_retries (fetcher st) + 1 - attempt))%nat
    /\ (count is_backoff_sleep evs <= count is_request evs)%nat
    /\ count is_robots_read evs = 0%nat
    /\ robots (fetcher st') = robots (fetcher st).
Proof.
  revert st attempt proxy_used.
  induction fuel as [|fuel IH]; intros st attempt proxy_used Hfuel Hwf Hi Hm; [lia|].
  simpl. destruct (Z.leb_spec attempt (max_retries (fetcher st))) as [Hle|Hgt].
  2:{ exists 599, "Max retries exceeded"%string, st, []. rewrite app_nil_r.
      split_and!; rewrite ?count_nil; try reflexivity; try lia.
      right; left; now split. }
  assert (exists pu pool,
    (if truthy proxy_used then Ok (proxy_used, proxy_pool (fetcher st))
     else next (proxy_pool (fetcher st))) = Ok (pu, pool) /\ pool_wf pool)
    as (pu & pool & -> & Hwf').
  { destruct (truthy proxy_used); [now eexists _, _|].
    destruct (next_returns _ Hwf) as [[r pool] Hn]. exists r, pool.
    split; [assumption|]. now apply (next_result _ _ _ Hn). }
  set (req := EvRequest url (if truthy pu then pu else None)).
  set (st1 := {| fetcher := with_proxy_pool (fetcher st) pool; world := _; trace := _ |}).
  assert (forall status text,
    loop_answer (net (world st)) status text ->
    exists st' evs, (Ok (status, text), st1) = (Ok (status, text), st')
      /\ trace st' = trace st ++ evs
      /\ loop_answer (net (world st)) status text
      /\ (count is_request evs <= Z.to_nat (max_retries (fetcher st) + 1 - attempt))%nat
      /\ (count is_backoff_sleep evs <= count is_request evs)%nat
      /\ count is_robots_read evs = 0%nat
      /\ robots (fetcher st') = robots (fetcher st)) as Hstop.
  { intros status text Hans. exists st1, [req].
    split_and!; try reflexivity; try assumption.
    - rewrite count_one. simpl. lia.
    - rewrite !count_one. simpl. lia. }
  assert (forall d, exists status text st' evs,
    fetch_loop fuel (back_off st1 d pu) url (attempt + 1) None = (Ok (status, text), st')
    /\ trace st' = trace st ++ evs
    /\ loop_answer (net (world st)) status text
    /\ (count is_request evs <= Z.to_nat (max_retries (fetcher st) + 1 - attempt))%nat
    /\ (count is_backoff_sleep evs <= count is_request evs)%nat
    /\ count is_robots_read evs = 0%nat
    /\ robots (fetcher st') = robots (fetcher st)) as Hretry.
  { intros d.
    destruct (IH (back_off st1 d pu) (attempt + 1) None)
      as (status & text & st' & evs & Hl & Ht & Hans & Hq & Hb & Hr & Hrob);
      simpl; try assumption; try lia.
    { apply (pool_apply_keeps pool (OpFailure pu) ""); assumption. }
    exists status, text, st', ([req] ++ [EvBackoffSleep d] ++ evs).
    split; [exact Hl|]. split; [rewrite Ht; simpl; now rewrite <- !app_assoc|].
    split; [exact Hans|]. simpl in Hq, Hrob.
    rewrite !count_app, !count_one. simpl. split_and!; try lia; assumption. }
  destruct (net (world st) (sent (world st))) as [status text| |] eqn:Hout; simpl.
  - destruct (retryable status) eqn:Hretr.
    + destruct (compute_delay_ms _ _ _) as [d| |].
      * destruct (Hretry d) as (s' & t' & st' & evs & ?). now exists s', t', st', evs.
      * destruct (Hstop 520 "Unexpected error"%string) as (st' & evs & ?);
          [left; now split|]. now exists 520, "Unexpected error"%string, st', evs.
      * destruct (Hstop 520 "Unexpected error"%string) as (st' & evs & ?);
          [left; now split|]. now exists 520, "Unexpected error"%string, st', evs.
    + eexists status, text, _, [req].
      split; [reflexivity|]. split; [reflexivity|].
      split; [right; right; split; [assumption|exists (sent (world st)); exact Hout]|].
      rewrite !count_one. simpl. split_and!; try reflexivity; lia.
  - destruct (compute_delay_ms_pos (backoff (fetcher st)) (attempt + 1)
                (loop_time (world st1))) as (d & Hd & _).
    { now apply backoff_base_pos. }
    simpl in Hd |- *. rewrite Hd.
    destruct (Hretry d) as (s' & t' & st' & evs & ?). now exists s', t', st', evs.
  - destruct (Hstop 520 "Unexpected error"%string) as (st' & evs & ?);
      [left; now split|]. now exists 520, "Unexpected error"%string, st', evs.
Qed.

(** The retry loop reads no robots.txt and leaves the robots cache alone. *)
Lemma fetch_loop_no_robots (fuel : nat) (st : St) (url : string) (attempt : Z)
    (proxy_used : option string) :
  exists evs, trace (snd (fetch_loop fuel st url attempt proxy_used)) = trace st ++ evs
    /\ count is_robots_read evs = 0%nat
    /\ robots (fetcher (snd (fetch_loop fuel st url attempt proxy_used)))
       = robots (fetcher st).
Proof.
  revert st attempt proxy_used.
  induction fuel as [|fuel IH]; intros st attempt proxy_used; simpl.
  { exists []. now rewrite app_nil_r. }
  assert (exists evs, trace st = trace st ++ evs /\ count is_robots_read evs = 0%nat
            /\ robots (fetcher st) = robots (fetcher st)) as Hstay.
  { exists []. now rewrite app_nil_r. }
  destruct (attempt <=? max_retries (fetcher st)); [|exact Hstay].
  destruct (if truthy proxy_used then _ else _) as [[pu pool]| |]; try exact Hstay.
  set (st1 := {| fetcher := with_proxy_pool (fetcher st) pool; world := _; trace := _ |}).
  assert (exists evs, trace st1 = trace st ++ evs /\ count is_robots_read evs = 0%nat
            /\ robots (fetcher st1) = robots (fetcher st)) as Hone.
  { eexists. split; [reflexivity|]. split; reflexivity. }
  assert (forall d a p,
    exists evs, trace (snd (fetch_loop fuel (back_off st1 d pu) url a p)) = trace st ++ evs
      /\ count is_robots_read evs = 0%nat
      /\ robots (fetcher (snd (fetch_loop fuel (back_off st1 d pu) url a p)))
         = robots (fetcher st)) as Hretry.
  { intros d a p. destruct (IH (back_off st1 d pu) a p) as (evs & -> & Hc & ->).
    exists ([EvRequest url (if truthy pu then pu else None)] ++ [EvBackoffSleep d] ++ evs).
    split; [simpl; now rewrite <- !app_assoc|]. split; [|reflexivity].
    now rewrite !count_app, Hc. }
  destruct (net (world st) (sent (world st))) as [status text| |].
  - destruct (retryable status).
    + destruct (compute_delay_ms _ _ _); [apply Hretry|exact Hone..].
    + exact Hone.
  - destruct (compute_delay_ms _ _ _); [apply Hretry|exact Hone..].
  - exact Hone.
Qed.

(** [k] retryable outcomes followed by a response that is not retryable: the
    loop returns that response after [k + 1] requests and [k] sleeps. *)
Lemma fetch_loop_succeeds (k fuel : nat) (st : St) (url : string) (attempt : Z)
    (status : Z) (text : string) :
  (k < fuel)%nat ->
  attempt + Z.of_nat k <= max_retries (fetcher st) ->
  pool_wf (proxy_pool (fetcher st)) ->
  0 < initial_ms (backoff (fetcher st)) ->
  0 < max_ms (backoff (fetcher st)) ->
  (forall i, (i < k)%nat ->
     retryable_outcome (net (world st) (sent (world st) + i)%nat) = true) ->
  net (world st) (sent (world st) + k)%nat = Response status text ->
  retryable status = false ->
  exists st' evs,
    fetch_loop fuel st url attempt None = (Ok (status, text), st')
    /\ trace st' = trace st ++ evs
    /\ count is_request evs = S k
    /\ count is_backoff_sleep evs = k
    /\ count is_rate_limit evs = 0%nat
    /\ sent (world st') = (sent (world st) + S k)%nat.
Proof.
  revert fuel st attempt.
  induction k as [|k IH]; intros fuel st attempt Hfuel Hatt Hwf Hi Hm Hfail Hlast Hok;
    (destruct fuel as [|fuel]; [lia|]); simpl;
    (destruct (Z.leb_spec attempt (max_retries (fetcher st))); [|lia]);
    destruct (next_returns _ Hwf) as [[r pool] Hnext]; rewrite Hnext;
    pose proof (next_result _ _ _ Hnext) as (_ & _ & _ & Hwf' & _);
    specialize (Hwf' Hwf).
  - rewrite Nat.add_0_r in Hlast. rewrite Hlast, Hok.
    eexists _, [EvRequest url (if truthy r then r else None)].
    split; [reflexivity|]. split; [reflexivity|]. rewrite !count_one. simpl.
    split_and!; try reflexivity. lia.
  - pose proof (Hfail 0%nat ltac:(lia)) as Hout. rewrite Nat.add_0_r in Hout.
    set (st1 := {| fetcher := with_proxy_pool (fetcher st) pool; world := _; trace := _ |}).
    destruct (compute_delay_ms_pos (backoff (fetcher st)) (attempt + 1)
                (loop_time (world st1))) as (d & Hd & _).
    { now apply backoff_base_pos. }
    assert (exists st' evs,
      fetch_loop fuel (back_off st1 d r) url (attempt + 1) None = (Ok (status, text), st')
      /\ trace st' = trace st ++ evs
      /\ count is_request evs = S (S k) /\ count is_backoff_sleep evs = S k
      /\ count is_rate_limit evs = 0%nat
      /\ sent (world st') = (sent (world st) + S (S k))%nat) as Hrec.
    { destruct (IH fuel (back_off st1 d r) (attempt + 1))
        as (st' & evs & Hl & Ht & Hq & Hb & Hr & Hs); simpl; try assumption; try lia.
      - apply (pool_apply_keeps pool (OpFailure r) ""); assumption.
      - intros i Hik. specialize (Hfail (S i) ltac:(lia)).
        now rewrite Nat.add_succ_r in Hfail.
      - now rewrite Nat.add_succ_r in Hlast.
      - exists st', ([EvRequest url (if truthy r then r else None)]
                      ++ [EvBackoffSleep d] ++ evs).
        split; [exact Hl|]. split; [rewrite Ht; simpl; now rewrite <- !app_assoc|].
        rewrite !count_app, Hq, Hb, Hr, !count_one. simpl in Hs |- *.
        split_and!; try reflexivity. lia. }
    destruct (net (world st) (sent (world st))) as [s0 t0| |];
      simpl in Hout; try discriminate.
    + rewrite Hout. simpl in Hd |- *. rewrite Hd. exact Hrec.
    + simpl in Hd |- *. rewrite Hd. exact Hrec.
Qed.

Section FetchMore.
Context `{UrlLib}.
Local Arguments fetch_loop : simpl never.

(** The rate limiter's wait keeps the answers of the network and the number
    of requests sent, and adds no request, backoff sleep or robots read to
    the trace. *)
Lemma wait_quiet (self : DomainRateLimiter) (w : World) (domain : string) :
  net (snd (fst (wait self w domain))) = net w
  /\ sent (snd (fst (wait self w domain))) = sent w
  /\ count is_request (snd (wait self w domain)) = 0%nat
  /\ count is_backoff_sleep (snd (wait self w domain)) = 0%nat
  /\ count is_robots_read (snd (wait self w domain)) = 0%nat.
Proof. unfold wait. destruct (Qlt_le_dec 0 _); split_and!; reflexivity. Qed.

(** X13. [fetch] never raises for what the network does: when the URL has
    a domain, the backoff parameters are positive and the pool's index is
    inside its list, it returns a status and a body.  The status is 451,
    520, 599 or the non-retryable status of a response the network gave;
    at most [max_retries + 1] requests are made, and never more backoff
    sleeps than requests. *)
Theorem fetch_never_raises (st : St) (url d : string) :
  get_domain url = Ok d ->
  pool_wf (proxy_pool (fetcher st)) ->
  0 < initial_ms (backoff (fetcher st)) ->
  0 < max_ms (backoff (fetcher st)) ->
  exists status text st' evs,
    fetch st url = (Ok (status, text), st')
    /\ trace st' = trace st ++ evs
    /\ ((status = 451 /\ text = "Blocked by robots.txt"%string
         /\ count is_request evs = 0%nat)
        \/ loop_answer (net (world st)) status text)
    /\ (count is_request evs <= Z.to_nat (max_retries (fetcher st) + 1))%nat
    /\ (count is_backoff_sleep evs <= count is_request evs)%nat.
Proof.
  intros Hd Hwf Hi Hm. unfold fetch. rewrite Hd.
  destruct (robots_gate_quiet st url) as (cache & gevs & Hg & _ & Hgq & Hgb).
  destruct (robots_gate st url) as [blocked st1]. simpl in Hg. subst st1.
  destruct blocked; cbv beta iota.
  { eexists 451, _, _, gevs. split; [reflexivity|]. split; [reflexivity|].
    split; [left; now split_and!|]. lia. }
  cbn [fetcher world trace].
  pose proof (wait_quiet (rate_limiter (with_robots (fetcher st) cache)) (world st) d)
    as (Hwnet & _ & Hwq & Hwb & _).
  destruct (wait _ _ _) as [[rl w1] wevs]. simpl in Hwnet, Hwq, Hwb.
  match goal with |- context [fetch_loop ?f ?s url 0 None] =>
    destruct (fetch_loop_total f s url 0 None)
      as (status & text & st' & levs & -> & Ht & Hans & Hq & Hb & _) end;
    simpl; try assumption; try lia.
  exists status, text, st', (gevs ++ wevs ++ levs).
  split; [reflexivity|]. split; [rewrite Ht; simpl; now rewrite <- !app_assoc|].
  split; [right; now rewrite <- Hwnet|].
  simpl in Hq. rewrite Z.sub_0_r in Hq.
  rewrite !count_app, Hgq, Hgb, Hwq, Hwb. lia.
Qed.

(** X14. Retry then success: when the robots check lets the URL through,
    the next [k <= max_retries] answers of the network are retryable
    statuses or network errors and the one after is a response with
    another status, [fetch] returns that response: after exactly [k + 1]
    requests and [k] backoff sleeps, one after each failed attempt. *)
Theorem fetch_succeeds_after_retries (st : St) (url d : string) (k : nat)
    (status : Z) (text : string) :
  get_domain url = Ok d ->
  fst (robots_gate st url) = false ->
  Z.of_nat k <= max_retries (fetcher st) ->
  pool_wf (proxy_pool (fetcher st)) ->
  0 < initial_ms (backoff (fetcher st)) ->
  0 < max_ms (backoff (fetcher st)) ->
  (forall i, (i < k)%nat ->
     retryable_outcome (net (world st) (sent (world st) + i)%nat) = true) ->
  net (world st) (sent (world st) + k)%nat = Response status text ->
  retryable status = false ->
  exists st' evs,
    fetch st url = (Ok (status, text), st')
    /\ trace st' = trace st ++ evs
    /\ count is_request evs = S k
    /\ count is_backoff_sleep evs = k
    /\ count is_rate_limit evs = 1%nat.
Proof.
  intros Hd Hgate Hk Hwf Hi Hm Hfail Hlast Hok. unfold fetch. rewrite Hd.
  destruct (robots_gate_quiet st url) as (cache & gevs & Hg & Hgr & Hgq & Hgb).
  destruct (robots_gate st url) as [blocked st1]. simpl in Hg, Hgate.
  subst blocked st1. cbv beta iota. cbn [fetcher world trace].
  pose proof (wait_quiet (rate_limiter (with_robots (fetcher st) cache)) (world st) d)
    as (Hwnet & Hwsent & Hwq & Hwb & _).
  assert (count is_rate_limit
            (snd (wait (rate_limiter (with_robots (fetcher st) cache)) (world st) d))
          = 1%nat) as Hwr.
  { unfold wait. now destruct (Qlt_le_dec 0 _). }
  destruct (wait _ _ _) as [[rl w1] wevs]. simpl in Hwnet, Hwsent, Hwq, Hwb, Hwr.
  match goal with |- context [fetch_loop ?f ?s url 0 None] =>
    destruct (fetch_loop_succeeds k f s url 0 status text)
      as (st' & levs & -> & Ht & Hq & Hb & Hlr & _) end;
    simpl; rewrite ?Hwnet, ?Hwsent; try assumption; try lia.
  exists st', (gevs ++ wevs ++ levs).
  split; [reflexivity|]. split; [rewrite Ht; simpl; now rewrite <- !app_assoc|].
  rewrite !count_app, Hgq, Hgb, Hgr, Hwq, Hwb, Hwr, Hq, Hb, Hlr.
  split_and!; reflexivity.
Qed.

(** X15. With robots compliance off, [fetch] consults no robots.txt: no
    robots read is in its trace and the robots cache is the one of the
    start, whatever else happens. *)
Theorem fetch_without_robots (st : St) (url : string) :
  respect_robots (fetcher st) = false ->
  robots (fetcher (snd (fetch st url))) = robots (fetcher st)
  /\ exists evs, trace (snd (fetch st url)) = trace st ++ evs
       /\ count is_robots_read evs = 0%nat.
Proof.
  intros Hoff. unfold fetch.
  destruct (get_domain url) as [d| |]; simpl;
    [|split; [reflexivity|exists []; now rewrite app_nil_r]..].
  unfold robots_gate. rewrite Hoff. cbv beta iota.
  pose proof (wait_quiet (rate_limiter (fetcher st)) (world st) d) as (_ & _ & _ & _ & Hwr).
  destruct (wait _ _ _) as [[rl w1] wevs]. simpl in Hwr.
  match goal with |- context [fetch_loop ?f ?s url 0 None] =>
    destruct (fetch_loop_no_robots f s url 0 None) as (levs & -> & Hlr & ->) end.
  simpl. split; [reflexivity|]. exists (wevs ++ levs).
  split; [now rewrite <- app_assoc|]. now rewrite count_app, Hwr, Hlr.
Qed.
End FetchMore.

(** ** RobotsCache, further *)

Section RobotsMore.
Context `{UrlLib}.




(** ** utils, further *)

Lemma string_app_empty (s : string) : (s ++ "")%string = s.
Proof.
  induction s as [|c s IH]; [reflexivity|].
  change (String c s ++ "")%string with (String c (s ++ "")). now rewrite IH.
Qed.

Lemma lower_idempotent (s : string) : lower (lower s) = lower s.
Proof.
  induction s as [|c s IH]; [reflexivity|]. cbn [lower]. rewrite IH. f_equal.
  unfold ascii_lower.
  destruct ((65 <=? nat_of_ascii c) && (nat_of_ascii c <=? 90))%nat eqn:Hup.
  - apply andb_true_iff in Hup as [H1 H2].
    apply Nat.leb_le in H1, H2.
    rewrite nat_ascii_embedding by lia.
    destruct (Nat.leb_spec (nat_of_ascii c + 32) 90); [lia|].
    now rewrite andb_false_r.
  - now rewrite Hup.
Qed.

(** X17. [same_domain] is the case-insensitive suffix test on the network
    location, without any boundary: it answers true exactly when the
    lower-cased location ends with the lower-cased form of some listed
    domain.  So an empty string in the list admits every URL, the empty
    list admits none, and the answer does not change when the listed
    domains are lower-cased beforehand. *)
Theorem same_domain_spec (url d : string) (domains : list string) :
  get_domain url = Ok d ->
  (same_domain url domains = Ok true <->
     exists a pre, a ∈ domains /\ lower d = (pre ++ lower a)%string)
  /\ (""%string ∈ domains -> same_domain url domains = Ok true)
  /\ same_domain url [] = Ok false
  /\ same_domain url (lower <$> domains) = same_domain url domains.
Proof.
  intros Hd. unfold same_domain. rewrite Hd. simpl.
  assert (forall l, existsb (fun a => endswith (lower d) (lower a)) l = true
            <-> exists a pre, a ∈ l /\ lower d = (pre ++ lower a)%string) as Hspec.
  { intros l. rewrite existsb_exists. split.
    - intros (a & Ha & Hend). apply endswith_spec in Hend as [pre Hpre].
      exists a, pre. split; [now apply list_elem_of_In|assumption].
    - intros (a & pre & Ha & Hpre). exists a.
      split; [now apply list_elem_of_In|]. apply endswith_spec. now exists pre. }
  split_and!.
  - rewrite <- Hspec. split; [now intros [= ->]|now intros ->].
  - intros Hin. f_equal. apply Hspec. exists ""%string, (lower d).
    split; [assumption|]. simpl. now rewrite string_app_empty.
  - reflexivity.
  - f_equal. induction domains as [|a l IH]; [reflexivity|].
    rewrite fmap_cons. cbn [existsb]. now rewrite lower_idempotent, IH.
Qed.
End RobotsMore.

(** X18. The request headers are always built: [build_default_headers] does
    not raise, also with an empty or missing user-agent pool.  The
    User-Agent is an entry of the configured pool when there is one and of
    the built-in pool otherwise; the six fixed headers are there in order,
    followed by at most a DNT header of value 1 or 0; no header name occurs
    twice. *)
Theorem build_default_headers_total (ua_pool : list string) (d1 d2 d3 : nat) (coin : Q) :
  exists ua lang extra,
    build_default_headers ua_pool d1 d2 d3 coin
    = Ok ([("User-Agent", ua);
           ("Accept", "text/html,application/xhtml+xml,application/xml;q=0.9,*/*;q=0.8");
           ("Accept-Language", lang);
           ("Cache-Control", "no-cache");
           ("Pragma", "no-cache");
           ("Connection", "keep-alive")]%string ++ extra)
    /\ (ua_pool <> [] -> ua ∈ ua_pool)
    /\ (ua_pool = [] -> ua ∈ DEFAULT_UA_POOL)
    /\ lang ∈ ACCEPT_LANGUAGES
    /\ (extra = [] \/ extra = [("DNT", "1")]%string \/ extra = [("DNT", "0")]%string)
    /\ NoDup (fst <$> ([("User-Agent", ua); ("Accept", ""); ("Accept-Language", lang);
                        ("Cache-Control", ""); ("Pragma", ""); ("Connection", "")]%string
                       ++ extra)).
Proof.
  assert (forall (l : list string) draw, l <> [] ->
            exists x, choice l draw = Ok x /\ x ∈ l) as Hchoice.
  { intros l draw Hne. unfold choice.
    destruct (l !! (draw mod length l)%nat) as [x|] eqn:Hx.
    - exists x. split; [reflexivity|]. now apply list_elem_of_lookup_2 in Hx.
    - apply lookup_ge_None in Hx.
      assert (draw mod length l < length l)%nat; [|lia].
      apply Nat.mod_upper_bound. destruct l; [contradiction|simpl; lia]. }
  unfold build_default_headers, pick_user_agent.
  assert (exists ua, choice (if nonempty ua_pool then ua_pool else DEFAULT_UA_POOL) d1 = Ok ua
            /\ (ua_pool <> [] -> ua ∈ ua_pool)
            /\ (ua_pool = [] -> ua ∈ DEFAULT_UA_POOL)) as (ua & -> & Hua1 & Hua2).
  { destruct ua_pool as [|u us]; simpl.
    - destruct (Hchoice DEFAULT_UA_POOL d1) as (ua & Hc & Hin);
        [unfold DEFAULT_UA_POOL; discriminate|].
      exists ua. split_and!; [assumption|intros Hne; now destruct Hne|intros _; assumption].
    - destruct (Hchoice (u :: us) d1) as (ua & Hc & Hin); [discriminate|].
      exists ua. split_and!; [assumption|intros _; assumption|intros; discriminate]. }
  destruct (Hchoice ACCEPT_LANGUAGES d2) as (lang & -> & Hlang);
    [unfold ACCEPT_LANGUAGES; discriminate|].
  simpl. destruct (Qlt_le_dec coin (1 # 2)).
  - destruct (Hchoice ["1"; "0"]%string d3) as (dnt & -> & Hdnt); [discriminate|].
    simpl. exists ua, lang, [("DNT"%string, dnt)].
    split_and!; try done.
    + apply elem_of_cons in Hdnt as [->|Hdnt]; [now right; left|].
      apply list_elem_of_singleton in Hdnt as ->. now right; right.
    + simpl. apply NoDup_ListNoDup. repeat constructor; simpl; intuition discriminate.
  - simpl. exists ua, lang, []. split_and!; try done; [now left|].
    simpl. apply NoDup_ListNoDup. repeat constructor; simpl; intuition discriminate.
Qed.

(** ** Storage: file names *)

Lemma replace_char_length (a b : ascii) (s : string) :
  String.length (replace_char a b s) = String.length s.
Proof. induction s as [|c s IH]; [reflexivity|]. simpl. now rewrite IH. Qed.

Lemma contains_replace_char (c a b : ascii) (s : string) :
  c <> b ->
  contains c (replace_char a b s) = if Ascii.eqb c a then false else contains c s.
Proof.
  intros Hcb. induction s as [|x s IH]; simpl; [now destruct (Ascii.eqb c a)|].
  rewrite IH. destruct (Ascii.eqb_spec x a) as [->|Hxa].
  - destruct (Ascii.eqb_spec c b); [contradiction|].
    destruct (Ascii.eqb_spec c a); reflexivity.
  - destruct (Ascii.eqb_spec c x) as [->|Hcx]; simpl.
    + destruct (Ascii.eqb_spec x a); [contradiction|reflexivity].
    + reflexivity.
Qed.

Lemma contains_app (c : ascii) (s t : string) :
  contains c (s ++ t)%string = contains c s || contains c t.
Proof.
  induction s as [|x s IH]; [reflexivity|].
  change (String x s ++ t)%string with (String x (s ++ t)).
  simpl. rewrite IH. now rewrite orb_assoc.
Qed.

Lemma string_app_length (s t : string) :
  String.length (s ++ t)%string = (String.length s + String.length t)%nat.
Proof.
  induction s as [|x s IH]; [reflexivity|].
  change (String x s ++ t)%string with (String x (s ++ t)). simpl. now rewrite IH.
Qed.

Lemma str_take_length (n : nat) (s : string) :
  (String.length (str_take n s) <= n)%nat.
Proof.
  revert s. induction n as [|n IH]; intros [|c s]; simpl; try lia.
  specialize (IH s). lia.
Qed.

Lemma contains_str_take (c : ascii) (n : nat) (s : string) :
  contains c s = false -> contains c (str_take n s) = false.
Proof.
  revert s. induction n as [|n IH]; intros [|x s]; simpl; try reflexivity.
  intros Hc. apply orb_false_iff in Hc as [-> Hs]. simpl. now apply IH.
Qed.

Lemma replace_char_absent (a b : ascii) (s : string) :
  contains a s = false -> replace_char a b s = s.
Proof.
  induction s as [|x s IH]; [reflexivity|]. simpl.
  intros Hc. apply orb_false_iff in Hc as [Hx Hs].
  rewrite (IH Hs). rewrite Ascii.eqb_sym in Hx. now rewrite Hx.
Qed.

Lemma replace_char_app (a b : ascii) (s t : string) :
  replace_char a b (s ++ t)%string = (replace_char a b s ++ replace_char a b t)%string.
Proof.
  induction s as [|x s IH]; [reflexivity|].
  change (String x s ++ t)%string with (String x (s ++ t)). simpl. now rewrite IH.
Qed.

(** X19. The file name of a saved page is safe and short: when the digest
    is 40 characters free of ["/"], [":"] and ["?"], the name has at most
    180 characters and holds none of ["/"], [":"] and ["?"]; and a URL of
    at most 180 characters without these three is its own name. *)
Theorem safe_name_safe (sha1_hex : string -> string) (url : string) :
  String.length (sha1_hex url) = 40%nat ->
  contains "/" (sha1_hex url) = false ->
  contains ":" (sha1_hex url) = false ->
  contains "?" (sha1_hex url) = false ->
  (String.length (safe_name sha1_hex url) <= 180)%nat
  /\ contains "/" (safe_name sha1_hex url) = false
  /\ contains ":" (safe_name sha1_hex url) = false
  /\ contains "?" (safe_name sha1_hex url) = false
  /\ ((String.length url <= 180)%nat ->
      contains "/" url = false -> contains ":" url = false -> contains "?" url = false ->
      safe_name sha1_hex url = url).
Proof.
  intros Hlen Hslash Hcolon Hquest. unfold safe_name.
  set (safe := replace_char "?" "_" (replace_char ":" "_" (replace_char "/" "_" url))).
  assert (contains "/" safe = false /\ contains ":" safe = false
          /\ contains "?" safe = false) as (Hs1 & Hs2 & Hs3).
  { unfold safe. rewrite !contains_replace_char by discriminate. simpl. now split_and!. }
  assert (String.length safe = String.length url) as Hsame
    by (unfold safe; now rewrite !replace_char_length).
  destruct (Nat.ltb_spec 180 (String.length safe)) as [Hlong|Hshort].
  - pose proof (str_take_length 60 safe) as Htake. split_and!.
    + rewrite !string_app_length, Hlen. change (String.length "__") with 2%nat. lia.
    + rewrite !contains_app, Hslash, contains_str_take by assumption. reflexivity.
    + rewrite !contains_app, Hcolon, contains_str_take by assumption. reflexivity.
    + rewrite !contains_app, Hquest, contains_str_take by assumption. reflexivity.
    + intros Hurl. lia.
  - split_and!; try assumption.
    intros _ H1 H2 H3. unfold safe.
    rewrite (replace_char_absent "/" "_" url H1).
    rewrite (replace_char_absent ":" "_" url H2).
    now rewrite (replace_char_absent "?" "_" url H3).
Qed.

(** X20. The file name does not tell URLs apart that differ only in ["/"],
    [":"], ["?"] and ["_"]: a URL of at most 180 characters that has a ["/"],
    and the different URL with that ["/"] turned into [":"], get the same
    name, and so does the one with ["?"] or ["_"] in its place. *)
Theorem safe_name_collides (sha1_hex : string -> string) (s t : string) :
  (String.length s + 1 + String.length t <= 180)%nat ->
  safe_name sha1_hex (s ++ "/" ++ t) = safe_name sha1_hex (s ++ ":" ++ t)
  /\ safe_name sha1_hex (s ++ "/" ++ t) = safe_name sha1_hex (s ++ "?" ++ t)
  /\ safe_name sha1_hex (s ++ "/" ++ t) = safe_name sha1_hex (s ++ "_" ++ t)
  /\ (s ++ "/" ++ t)%string <> (s ++ ":" ++ t)%string.
Proof.
  intros Hlen.
  assert (forall sep : ascii,
    safe_name sha1_hex (s ++ String sep "" ++ t)
    = (replace_char "?" "_" (replace_char ":" "_" (replace_char "/" "_" s))
       ++ replace_char "?" "_" (replace_char ":" "_" (replace_char "/" "_" (String sep "")))
       ++ replace_char "?" "_" (replace_char ":" "_" (replace_char "/" "_" t)))%string)
    as Hname.
  { intros sep. unfold safe_name. rewrite !replace_char_app.
    match goal with |- context [Nat.ltb 180 ?n] =>
      destruct (Nat.ltb_spec 180 n) as [Hlong|_] end; [|reflexivity].
    rewrite !string_app_length, !replace_char_length in Hlong. simpl in Hlong. lia. }
  split_and!.
  - now rewrite (Hname "/"%char), (Hname ":"%char).
  - now rewrite (Hname "/"%char), (Hname "?"%char).
  - now rewrite (Hname "/"%char), (Hname "_"%char).
  - clear. induction s as [|c s IH].
    + simpl. discriminate.
    + change (String c s ++ ?x)%string with (String c (s ++ x)).
      intros Heq. apply IH. now injection Heq.
Qed.

(** ** tools/dedup_file.py *)

Lemma dedup_loop_props (cs se : bool) (lines : list string) (seen : gset string) :
  let raws := rstrip is_newline <$> lines in
  let out := dedup_loop cs se seen lines in
  out `sublist_of` raws
  /\ NoDup (keys_of cs out)
  /\ (forall k, k ∈ keys_of cs out -> k ∉ seen)
  /\ (forall k, k ∈ keys_of cs raws -> k ∈ seen \/ k ∈ keys_of cs out)
  /\ filter (fun r => blank r = true) out
     = (if se then [] else filter (fun r => blank r = true) raws).
Proof.
  revert seen. induction lines as [|line rest IH]; intros seen; simpl.
  - split_and!; try done; [apply NoDup_nil_2|intros k Hk; now apply elem_of_nil in Hk
      |intros k Hk; now apply elem_of_nil in Hk|now destruct se].
  - set (raw := rstrip is_newline line).
    destruct (blank raw) eqn:Hblank.
    + destruct se.
      * destruct (IH seen) as (Hsub & Hnd & Hfresh & Hall & Hbl).
        unfold keys_of in *. rewrite !filter_cons, Hblank. simpl.
        split_and!; try assumption. now apply sublist_cons.
      * destruct (IH seen) as (Hsub & Hnd & Hfresh & Hall & Hbl).
        unfold keys_of in *. rewrite !filter_cons, Hblank. simpl.
        split_and!; try assumption; [now apply sublist_skip|now rewrite Hbl].
    + destruct (decide (dedup_key cs raw ∈ seen)) as [Hin|Hout].
      * destruct (IH seen) as (Hsub & Hnd & Hfresh & Hall & Hbl).
        unfold keys_of in *. rewrite !filter_cons, Hblank. simpl.
        split_and!; try assumption; [now apply sublist_cons|].
        intros k Hk. apply elem_of_cons in Hk as [->|Hk]; [now left|now apply Hall].
      * destruct (IH ({[dedup_key cs raw]} ∪ seen)) as (Hsub & Hnd & Hfresh & Hall & Hbl).
        unfold keys_of in *. rewrite !filter_cons, Hblank. simpl.
        split_and!.
        -- now apply sublist_skip.
        -- apply NoDup_cons. split; [|assumption].
           intros Hk. apply Hfresh in Hk.
           apply not_elem_of_union in Hk as [Hk _]. now apply not_elem_of_singleton in Hk.
        -- intros k Hk. apply elem_of_cons in Hk as [->|Hk]; [assumption|].
           apply Hfresh in Hk. now apply not_elem_of_union in Hk as [_ Hk].
        -- intros k Hk. apply elem_of_cons in Hk as [->|Hk];
             [right; apply list_elem_of_here|].
           destruct (Hall k Hk) as [Hs|Ho]; [|right; now apply list_elem_of_further].
           apply elem_of_union in Hs as [Hs|Hs]; [|now left].
           apply elem_of_singleton in Hs as ->. right. apply list_elem_of_here.
        -- assumption.
Qed.

Lemma keys_of_elem (cs : bool) (raws : list string) (k : string) :
  k ∈ keys_of cs raws <-> exists r, r ∈ raws /\ blank r = false /\ dedup_key cs r = k.
Proof.
  unfold keys_of. rewrite list_elem_of_fmap. split.
  - intros (r & -> & Hr). apply list_elem_of_filter in Hr as [Hb Hr]. now exists r.
  - intros (r & Hr & Hb & <-). exists r. split; [reflexivity|].
    now apply list_elem_of_filter.
Qed.

(** The first line of a key is the one kept. *)
Lemma dedup_loop_first (cs se : bool) (before after : list string) (line : string)
    (seen : gset string) :
  let raw := rstrip is_newline line in
  blank raw = false ->
  dedup_key cs raw ∉ seen ->
  dedup_key cs raw ∉ keys_of cs (rstrip is_newline <$> before) ->
  exists out1 out2,
    dedup_loop cs se seen (before ++ line :: after) = out1 ++ raw :: out2
    /\ out1 = dedup_loop cs se seen before.
Proof.
  intros raw Hnb. revert seen. induction before as [|l before IH]; intros seen Hseen Hkeys.
  - exists [], (dedup_loop cs se ({[dedup_key cs raw]} ∪ seen) after). simpl.
    fold raw. rewrite Hnb. now destruct (decide (dedup_key cs raw ∈ seen)).
  - simpl in *. set (r := rstrip is_newline l) in *.
    unfold keys_of in Hkeys. rewrite filter_cons in Hkeys.
    destruct (blank r) eqn:Hb; simpl in Hkeys.
    + destruct (IH seen Hseen Hkeys) as (o1 & o2 & Heq & Ho1).
      destruct se.
      * now exists o1, o2.
      * exists (r :: o1), o2. rewrite Heq, Ho1. now split.
    + apply not_elem_of_cons in Hkeys as [Hne Hkeys].
      destruct (decide (dedup_key cs r ∈ seen)).
      * destruct (IH seen Hseen Hkeys) as (o1 & o2 & Heq & Ho1). now exists o1, o2.
      * destruct (IH ({[dedup_key cs r]} ∪ seen)) as (o1 & o2 & Heq & Ho1).
        { apply not_elem_of_union. split; [|assumption].
          apply not_elem_of_singleton. congruence. }
        { assumption. }
        exists (r :: o1), o2. rewrite Heq, Ho1. now split.
Qed.

(** X21. [dedup_lines] is a stable deduplication.  Its output is a
    subsequence of the input lines without their line ends; among the lines
    that are not blank no key (the stripped text, lower-cased unless the
    run is case-sensitive) occurs twice, and the keys are exactly those of
    the input; the line kept for a key is the first input line that has it;
    blank lines are all dropped with [strip_empty] and all kept without. *)
Theorem dedup_lines_stable (lines : list string) (case_sensitive strip_empty : bool) :
  let raws := rstrip is_newline <$> lines in
  let out := dedup_lines lines case_sensitive strip_empty in
  out `sublist_of` raws
  /\ NoDup (keys_of case_sensitive out)
  /\ (forall k, k ∈ keys_of case_sensitive out <-> k ∈ keys_of case_sensitive raws)
  /\ (forall before line after,
        lines = before ++ line :: after ->
        blank (rstrip is_newline line) = false ->
        dedup_key case_sensitive (rstrip is_newline line)
          ∉ keys_of case_sensitive (rstrip is_newline <$> before) ->
        rstrip is_newline line ∈ out)
  /\ filter (fun r => blank r = true) out
     = (if strip_empty then [] else filter (fun r => blank r = true) raws).
Proof.
  intros raws out.
  destruct (dedup_loop_props case_sensitive strip_empty lines ∅)
    as (Hsub & Hnd & _ & Hall & Hbl).
  fold raws in Hsub, Hall, Hbl. fold out in Hsub, Hnd, Hall, Hbl.
  split_and!; try assumption.
  - intros k. split.
    + rewrite !keys_of_elem. intros (r & Hr & Hb & Hk). exists r.
      split; [now apply (elem_of_sublist out)|now split].
    + intros Hk. destruct (Hall k Hk) as [Hs|Ho]; [|assumption].
      now apply not_elem_of_empty in Hs.
  - intros before line after -> Hb Hk.
    destruct (dedup_loop_first case_sensitive strip_empty before after line ∅ Hb)
      as (o1 & o2 & Heq & _); [apply not_elem_of_empty|assumption|].
    unfold out, dedup_lines. rewrite Heq. apply elem_of_app. right.
    apply list_elem_of_here.
Qed.

Example dedup_lines_keywords :
  dedup_lines ["Abc" ++ String "010" ""; " abc " ++ String "010" ""; String "010" "";
               "abd"; "ABC"]%string false false
  = ["Abc"; ""; "abd"]%string.
Proof. vm_compute. reflexivity. Qed.
(** ** Stripping *)

Lemma rstrip_sub (p q : ascii -> bool) (s : string) :
  (forall c, q c = true -> p c = true) ->
  rstrip p (rstrip q s) = rstrip p s.
Proof.
  intros Hqp. induction s as [|c s IH]; [reflexivity|].
  cbn [rstrip]. destruct (rstrip q s) as [|c' r] eqn:Hr.
  - simpl in IH. rewrite <- IH.
    destruct (q c) eqn:Hq.
    + simpl. now rewrite (Hqp c Hq).
    + reflexivity.
  - change (rstrip p (String c (String c' r)))
      with (match rstrip p (String c' r) with
            | EmptyString => if p c then EmptyString else String c EmptyString
            | r0 => String c r0
            end).
    now rewrite IH.
Qed.

Lemma rstrip_idempotent (p : ascii -> bool) (s : string) :
  rstrip p (rstrip p s) = rstrip p s.
Proof. now apply rstrip_sub. Qed.

Lemma rstrip_snoc (p : ascii -> bool) (s : string) (c : ascii) :
  p c = true -> rstrip p (s ++ String c "") = rstrip p s.
Proof.
  intros Hc. induction s as [|a s IH].
  - simpl. now rewrite Hc.
  - change (String a s ++ String c "")%string with (String a (s ++ String c "")).
    cbn [rstrip]. now rewrite IH.
Qed.

Lemma lstrip_head (p : ascii -> bool) (s : string) :
  lstrip p s = ""%string \/ exists c t, lstrip p s = String c t /\ p c = false.
Proof.
  induction s as [|c s IH]; [now left|].
  simpl. destruct (p c) eqn:Hc; [assumption|]. right. now exists c, s.
Qed.

Lemma lstrip_rstrip (p : ascii -> bool) (s : string) :
  lstrip p (rstrip p (lstrip p s)) = rstrip p (lstrip p s).
Proof.
  destruct (lstrip_head p s) as [->|(c & t & -> & Hc)]; [reflexivity|].
  cbn [rstrip]. destruct (rstrip p t); rewrite ?Hc; simpl; now rewrite Hc.
Qed.

Lemma strip_idempotent (s : string) : strip (strip s) = strip s.
Proof. unfold strip. now rewrite lstrip_rstrip, rstrip_idempotent. Qed.

Lemma is_newline_space (c : ascii) : is_newline c = true -> is_space c = true.
Proof.
  unfold is_newline, is_space. cbv zeta. intros [->%Nat.eqb_eq| ->%Nat.eqb_eq]%orb_true_iff;
    reflexivity.
Qed.

(** The line end does not count for the stripped text. *)
Lemma strip_rstrip_newline (s : string) : strip (rstrip is_newline s) = strip s.
Proof.
  unfold strip. induction s as [|c s IH]; [reflexivity|].
  destruct (is_space c) eqn:Hc.
  - cbn [rstrip lstrip]. rewrite Hc, <- IH.
    destruct (rstrip is_newline s) as [|c' r] eqn:Hr.
    + destruct (is_newline c); [reflexivity|]. cbn [lstrip]. now rewrite Hc.
    + cbn [lstrip]. now rewrite Hc.
  - assert (is_newline c = false) as Hn.
    { destruct (is_newline c) eqn:Hn; [|reflexivity].
      apply is_newline_space in Hn. congruence. }
    cbn [rstrip]. 
    assert (lstrip is_space (match rstrip is_newline s with
                             | EmptyString => if is_newline c then EmptyString
                                              else String c EmptyString
                             | String a s0 => String c (String a s0)
                             end) = String c (rstrip is_newline s)) as ->.
    { destruct (rstrip is_newline s); rewrite ?Hn; cbn [lstrip]; now rewrite Hc. }
    cbn [lstrip]. rewrite Hc. cbn [rstrip].
    now rewrite (rstrip_sub is_space is_newline s is_newline_space).
Qed.

Lemma is_space_lower (c : ascii) : is_space (ascii_lower c) = is_space c.
Proof.
  unfold ascii_lower.
  destruct ((65 <=? nat_of_ascii c) && (nat_of_ascii c <=? 90))%nat eqn:Hup;
    [|reflexivity].
  apply andb_true_iff in Hup as [H1%Nat.leb_le H2%Nat.leb_le].
  unfold is_space. cbv zeta. rewrite nat_ascii_embedding by lia.
  repeat match goal with
         | |- context [(?a <=? ?b)%nat] => destruct (Nat.leb_spec a b); try lia
         end.
Qed.

Lemma lstrip_lower (s : string) : lstrip is_space (lower s) = lower (lstrip is_space s).
Proof.
  induction s as [|c s IH]; [reflexivity|].
  cbn [lower lstrip]. rewrite is_space_lower. now destruct (is_space c).
Qed.

Lemma rstrip_lower (s : string) : rstrip is_space (lower s) = lower (rstrip is_space s).
Proof.
  induction s as [|c s IH]; [reflexivity|].
  cbn [lower rstrip]. rewrite IH, is_space_lower.
  destruct (rstrip is_space s); cbn [lower]; [now destruct (is_space c)|reflexivity].
Qed.

Lemma strip_lower (s : string) : strip (lower s) = lower (strip s).
Proof. unfold strip. now rewrite lstrip_lower, rstrip_lower. Qed.

Lemma lower_empty (s : string) : lower s = ""%string -> s = ""%string.
Proof. now destruct s. Qed.

(** ** tools/dedup_file.py, run again *)

Lemma sublist_fmap_elem {A B} (f : A -> B) (l : list B) (l' : list A) (x : B) :
  l `sublist_of` (f <$> l') -> x ∈ l -> exists a, x = f a.
Proof.
  intros Hsub Hx. apply (elem_of_sublist _ _ _ Hx) in Hsub.
  apply list_elem_of_fmap in Hsub as (a & -> & _). now exists a.
Qed.

Lemma rstrip_written (r : string) : rstrip is_newline (written r) = rstrip is_newline r.
Proof. unfold written. now apply rstrip_snoc. Qed.

(** A list of raw lines with fresh, distinct keys passes the loop as it is. *)
Lemma dedup_loop_fixed (cs se : bool) (out : list string) (seen : gset string) :
  (forall r, r ∈ out -> rstrip is_newline r = r) ->
  NoDup (keys_of cs out) ->
  (forall k, k ∈ keys_of cs out -> k ∉ seen) ->
  (se = true -> forall r, r ∈ out -> blank r = false) ->
  dedup_loop cs se seen (written <$> out) = out.
Proof.
  revert seen. induction out as [|r out IH]; intros seen Hraw Hnd Hfresh Hse;
    [reflexivity|].
  rewrite fmap_cons. cbn [dedup_loop]. cbv zeta.
  rewrite !rstrip_written, !(Hraw r) by apply list_elem_of_here.
  assert (forall x, x ∈ out -> rstrip is_newline x = x) as Hraw'
    by (intros x Hx; apply Hraw; now apply list_elem_of_further).
  assert (se = true -> forall x, x ∈ out -> blank x = false) as Hse'
    by (intros E x Hx; apply (Hse E); now apply list_elem_of_further).
  unfold keys_of in Hnd, Hfresh. rewrite filter_cons in Hnd, Hfresh.
  destruct (blank r) eqn:Hb.
  - simpl in Hnd, Hfresh. destruct se.
    + rewrite (Hse eq_refl r) in Hb by apply list_elem_of_here. discriminate.
    + f_equal. now apply IH.
  - simpl in Hnd, Hfresh. apply NoDup_cons in Hnd as [Hnew Hnd].
    destruct (decide (dedup_key cs r ∈ seen)) as [Hin|_].
    + exfalso. apply (Hfresh (dedup_key cs r)); [apply list_elem_of_here|assumption].
    + f_equal. apply IH; try assumption.
      intros k Hk. apply not_elem_of_union. split.
      * apply not_elem_of_singleton. intros ->. now apply Hnew.
      * apply Hfresh. now apply list_elem_of_further.
Qed.

(** X22. [dedup_lines] is idempotent: on the lines it returned, each with the
    line end that [main] writes after it, it returns those lines again, with
    the same two options. *)
Theorem dedup_lines_idempotent (lines : list string) (case_sensitive strip_empty : bool) :
  let out := dedup_lines lines case_sensitive strip_empty in
  dedup_lines (written <$> out) case_sensitive strip_empty = out.
Proof.
  intros out.
  destruct (dedup_loop_props case_sensitive strip_empty lines ∅)
    as (Hsub & Hnd & _ & _ & Hbl).
  fold (dedup_lines lines case_sensitive strip_empty) in Hsub, Hnd, Hbl.
  fold out in Hsub, Hnd, Hbl.
  apply dedup_loop_fixed.
  - intros r Hr. destruct (sublist_fmap_elem _ _ _ _ Hsub Hr) as (line & ->).
    apply rstrip_idempotent.
  - assumption.
  - intros k _. apply not_elem_of_empty.
  - intros -> r Hr. destruct (blank r) eqn:Hb; [|reflexivity].
    assert (r ∈ filter (fun r => blank r = true) out) as Hin
      by now apply list_elem_of_filter.
    rewrite Hbl in Hin. now apply elem_of_nil in Hin.
Qed.

(** ** tools/compare_file.py *)

Lemma add_parts_elem (cs : bool) (parts : list string) (items : gset string) (k : string) :
  k ∈ add_parts cs items parts
  <-> k ∈ items
      \/ exists p, p ∈ parts /\ p <> ""%string /\ k = (if cs then p else lower p).
Proof.
  unfold add_parts. revert items. induction parts as [|p parts IH]; intros items; simpl.
  - split; [now left|]. intros [?|(p & Hp & _)]; [assumption|].
    now apply elem_of_nil in Hp.
  - rewrite IH. destruct (String.eqb_spec p "") as [->|Hne].
    + split.
      * intros [?|(q & Hq & Hne & ->)]; [now left|]. right. exists q.
        split; [now apply list_elem_of_further|now split].
      * intros [?|(q & Hq & Hne & ->)]; [now left|].
        apply elem_of_cons in Hq as [->|Hq]; [contradiction|]. right. now exists q.
    + rewrite elem_of_union, elem_of_singleton. split.
      * intros [[->|?]|(q & Hq & Hq' & ->)].
        -- right. exists p. split; [apply list_elem_of_here|now split].
        -- now left.
        -- right. exists q. split; [now apply list_elem_of_further|now split].
      * intros [?|(q & Hq & Hq' & ->)]; [left; now right|].
        apply elem_of_cons in Hq as [->|Hq]; [left; now left|]. right. now exists q.
Qed.

Lemma read_keywords_loop_elem (sep : option string) (cs : bool) (lines : list string)
    (items : gset string) (k : string) :
  k ∈ foldl (fun items line =>
               let line := strip line in
               if String.eqb line "" then items
               else add_parts cs items (parts_of sep line)) items lines
  <-> k ∈ items
      \/ exists line p, line ∈ lines /\ strip line <> ""%string
           /\ p ∈ parts_of sep (strip line) /\ p <> ""%string
           /\ k = (if cs then p else lower p).
Proof.
  revert items. induction lines as [|line lines IH]; intros items; simpl.
  - split; [now left|]. intros [?|(l & p & Hl & _)]; [assumption|].
    now apply elem_of_nil in Hl.
  - rewrite IH. destruct (String.eqb_spec (strip line) "") as [Hs|Hs].
    + split.
      * intros [?|(l & p & Hl & Hrest)]; [now left|]. right. exists l, p.
        split; [now apply list_elem_of_further|assumption].
      * intros [?|(l & p & Hl & Hl' & Hrest)]; [now left|].
        apply elem_of_cons in Hl as [->|Hl]; [contradiction|]. right. now exists l, p.
    + rewrite add_parts_elem. split.
      * intros [[?|(p & Hp & Hp' & ->)]|(l & p & Hl & Hrest)].
        -- now left.
        -- right. exists line, p. split; [apply list_elem_of_here|now split_and!].
        -- right. exists l, p. split; [now apply list_elem_of_further|assumption].
      * intros [?|(l & p & Hl & Hl' & Hp & Hp' & ->)]; [left; now left|].
        apply elem_of_cons in Hl as [->|Hl].
        -- left. right. now exists p.
        -- right. exists l, p. now split_and!.
Qed.

(** What [read_keywords] collects. *)
Lemma read_keywords_elem (lines : list string) (sep : option string) (cs : bool)
    (k : string) :
  k ∈ read_keywords lines sep cs
  <-> exists line p, line ∈ lines /\ strip line <> ""%string
        /\ p ∈ parts_of sep (strip line) /\ p <> ""%string
        /\ k = (if cs then p else lower p).
Proof.
  unfold read_keywords. rewrite read_keywords_loop_elem. split; [|now right].
  intros [Hk|?]; [|assumption]. now apply not_elem_of_empty in Hk.
Qed.

Lemma parts_of_stripped (sep : option string) (line p : string) :
  p ∈ parts_of sep (strip line) -> strip p = p.
Proof.
  unfold parts_of. destruct sep as [s|].
  - destruct (String.eqb s "").
    + intros ->%list_elem_of_singleton. apply strip_idempotent.
    + intros (x & -> & _)%list_elem_of_fmap. apply strip_idempotent.
  - intros ->%list_elem_of_singleton. apply strip_idempotent.
Qed.

(** X23. Every keyword that [read_keywords] returns is in normal form: it is
    not empty, it has no white space at either end, and, unless the
    comparison is case-sensitive, it is in lower case; this holds with and
    without a separator. *)
Theorem read_keywords_normal (lines : list string) (sep : option string)
    (case_sensitive : bool) (k : string) :
  k ∈ read_keywords lines sep case_sensitive ->
  k <> ""%string
  /\ strip k = k
  /\ (case_sensitive = false -> lower k = k).
Proof.
  intros (line & p & _ & _ & Hp & Hne & ->)%read_keywords_elem.
  apply parts_of_stripped in Hp. destruct case_sensitive.
  - split_and!; [assumption|assumption|discriminate].
  - split_and!.
    + intros E. now apply lower_empty in E.
    + now rewrite strip_lower, Hp.
    + intros _. apply lower_idempotent.
Qed.

(** Without a separator the keywords are the keys of [dedup_lines]. *)
Lemma read_keywords_keys (lines : list string) (sep : option string) (cs : bool)
    (k : string) :
  sep = None \/ sep = Some ""%string ->
  k ∈ read_keywords lines sep cs <-> k ∈ keys_of cs (rstrip is_newline <$> lines).
Proof.
  intros Hsep. rewrite read_keywords_elem, keys_of_elem.
  assert (forall line, parts_of sep (strip line) = [strip line]) as Hparts
    by (intros line; destruct Hsep as [->| ->]; reflexivity).
  unfold dedup_key, blank. split.
  - intros (line & p & Hl & Hs & Hp & _ & ->).
    rewrite Hparts in Hp. apply list_elem_of_singleton in Hp as ->.
    exists (rstrip is_newline line). rewrite strip_rstrip_newline.
    split_and!; [now apply list_elem_of_fmap_2|now apply String.eqb_neq|reflexivity].
  - intros (r & (line & -> & Hl)%list_elem_of_fmap & Hb & <-).
    rewrite strip_rstrip_newline in *. apply String.eqb_neq in Hb.
    exists line, (strip line). rewrite Hparts.
    split_and!; try done. apply list_elem_of_here.
Qed.

(** X24. Deduplicating a keyword file does not change what the comparison
    reads from it: without a separator, and with the same case option,
    [read_keywords] returns the same set on the lines [dedup_file] writes as
    on the lines it read. *)
Theorem read_keywords_after_dedup (lines : list string) (sep : option string)
    (case_sensitive strip_empty : bool) :
  sep = None \/ sep = Some ""%string ->
  read_keywords (written <$> dedup_lines lines case_sensitive strip_empty)
                sep case_sensitive
  = read_keywords lines sep case_sensitive.
Proof.
  intros Hsep. apply set_eq. intros k.
  rewrite !read_keywords_keys by assumption.
  destruct (dedup_loop_props case_sensitive strip_empty lines ∅)
    as (Hsub & _ & _ & Hall & _).
  fold (dedup_lines lines case_sensitive strip_empty) in Hsub, Hall.
  set (out := dedup_lines lines case_sensitive strip_empty) in *.
  assert (rstrip is_newline <$> (written <$> out) = out) as ->.
  { rewrite <- list_fmap_compose. rewrite <- (list_fmap_id out) at 2.
    apply list_fmap_ext. intros i r Hr. simpl. rewrite rstrip_written.
    apply list_elem_of_lookup_2 in Hr.
    destruct (sublist_fmap_elem _ _ _ _ Hsub Hr) as (line & ->).
    apply rstrip_idempotent. }
  split.
  - rewrite !keys_of_elem. intros (r & Hr & Hb & Hk). exists r.
    split; [now apply (elem_of_sublist out)|now split].
  - intros Hk. destruct (Hall k Hk) as [Hs|Ho]; [|assumption].
    now apply not_elem_of_empty in Hs.
Qed.

(** ** crawler/utils.py: the jittered delay *)

Local Open Scope Q_scope.

(** X25. [jitter_delay_ms] stays within the jitter rate of the base: for a
    rate that is not negative and any draw of [random.uniform(-delta, delta)]
    the delay of a positive base lies within [base * (1 - rate)] and
    [base * (1 + rate)], so it is not negative for a rate of at most 1;
    and for a base that is not positive it is 0. *)
Theorem jitter_delay_ms_range (base_ms : Z) (rate u : Q) :
  0 <= rate -> -1 <= u -> u <= 1 ->
  ((base_ms <= 0)%Z -> jitter_delay_ms base_ms rate u = 0)
  /\ ((0 < base_ms)%Z ->
      inject_Z base_ms * (1 - rate) <= jitter_delay_ms base_ms rate u
      /\ jitter_delay_ms base_ms rate u <= inject_Z base_ms * (1 + rate))
  /\ (rate <= 1 -> 0 <= jitter_delay_ms base_ms rate u).
Proof.
  intros Hrate Hlo Hhi. unfold jitter_delay_ms.
  destruct (Z.leb_spec base_ms 0) as [Hle|Hlt].
  - split_and!; [reflexivity|lia|intros _; apply Qle_refl].
  - assert (0 < inject_Z base_ms) as Hb.
    { change 0 with (inject_Z 0). rewrite <- Zlt_Qlt. assumption. }
    assert (0 <= inject_Z base_ms * rate) as Hd by (apply Qmult_le_0_compat; lra).
    assert (rate <= 1 -> inject_Z base_ms * rate <= inject_Z base_ms) as Hsmall.
    { intros Hr1. apply Qle_trans with (1 * inject_Z base_ms); [|lra].
      rewrite (Qmult_comm (inject_Z base_ms)). apply Qmult_le_compat_r; lra. }
    assert (inject_Z base_ms * (1 - rate) == inject_Z base_ms - inject_Z base_ms * rate)
      as E1 by ring.
    assert (inject_Z base_ms * (1 + rate) == inject_Z base_ms + inject_Z base_ms * rate)
      as E2 by ring.
    cbv zeta. rewrite E1, E2. clear E1 E2.
    generalize dependent (inject_Z base_ms * rate). intros delta Hd Hsmall.
    assert (u * delta <= delta) as Hup.
    { apply Qle_trans with (1 * delta); [apply Qmult_le_compat_r; assumption|lra]. }
    assert (- delta <= u * delta) as Hdown.
    { apply Qle_trans with ((-1) * delta); [lra|apply Qmult_le_compat_r; assumption]. }
    split_and!.
    + lia.
    + intros _. split; lra.
    + intros Hr1. specialize (Hsmall Hr1). lra.
Qed.

Local Close Scope Q_scope.
(** ** The further properties on examples *)

Lemma enqueue_postcondition_witness :
  let s' := enqueue_call ex_sched "http://a.example/x#top" in
  seen ex_sched ⊆ seen s'
  /\ allowed_domains s' = allowed_domains ex_sched
  /\ ("http://a.example/x" ∈ seen s'
      <-> "http://a.example/x" ∈ seen ex_sched \/ scoped ex_sched "http://a.example/x")
  /\ (items (queue s') = items (queue ex_sched) ++ ["http://a.example/x"]
      <-> ("http://a.example/x" ∉ seen ex_sched) /\ scoped ex_sched "http://a.example/x")
  /\ (items (queue s') = items (queue ex_sched)
      <-> "http://a.example/x" ∈ seen ex_sched \/ ~ scoped ex_sched "http://a.example/x").
Proof.
  apply (enqueue_postcondition ex_sched _ "http://a.example/x#top" "http://a.example/x").
  - vm_compute. reflexivity.
  - reflexivity.
Defined.

Lemma scheduler_init_frontier_witness :
  let seeds := ["http://a.example/x#a"; "http://a.example/x"; "http://b.example/"] in
  let s := foldl enqueue_call ex_sched seeds in
  allowed_domains s = ["a.example"]
  /\ NoDup (items (queue s))
  /\ (forall x, x ∈ seen s <-> x ∈ items (queue s))
  /\ size (seen s) = length (items (queue s))
  /\ unfinished_tasks (queue s) = length (items (queue s))
  /\ (forall x, x ∈ seen s <->
        exists u, u ∈ seeds /\ normalize_url u = Ok x
                  /\ (["a.example"] = [] \/ same_domain x ["a.example"] = Ok true)).
Proof.
  intros seeds s. apply (scheduler_init_frontier seeds ["a.example"] s).
  vm_compute. reflexivity.
Defined.

Lemma no_url_dispatched_twice_witness :
  let s := enqueue_call ex_sched "http://a.example/x" in
  NoDup (dispatches (run_start s 2) ex_acts)
  /\ (["a.example"] <> [] ->
      forall u, u ∈ dispatches (run_start s 2) ex_acts ->
        same_domain u ["a.example"] = Ok true).
Proof.
  apply (no_url_dispatched_twice ["http://a.example/x"] ["a.example"]
           (enqueue_call ex_sched "http://a.example/x") 2 ex_acts).
  vm_compute. reflexivity.
Defined.

Lemma run_can_drain_witness :
  (loop_stopped ex_run = false ->
   (exists idx w, workers ex_run !! idx = Some w /\ is_died w = false) ->
   exists more r',
     exec ex_run more = Some r'
     /\ join_returns r' = true
     /\ forallb is_quiet more = true
     /\ log r' = log ex_run
     /\ (length more <= 2 * unfinished_tasks (queue (sched ex_run)))%nat)
  /\ (Forall (fun w => is_died w = true) (workers ex_run) ->
      (forall a, step ex_run a = None)
      /\ (items (queue (sched ex_run)) <> [] -> join_returns ex_run = false)).
Proof.
  apply (run_can_drain ["http://a.example/x"] ["a.example"]
           (enqueue_call ex_sched "http://a.example/x") 2 ex_acts ex_run).
  - vm_compute. reflexivity.
  - vm_compute. reflexivity.
Defined.

(** The two cases of X4 on examples: the pool of [ex_run] drains in one
    move, and the pool whose only worker was cancelled is stuck. *)
Example run_can_drain_cases :
  (exists r', exec ex_run [Finish 1 None] = Some r' /\ join_returns r' = true)
  /\ Forall (fun w => is_died w = true) (workers ex_cancel_run)
  /\ items (queue (sched ex_cancel_run)) <> []
  /\ join_returns ex_cancel_run = false.
Proof.
  split_and!.
  - vm_compute. now eexists.
  - vm_compute. now repeat constructor.
  - vm_compute. discriminate.
  - reflexivity.
Qed.

Lemma enqueue_links_robust_witness :
  let discovered := ["http://[bad/"; "http://a.example/y#f"; "http://b.example/"] in
  "http://a.example/y" ∈ seen (enqueue_links ex_sched discovered)
  /\ seen ex_sched ⊆ seen (enqueue_links ex_sched discovered).
Proof.
  apply (enqueue_links_robust ex_sched
           ["http://[bad/"; "http://a.example/y#f"; "http://b.example/"]
           "http://a.example/y#f" "http://a.example/y").
  - apply list_elem_of_further, list_elem_of_here.
  - reflexivity.
  - right. vm_compute. reflexivity.
Defined.

Lemma next_finds_healthy_witness :
  let self := pool_run (ProxyPool_new ["a"; "b"] 3) (fail_times 3 "a") in
  exists p self',
    next self = Ok (Some p, self')
    /\ p ∈ proxies self
    /\ healthy self p
    /\ fail_counts self' = fail_counts self.
Proof.
  apply (next_finds_healthy
           (pool_run (ProxyPool_new ["a"; "b"] 3) (fail_times 3 "a")) "b").
  - right. simpl. lia.
  - apply list_elem_of_further, list_elem_of_here.
  - vm_compute. reflexivity.
Defined.

Lemma next_round_robin_witness :
  let self := pool_apply (ProxyPool_new ["a"; "b"; "c"] 3) OpNext in
  exists self',
    next_n 3 self = Ok ([Some "b"; Some "c"; Some "a"], self')
    /\ _idx self' = _idx self
    /\ proxies self' = proxies self
    /\ fail_counts self' = fail_counts self.
Proof.
  apply (next_round_robin (pool_apply (ProxyPool_new ["a"; "b"; "c"] 3) OpNext)).
  - right. vm_compute. lia.
  - discriminate.
  - intros q Hq. simpl in Hq.
    repeat (apply elem_of_cons in Hq as [->|Hq]; [vm_compute; reflexivity|]).
    now apply elem_of_nil in Hq.
Defined.

Lemma mark_success_resets_witness :
  let self := pool_run (ProxyPool_new ["a"; "b"] 3) (fail_times 3 "a" ++ fail_times 1 "b") in
  let healed := pool_run (mark_success self (Some "a")) (fail_times 2 "a") in
  fail_count healed "a" = 2%nat
  /\ (healthy healed "a" <-> Z.of_nat 2 < fail_threshold self)
  /\ ("b" <> "a" -> fail_count healed "b" = fail_count self "b").
Proof.
  apply (mark_success_resets
           (pool_run (ProxyPool_new ["a"; "b"] 3) (fail_times 3 "a" ++ fail_times 1 "b"))
           "a" "b" 2).
  discriminate.
Defined.

Lemma wait_spacing_witness :
  let self := DomainRateLimiter_new 800 in
  let w := world_of (robots_down RequestError) always_503 in
  let s1 := fst (fst (wait self w "a.example")) in
  let w1 := snd (fst (wait self w "a.example")) in
  let s2 := fst (fst (wait s1 w1 "a.example")) in
  let w3 := snd (fst (wait s1 w1 "a.example")) in
  last_request_ts s1 !! "a.example" = Some (now w1)
  /\ last_request_ts s2 !! "a.example" = Some (now w3)
  /\ (now w1 + inject_Z (delay_ms self) / 1000 <= now w3)%Q
  /\ (now w <= now w1)%Q /\ (now w1 <= now w3)%Q
  /\ forall other, other <> "a.example" ->
       last_request_ts s2 !! other = last_request_ts self !! other.
Proof.
  apply (wait_spacing (DomainRateLimiter_new 800)
           (world_of (robots_down RequestError) always_503)
           (snd (fst (wait (DomainRateLimiter_new 800)
                        (world_of (robots_down RequestError) always_503) "a.example")))
           "a.example").
  vm_compute. discriminate.
Defined.

Lemma backoff_delay_near_base_witness :
  let self := {| initial_ms := 500; max_ms := 8000 |} in
  let rnd := round_to 1024 in
  let base := rnd (inject_Z (backoff_base self 3)) in
  let jitter := rnd (base * rnd (2 # 10))%Q in
  exists d, compute_delay_ms_fl rnd self 3 (1000123 # 1000) = Ok d
    /\ (rnd (rnd (base + rnd 0) - rnd (jitter / 2)) <= d)%Q
    /\ (d <= rnd (rnd (base + rnd jitter) - rnd (jitter / 2)))%Q
    /\ ((forall x, rnd x == x)%Q ->
        ((9 # 10) * inject_Z (backoff_base self 3) <= d)%Q
        /\ (d <= (11 # 10) * inject_Z (backoff_base self 3))%Q).
Proof.
  apply (backoff_delay_near_base (round_to 1024) {| initial_ms := 500; max_ms := 8000 |}
           3 (1000123 # 1000)).
  - intros x y. apply round_to_mono.
  - vm_compute. reflexivity.
Defined.

Lemma backoff_delay_grows_witness :
  let self := {| initial_ms := 500; max_ms := 8000 |} in
  exists d d',
    compute_delay_ms self 1 (1000999 # 1000) = Ok d
    /\ compute_delay_ms self 3 (1000000 # 1000) = Ok d'
    /\ (d < d')%Q.
Proof.
  apply (backoff_delay_grows {| initial_ms := 500; max_ms := 8000 |} 1 3
           (1000999 # 1000) (1000000 # 1000)); simpl; lia.
Defined.

Lemma backoff_base_saturates_witness :
  let self := {| initial_ms := 500; max_ms := 8000 |} in
  backoff_base self 5 <= backoff_base self 9
  /\ backoff_base self 5 <= max_ms self
  /\ (5 <= 1 -> backoff_base self 5 = Z.min (initial_ms self) (max_ms self))
  /\ (1 <= 5 -> max_ms self <= initial_ms self * 2 ^ (5 - 1) ->
      backoff_base self 9 = max_ms self).
Proof.
  apply (backoff_base_saturates {| initial_ms := 500; max_ms := 8000 |} 5 9); simpl; lia.
Defined.

Lemma fetch_never_raises_witness :
  let st := fresh (Fetcher_new [] ["p1"; "p2"] 800 2 500 8000 true)
                  (world_of (fun _ => ReadHTTPError 404) (fun _ => NetworkError)) in
  exists status text st' evs,
    fetch st "http://a.example/x" = (Ok (status, text), st')
    /\ trace st' = trace st ++ evs
    /\ ((status = 451 /\ text = "Blocked by robots.txt"
         /\ count is_request evs = 0%nat)
        \/ loop_answer (net (world st)) status text)
    /\ (count is_request evs <= Z.to_nat (max_retries (fetcher st) + 1))%nat
    /\ (count is_backoff_sleep evs <= count is_request evs)%nat.
Proof.
  apply (fetch_never_raises
           (fresh (Fetcher_new [] ["p1"; "p2"] 800 2 500 8000 true)
                  (world_of (fun _ => ReadHTTPError 404) (fun _ => NetworkError)))
           "http://a.example/x" "a.example").
  - reflexivity.
  - right. simpl. lia.
  - simpl. lia.
  - simpl. lia.
Defined.

Lemma fetch_succeeds_after_retries_witness :
  let st := fresh (Fetcher_new [] [] 800 2 500 8000 false)
                  (world_of (robots_down RequestError) once_503) in
  exists st' evs,
    fetch st "http://a.example/x" = (Ok (200, "ok"), st')
    /\ trace st' = trace st ++ evs
    /\ count is_request evs = 2%nat
    /\ count is_backoff_sleep evs = 1%nat
    /\ count is_rate_limit evs = 1%nat.
Proof.
  apply (fetch_succeeds_after_retries
           (fresh (Fetcher_new [] [] 800 2 500 8000 false)
                  (world_of (robots_down RequestError) once_503))
           "http://a.example/x" "a.example" 1 200 "ok").
  - reflexivity.
  - reflexivity.
  - simpl. lia.
  - left. reflexivity.
  - simpl. lia.
  - simpl. lia.
  - intros i Hi. assert (i = 0%nat) as -> by lia. reflexivity.
  - reflexivity.
  - reflexivity.
Defined.

Lemma fetch_without_robots_witness :
  let st := fresh (Fetcher_new [] [] 800 2 500 8000 false)
                  (world_of robots_disallow once_503) in
  robots (fetcher (snd (fetch st "http://a.example/x"))) = robots (fetcher st)
  /\ exists evs, trace (snd (fetch st "http://a.example/x")) = trace st ++ evs
       /\ count is_robots_read evs = 0%nat.
Proof.
  apply (fetch_without_robots
           (fresh (Fetcher_new [] [] 800 2 500 8000 false)
                  (world_of robots_disallow once_503))
           "http://a.example/x").
  reflexivity.
Defined.


Lemma same_domain_spec_witness :
  let url := "http://Shop.A.example/x" in
  let domains := ["B.example"; "a.EXAMPLE"] in
  (same_domain url domains = Ok true <->
     exists a pre, a ∈ domains /\ lower "Shop.A.example" = (pre ++ lower a)%string)
  /\ ("" ∈ domains -> same_domain url domains = Ok true)
  /\ same_domain url [] = Ok false
  /\ same_domain url (lower <$> domains) = same_domain url domains.
Proof.
  apply (same_domain_spec "http://Shop.A.example/x" "Shop.A.example"
           ["B.example"; "a.EXAMPLE"]).
  reflexivity.
Defined.

Lemma safe_name_safe_witness :
  (String.length (safe_name sha1_of_empty ex_long_url) <= 180)%nat
  /\ contains "/" (safe_name sha1_of_empty ex_long_url) = false
  /\ contains ":" (safe_name sha1_of_empty ex_long_url) = false
  /\ contains "?" (safe_name sha1_of_empty ex_long_url) = false
  /\ ((String.length ex_long_url <= 180)%nat ->
      contains "/" ex_long_url = false -> contains ":" ex_long_url = false ->
      contains "?" ex_long_url = false ->
      safe_name sha1_of_empty ex_long_url = ex_long_url).
Proof.
  apply (safe_name_safe sha1_of_empty ex_long_url); reflexivity.
Defined.

Lemma safe_name_collides_witness :
  let s := "http://a.example/a" in
  let t := "b" in
  safe_name sha1_of_empty (s ++ "/" ++ t)%string
  = safe_name sha1_of_empty (s ++ ":" ++ t)%string
  /\ safe_name sha1_of_empty (s ++ "/" ++ t)%string
     = safe_name sha1_of_empty (s ++ "?" ++ t)%string
  /\ safe_name sha1_of_empty (s ++ "/" ++ t)%string
     = safe_name sha1_of_empty (s ++ "_" ++ t)%string
  /\ (s ++ "/" ++ t)%string <> (s ++ ":" ++ t)%string.
Proof.
  apply (safe_name_collides sha1_of_empty "http://a.example/a" "b").
  simpl. lia.
Defined.

Example ex_long_url_name :
  String.length ex_long_url = 256%nat
  /\ safe_name sha1_of_empty ex_long_url
     = ("http___a.example_segment_segment_segment_segment_segment_seg"
        ++ "__da39a3ee5e6b4b0d3255bfef95601890afd80709")%string.
Proof. vm_compute. split; reflexivity. Qed.

Lemma read_keywords_normal_witness :
  "foo"%string <> ""%string
  /\ strip "foo" = "foo"%string
  /\ (false = false -> lower "foo" = "foo"%string).
Proof.
  apply (read_keywords_normal [written " Foo , bar,,"; written ""; "BAZ"]
           (Some ","%string) false "foo").
  vm_compute. reflexivity.
Defined.

Lemma read_keywords_after_dedup_witness :
  let lines := [written "Abc"; written " abc "; written ""; "abd"] in
  read_keywords (written <$> dedup_lines lines false true) None false
  = read_keywords lines None false.
Proof.
  apply (read_keywords_after_dedup
           [written "Abc"; written " abc "; written ""; "abd"] None false true).
  left. reflexivity.
Defined.

Lemma jitter_delay_ms_range_witness :
  ((800 <= 0)%Z -> jitter_delay_ms 800 (3 # 10) (-1 # 2) = 0%Q)
  /\ ((0 < 800)%Z ->
      (inject_Z 800 * (1 - (3 # 10)) <= jitter_delay_ms 800 (3 # 10) (-1 # 2))%Q
      /\ (jitter_delay_ms 800 (3 # 10) (-1 # 2) <= inject_Z 800 * (1 + (3 # 10)))%Q)
  /\ ((3 # 10) <= 1 -> 0 <= jitter_delay_ms 800 (3 # 10) (-1 # 2))%Q.
Proof.
  apply (jitter_delay_ms_range 800 (3 # 10) (-1 # 2)); vm_compute; discriminate.
Defined.

Example split_examples :
  split "," "a,b" = ["a"; "b"]%string
  /\ split "," "," = [""; ""]%string
  /\ split "," "" = [""]%string
  /\ split "ab" "xabab" = ["x"; ""; ""]%string
  /\ split "aa" "aaa" = [""; "a"]%string.
Proof. vm_compute. split_and!; reflexivity. Qed.

Example read_keywords_example :
  read_keywords [written " Foo , bar,,"; written ""; "BAZ"] (Some ","%string) false
  = {["foo"; "bar"; "baz"]}%string.
Proof. vm_compute. reflexivity. Qed.
